(** * Volt: the string scanner of the lexer and the tree-walking evaluator

    A shallow embedding of [src/lexer.py] (the string-literal scanner) and of
    [src/interpreter.py] (environments, runtime values, the evaluator and its
    method tables), followed by the properties of the specification that are
    settled on it.

    Conventions of the embedding.
    - Python objects that are mutated and shared by reference (the
      [variables] dictionary of an [Environment], lists, dictionaries, the
      [properties] of an instance) live in a store and are named by a
      location; a location is never reused.
    - The [parent] link of an [Environment], the [klass] of an instance and
      the fields of functions and classes are never assigned after
      construction, so they are kept inside the value.
    - The evaluator raises Python exceptions for control flow; a computation
      here returns [Ok], or [Raise] with the exception, in the state reached.
      [Abort] is not a behaviour of the program: it says that the embedding
      gives no answer (not enough fuel, or a host primitive that is not
      embedded).
    - Floating numbers are IEEE-754 binary64 values in the representation of
      the standard library ([spec_float]), integers are unbounded ([Z]). *)

From Stdlib Require Import ZArith Ascii String List Bool Lia Sorted.
From Stdlib Require Import Floats.SpecFloat.
From stdpp Require Import base option list strings gmap.

Set Warnings "-register-all".

(** ** Abstract syntax ([src/ast_nodes.py]) *)

Inductive num :=
| NInt (z : Z)
| NFloat (f : spec_float).

Inductive node :=
| Program (statements : list node)
| NumberLiteral (value : num)
| StringLiteral (value : string)
| BooleanLiteral (value : bool)
| NullLiteral
| ListLiteral (elements : list node)
| DictLiteral (pairs : list (node * node))
| StringInterpolation (parts : list node)
| Identifier (name : string)
| IndexAccess (obj index : node)
| DotAccess (obj : node) (property : string)
| ThisExpression
| SuperMethodCall (method : string) (args : list node)
| BinaryOp (op : string) (left right : node)
| UnaryOp (op : string) (operand : node)
| FunctionCall (name : string) (args : list node)
| MethodCall (obj : node) (method : string) (args : list node)
| CallExpression (callee : node) (args : list node)
| NewExpression (class_name : string) (args : list node)
| LambdaExpression (params : list (string * option node)) (body : node)
| Assignment (target value : node)
| ShowStatement (expression : node)
| AskStatement (prompt : node) (variable : string)
| IfStatement (condition : node) (body : list node)
    (elif_clauses : list (node * list node)) (else_body : option (list node))
| WhileStatement (condition : node) (body : list node)
| LoopTimesStatement (count : node) (body : list node)
| LoopRangeStatement (variable : string) (start stop : node) (body : list node)
| ForInStatement (variable : string) (variable2 : option string)
    (iterable : node) (body : list node)
| FuncDeclaration (name : string) (params : list (string * option node))
    (body : list node)
| ReturnStatement (value : option node)
| BreakStatement
| ContinueStatement
| PushStatement (list_expr value : node)
| PopStatement (list_expr : node)
| ClassDeclaration (name : string) (parent : option string)
    (methods : list (string * list (string * option node) * list node))
| MatchStatement (value : node) (cases : list (node * list node))
    (default_body : option (list node))
| TryCatchStatement (try_body : list node) (catch_var : option string)
    (catch_body : option (list node)) (finally_body : option (list node))
| ThrowStatement (value : node)
| DestructureList (names : list string) (value : node)
| DestructureDict (names : list string) (value : node)
| UseStatement (module_name : string).

Definition param := (string * option node)%type.

(** ** Runtime values and the store *)

Definition loc := nat.

(** [class Environment]: [variables] is the location of the frame's
    dictionary, [parent] the enclosing environment. *)
Inductive Environment :=
| Env (variables : loc) (parent : option Environment).

Definition variables (e : Environment) : loc :=
  match e with Env l _ => l end.

Definition parent (e : Environment) : option Environment :=
  match e with Env _ p => p end.

(** [class VoltFunction]; [fn_id] stands for the identity of the Python
    object. *)
Record VoltFunction := mkFunction {
  fn_id : nat;
  fn_name : string;
  fn_params : list param;
  fn_body : list node;
  closure_env : Environment
}.

(** [class VoltClass]; [cls_id] stands for the identity of the object. *)
Inductive VoltClass :=
| mkClass (cls_id : nat) (cls_name : string) (cls_parent : option VoltClass)
    (cls_methods : gmap string VoltFunction) (cls_env : Environment).

Definition cls_id (c : VoltClass) : nat :=
  match c with mkClass i _ _ _ _ => i end.
Definition cls_name (c : VoltClass) : string :=
  match c with mkClass _ n _ _ _ => n end.
Definition cls_parent (c : VoltClass) : option VoltClass :=
  match c with mkClass _ _ p _ _ => p end.
Definition cls_methods (c : VoltClass) : gmap string VoltFunction :=
  match c with mkClass _ _ _ m _ => m end.
Definition cls_env (c : VoltClass) : Environment :=
  match c with mkClass _ _ _ _ e => e end.

(** [class VoltInstance]: the class and the location of [properties]. *)
Record VoltInstance := mkInstance {
  klass : VoltClass;
  properties : loc
}.

Inductive value :=
| VNull
| VBool (b : bool)
| VInt (z : Z)
| VFloat (f : spec_float)
| VStr (s : string)
| VList (l : loc)
| VDict (l : loc)
| VFunc (f : VoltFunction)
| VClass (c : VoltClass)
| VInst (i : VoltInstance)
| VModule (l : loc).

(** A module made by [use] of a source file ([VoltModule] in
    [src/stdlib.py]): the snapshot of the module's bindings, and for each
    function among them the Python closure
    [lambda args: self._call_volt_function(fn, args, module_env)],
    kept as the pair of [fn] and [module_env]. *)
Record VoltModule := mkModule {
  mod_name : string;
  mod_properties : gmap string value;
  mod_methods : gmap string (VoltFunction * Environment)
}.

Record state := mkState {
  frames : list (gmap string value);
  lists : list (list value);
  dicts : list (list (value * value));
  instances : list (gmap string value);
  modules : list VoltModule;
  next_id : nat;
  stdout : list string;
  stdin : list string;
  files : gmap string (list node)
}.

Definition set_frames (f : list (gmap string value) → list (gmap string value))
    (st : state) : state :=
  mkState (f (frames st)) (lists st) (dicts st) (instances st) (modules st)
    (next_id st) (stdout st) (stdin st) (files st).

Definition set_lists (f : list (list value) → list (list value))
    (st : state) : state :=
  mkState (frames st) (f (lists st)) (dicts st) (instances st) (modules st)
    (next_id st) (stdout st) (stdin st) (files st).

Definition set_dicts (f : list (list (value * value)) → list (list (value * value)))
    (st : state) : state :=
  mkState (frames st) (lists st) (f (dicts st)) (instances st) (modules st)
    (next_id st) (stdout st) (stdin st) (files st).

Definition set_instances (f : list (gmap string value) → list (gmap string value))
    (st : state) : state :=
  mkState (frames st) (lists st) (dicts st) (f (instances st)) (modules st)
    (next_id st) (stdout st) (stdin st) (files st).

Definition set_modules (f : list VoltModule → list VoltModule)
    (st : state) : state :=
  mkState (frames st) (lists st) (dicts st) (instances st) (f (modules st))
    (next_id st) (stdout st) (stdin st) (files st).

Definition set_next_id (f : nat → nat) (st : state) : state :=
  mkState (frames st) (lists st) (dicts st) (instances st) (modules st)
    (f (next_id st)) (stdout st) (stdin st) (files st).

Definition set_stdout (f : list string → list string) (st : state) : state :=
  mkState (frames st) (lists st) (dicts st) (instances st) (modules st)
    (next_id st) (f (stdout st)) (stdin st) (files st).

Definition set_stdin (f : list string → list string) (st : state) : state :=
  mkState (frames st) (lists st) (dicts st) (instances st) (modules st)
    (next_id st) (stdout st) (f (stdin st)) (files st).

(** ** Exceptions and the evaluation monad *)

(** Python exception classes other than the interpreter's own. *)
Inductive host_error :=
| TypeError | ValueError | KeyError | IndexError | OverflowError | EOFError
| RuntimeError
| AttributeError.

Inductive signal :=
| ReturnSignal (value : value)
| BreakSignal
| ContinueSignal
| VoltRuntimeError (message : string)
| VoltThrowError (value : value)
| HostError (kind : host_error) (text : string).

Inductive abort :=
| OutOfFuel
| Unmodelled (what : string).

Inductive result (A : Type) :=
| Ok (a : A) (st : state)
| Raise (s : signal) (st : state)
| Abort (r : abort).

Arguments Ok {A} a st.
Arguments Raise {A} s st.
Arguments Abort {A} r.

Definition M (A : Type) : Type := state → result A.

Definition ret {A} (a : A) : M A := fun st => Ok a st.

Definition bind {A B} (m : M A) (k : A → M B) : M B :=
  fun st =>
    match m st with
    | Ok a st' => k a st'
    | Raise s st' => Raise s st'
    | Abort r => Abort r
    end.

Definition raise {A} (s : signal) : M A := fun st => Raise s st.
Definition abort_with {A} (r : abort) : M A := fun _ => Abort r.
Definition gets {A} (f : state → A) : M A := fun st => Ok (f st) st.
Definition modify (f : state → state) : M unit := fun st => Ok tt (f st).

Notation "x <- m ;; k" := (bind m (fun x => k))
  (at level 100, m at next level, right associativity).
Notation "m ;;; k" := (bind m (fun _ => k))
  (at level 100, right associativity).

(** [str(e)] for a [VoltRuntimeError]: the constructor prefixes the message. *)
Definition runtime_error_str (message : string) : string :=
  "Runtime Error: " +:+ message.

(** Python's [try: m finally: fin]. *)
Definition try_finally {A} (m : M A) (fin : M unit) : M A :=
  fun st =>
    match m st with
    | Ok a st1 =>
        match fin st1 with
        | Ok _ st2 => Ok a st2
        | Raise s st2 => Raise s st2
        | Abort r => Abort r
        end
    | Raise s st1 =>
        match fin st1 with
        | Ok _ st2 => Raise s st2
        | Raise s' st2 => Raise s' st2
        | Abort r => Abort r
        end
    | Abort r => Abort r
    end.

(** ** [class Environment] *)

Definition frame_vars (st : state) (l : loc) : gmap string value :=
  default ∅ (frames st !! l).

(** [Environment(parent)]: a new, empty [variables] dictionary. *)
Definition new_env (p : option Environment) : M Environment :=
  fun st => Ok (Env (length (frames st)) p) (set_frames (fun fs => fs ++ [∅]) st).

Fixpoint env_lookup (st : state) (e : Environment) (name : string) : option value :=
  match e with
  | Env l p =>
      match frame_vars st l !! name with
      | Some v => Some v
      | None =>
          match p with
          | Some e' => env_lookup st e' name
          | None => None
          end
      end
  end.

(** [Environment.get] *)
Definition env_get (e : Environment) (name : string) : M value :=
  fun st =>
    match env_lookup st e name with
    | Some v => Ok v st
    | None => Raise (VoltRuntimeError ("Undefined variable: '" +:+ name +:+ "'")) st
    end.

(** [Environment.set] *)
Definition env_set (e : Environment) (name : string) (v : value) : M unit :=
  modify (set_frames (fun fs => <[variables e := <[name := v]> (default ∅ (fs !! variables e))]> fs)).

(** [Environment.update]: [Some] of the new state when it returns [True]. *)
Fixpoint env_update (st : state) (e : Environment) (name : string) (v : value)
    : option state :=
  match e with
  | Env l p =>
      match frame_vars st l !! name with
      | Some _ => Some (set_frames (fun fs => <[l := <[name := v]> (frame_vars st l)]> fs) st)
      | None =>
          match p with
          | Some e' => env_update st e' name v
          | None => None
          end
      end
  end.

(** [Environment.has] *)
Fixpoint env_has (st : state) (e : Environment) (name : string) : bool :=
  match e with
  | Env l p =>
      match frame_vars st l !! name with
      | Some _ => true
      | None =>
          match p with
          | Some e' => env_has st e' name
          | None => false
          end
      end
  end.

(** ** Host primitives

    Python built-ins that the interpreter calls.  Strings are sequences of
    bytes here; the functions below agree with Python on ASCII text. *)

#[global] Instance spec_float_eq_dec : EqDecision spec_float.
Proof. solve_decision. Defined.

Definition prec : Z := 53.
Definition emax : Z := 1024.

(** [float(z)] for an integer: [None] stands for [OverflowError]. *)
Definition float_of_Z (z : Z) : option spec_float :=
  match binary_normalize prec emax z 0 false with
  | S754_infinity _ => None
  | f => Some f
  end.

(** [int(f)] for a float: truncation towards zero; [inl] for the exception
    raised on infinities and NaN. *)
Definition Z_of_float (f : spec_float) : host_error + Z :=
  match f with
  | S754_zero _ => inr 0%Z
  | S754_finite s m e => inr (cond_Zopp s (Z.shiftl (Zpos m) e))
  | S754_infinity _ => inl OverflowError
  | S754_nan => inl ValueError
  end.

(** [f == z] between a float and an integer (exact, as Python compares). *)
Definition float_eq_Z (f : spec_float) (z : Z) : bool :=
  match f with
  | S754_zero _ => (z =? 0)%Z
  | S754_finite s m e =>
      if (0 <=? e)%Z then (z =? cond_Zopp s (Zpos m * 2 ^ e))%Z
      else (z * 2 ^ (- e) =? cond_Zopp s (Zpos m))%Z
  | _ => false
  end.

(** [str(z)] for an integer. *)
Definition str_of_Z (z : Z) : string := pretty.pretty z.

Definition chars (s : string) : list ascii := list_ascii_of_string s.
Definition text (l : list ascii) : string := string_of_list_ascii l.

Definition is_space (c : ascii) : bool :=
  let n := nat_of_ascii c in
  ((9 <=? n) && (n <=? 13)) || ((28 <=? n) && (n <=? 32)).

Definition is_digit (c : ascii) : bool :=
  let n := nat_of_ascii c in (48 <=? n) && (n <=? 57).

Definition digit_val (c : ascii) : Z := Z.of_nat (nat_of_ascii c - 48).

Definition lower_char (c : ascii) : ascii :=
  let n := nat_of_ascii c in
  if (65 <=? n) && (n <=? 90) then ascii_of_nat (n + 32) else c.

(** [s.lower()] *)
Definition str_lower (s : string) : string := text (map lower_char (chars s)).

Fixpoint lstrip (l : list ascii) : list ascii :=
  match l with
  | c :: r => if is_space c then lstrip r else l
  | [] => []
  end.

(** [s.strip()] *)
Definition strip (l : list ascii) : list ascii := rev (lstrip (rev (lstrip l))).

(** Digits after the first one of a [digitpart]: a digit, or an underscore
    followed by a digit.  Returns the number read so far, how many digits it
    has, and what is left. *)
Fixpoint digits_tail (acc : Z) (n : nat) (l : list ascii) : Z * nat * list ascii :=
  match l with
  | c :: r =>
      if is_digit c then digits_tail (10 * acc + digit_val c) (S n) r
      else if Ascii.eqb c "_" then
        match r with
        | d :: r' =>
            if is_digit d then digits_tail (10 * acc + digit_val d) (S n) r'
            else (acc, n, l)
        | [] => (acc, n, l)
        end
      else (acc, n, l)
  | [] => (acc, n, [])
  end.

Definition digitpart (acc : Z) (l : list ascii) : option (Z * nat * list ascii) :=
  match l with
  | c :: r => if is_digit c then Some (digits_tail (10 * acc + digit_val c) 1 r) else None
  | [] => None
  end.

Definition split_sign (l : list ascii) : bool * list ascii :=
  match l with
  | c :: r =>
      if Ascii.eqb c "-" then (true, r)
      else if Ascii.eqb c "+" then (false, r)
      else (false, l)
  | [] => (false, [])
  end.

(** [int(s)] for a string: [None] stands for [ValueError]. *)
Definition py_int (s : string) : option Z :=
  let '(neg, l) := split_sign (strip (chars s)) in
  match digitpart 0 l with
  | Some (z, _, []) => Some (cond_Zopp neg z)
  | _ => None
  end.

(** The binary64 value nearest to [m * 10 ^ e] (ties to even). *)
Definition decimal_to_float (neg : bool) (m e : Z) : spec_float :=
  match m with
  | Zpos p =>
      if (0 <=? e)%Z then binary_round prec emax neg (p * Z.to_pos (10 ^ e)) 0
      else SFdiv prec emax (S754_finite neg p 0)
             (S754_finite false (Z.to_pos (10 ^ (- e))) 0)
  | _ => S754_zero neg
  end.

(** The exponent part of a decimal literal: [None] when malformed. *)
Definition exponent_part (l : list ascii) : option Z :=
  match l with
  | [] => Some 0%Z
  | c :: r =>
      if Ascii.eqb (lower_char c) "e" then
        let '(neg, r') := split_sign r in
        match digitpart 0 r' with
        | Some (z, _, []) => Some (cond_Zopp neg z)
        | _ => None
        end
      else None
  end.

(** [float(s)] for a string: [None] stands for [ValueError]. *)
Definition py_float (s : string) : option spec_float :=
  let '(neg, l) := split_sign (strip (chars s)) in
  let word := text (map lower_char l) in
  if bool_decide (word = "inf") || bool_decide (word = "infinity") then
    Some (S754_infinity neg)
  else if bool_decide (word = "nan") then Some S754_nan
  else
    let '(zi, ni, r1) :=
      match digitpart 0 l with
      | Some x => x
      | None => (0%Z, 0, l)
      end in
    let '(zf, nf, r2) :=
      match r1 with
      | c :: r =>
          if Ascii.eqb c "." then
            match digitpart zi r with
            | Some (z, n, r') => (z, n, r')
            | None => (zi, 0, r)
            end
          else (zi, 0, r1)
      | [] => (zi, 0, [])
      end in
    if (ni + nf =? 0) then None
    else
      match exponent_part r2 with
      | Some e => Some (decimal_to_float neg zf (e - Z.of_nat nf))
      | None => None
      end.

(** *** Numbers *)

(** Python's numeric tower as the interpreter meets it: [bool] is a subclass
    of [int], so booleans take part in arithmetic and comparisons as 0/1. *)
Inductive numv :=
| NumZ (z : Z)
| NumF (f : spec_float).

Definition as_number (v : value) : option numv :=
  match v with
  | VBool b => Some (NumZ (if b then 1 else 0))
  | VInt z => Some (NumZ z)
  | VFloat f => Some (NumF f)
  | _ => None
  end.

(** Exact comparison of an integer with a float; [None] when unordered. *)
Definition Z_float_compare (z : Z) (f : spec_float) : option comparison :=
  match f with
  | S754_nan => None
  | S754_infinity s => Some (if s then Gt else Lt)
  | S754_zero _ => Some (z ?= 0)%Z
  | S754_finite s m e =>
      if (0 <=? e)%Z then Some (z ?= cond_Zopp s (Zpos m * 2 ^ e))%Z
      else Some (z * 2 ^ (- e) ?= cond_Zopp s (Zpos m))%Z
  end.

Definition num_compare (a b : numv) : option comparison :=
  match a, b with
  | NumZ x, NumZ y => Some (x ?= y)%Z
  | NumF x, NumF y => SFcompare x y
  | NumZ x, NumF y => Z_float_compare x y
  | NumF x, NumZ y => CompOpp <$> Z_float_compare y x
  end.

(** [a == b] on numbers: false as soon as a NaN is involved. *)
Definition num_eqb (a b : numv) : bool :=
  match num_compare a b with
  | Some Eq => true
  | _ => false
  end.

(** [a + b] on numbers. *)
Definition num_add (a b : numv) : host_error + value :=
  match a, b with
  | NumZ x, NumZ y => inr (VInt (x + y))
  | NumF x, NumF y => inr (VFloat (SFadd prec emax x y))
  | NumZ x, NumF y =>
      match float_of_Z x with
      | Some fx => inr (VFloat (SFadd prec emax fx y))
      | None => inl OverflowError
      end
  | NumF x, NumZ y =>
      match float_of_Z y with
      | Some fy => inr (VFloat (SFadd prec emax x fy))
      | None => inl OverflowError
      end
  end.

(** [int(v)] *)
Definition py_int_conv (v : value) : host_error + Z :=
  match v with
  | VBool b => inr (if b then 1 else 0)%Z
  | VInt z => inr z
  | VFloat f => Z_of_float f
  | VStr s => match py_int s with Some z => inr z | None => inl ValueError end
  | _ => inl TypeError
  end.

(** *** Sequences *)

Definition get_list (st : state) (l : loc) : list value :=
  default [] (lists st !! l).

Definition get_dict (st : state) (l : loc) : list (value * value) :=
  default [] (dicts st !! l).

Definition get_props (st : state) (l : loc) : gmap string value :=
  default ∅ (instances st !! l).

(** The position that index [i] denotes in a sequence of length [n]
    (negative indices count from the end), when it is in range. *)
Definition py_index (n : nat) (i : Z) : option nat :=
  if (0 <=? i)%Z && (i <? Z.of_nat n)%Z then Some (Z.to_nat i)
  else if (i <? 0)%Z && (- Z.of_nat n <=? i)%Z then Some (Z.to_nat (i + Z.of_nat n))
  else None.

(** The bound of a slice, clamped as Python does. *)
Definition slice_bound (n : nat) (i : Z) : nat :=
  if (i <? 0)%Z then Z.to_nat (Z.max 0 (i + Z.of_nat n))
  else Nat.min n (Z.to_nat i).

(** [xs[a:b]] *)
Definition py_slice {A} (xs : list A) (a b : Z) : list A :=
  let lo := slice_bound (length xs) a in
  let hi := slice_bound (length xs) b in
  take (hi - lo) (drop lo xs).

(** [xs.insert(i, x)] *)
Definition py_insert {A} (xs : list A) (i : Z) (x : A) : list A :=
  let p := slice_bound (length xs) i in
  take p xs ++ x :: drop p xs.

Fixpoint str_join (sep : string) (l : list string) : string :=
  match l with
  | [] => ""
  | [s] => s
  | s :: r => s +:+ sep +:+ str_join sep r
  end.

(** *** Truthiness, type names, [repr] *)

(** [Interpreter._is_truthy] *)
Definition is_truthy (st : state) (v : value) : bool :=
  match v with
  | VNull => false
  | VBool b => b
  | VInt z => negb (z =? 0)%Z
  | VFloat f => match f with S754_zero _ => false | _ => true end
  | VStr s => negb (bool_decide (s = ""))
  | VList l => negb (bool_decide (get_list st l = []))
  | VDict l => match get_dict st l with [] => false | _ => true end
  | _ => true
  end.

(** [Interpreter._type_name] *)
Definition type_name (v : value) : string :=
  match v with
  | VNull => "null"
  | VBool _ => "boolean"
  | VInt _ => "int"
  | VFloat _ => "float"
  | VStr _ => "string"
  | VList _ => "list"
  | VDict _ => "dict"
  | VFunc _ => "function"
  | VClass _ => "class"
  | VInst i => cls_name (klass i)
  | VModule _ => "module"
  end.

(** [VoltFunction.__repr__] *)
Definition repr_function (f : VoltFunction) : string :=
  "<func " +:+ fn_name f +:+ "(" +:+ str_join ", " (map fst (fn_params f)) +:+ ")>".

(** [VoltClass.__repr__] *)
Definition repr_class (c : VoltClass) : string :=
  "<class " +:+ cls_name c +:+ ">".

(** [VoltInstance.__repr__] *)
Definition repr_instance (i : VoltInstance) : string :=
  "<" +:+ cls_name (klass i) +:+ " instance>".

(** [VoltModule.__repr__] *)
Definition repr_module (m : VoltModule) : string :=
  "<module '" +:+ mod_name m +:+ "'>".

(** *** Dictionaries

    A Python dictionary keeps its entries in insertion order and finds a key
    by hash and [==].  [py_hash] gives every hashable value a key that is
    equal for two values exactly when Python treats them as the same key:
    numbers by their value ([1], [1.0] and [True] are one key), strings by
    content, functions, classes, instances and modules by identity.  NaN is
    found by object identity only, which floats do not carry here. *)

Inductive dkey :=
| KNone
| KNum (z : Z)
| KFloat (f : spec_float)
| KStr (s : string)
| KFunc (id : nat)
| KClass (id : nat)
| KInst (l : loc)
| KMod (l : loc).

#[global] Instance dkey_eq_dec : EqDecision dkey.
Proof. solve_decision. Defined.

Inductive hash_result :=
| Hashable (k : dkey)
| Unhashable
| NanKey.

#[global] Instance hash_result_eq_dec : EqDecision hash_result.
Proof. solve_decision. Defined.

Definition py_hash (v : value) : hash_result :=
  match v with
  | VNull => Hashable KNone
  | VBool b => Hashable (KNum (if b then 1 else 0))
  | VInt z => Hashable (KNum z)
  | VFloat f =>
      match f with
      | S754_nan => NanKey
      | _ =>
          match Z_of_float f with
          | inr z => if float_eq_Z f z then Hashable (KNum z) else Hashable (KFloat f)
          | inl _ => Hashable (KFloat f)
          end
      end
  | VStr s => Hashable (KStr s)
  | VList _ | VDict _ => Unhashable
  | VFunc f => Hashable (KFunc (fn_id f))
  | VClass c => Hashable (KClass (cls_id c))
  | VInst i => Hashable (KInst (properties i))
  | VModule l => Hashable (KMod l)
  end.

Definition key_matches (k : dkey) (key : value) : bool :=
  bool_decide (py_hash key = Hashable k).

(** [d.get(key)] on the entries *)
Fixpoint dict_find (k : dkey) (d : list (value * value)) : option value :=
  match d with
  | [] => None
  | (key, v) :: r => if key_matches k key then Some v else dict_find k r
  end.

(** [d[key] = v] on the entries: an existing entry keeps its place and its
    key object, a new one goes last. *)
Fixpoint dict_store (k : dkey) (key v : value) (d : list (value * value))
    : list (value * value) :=
  match d with
  | [] => [(key, v)]
  | (key', v') :: r =>
      if key_matches k key' then (key', v) :: r
      else (key', v') :: dict_store k key v r
  end.

Definition dict_setitem (d : list (value * value)) (key v : value)
    : list (value * value) :=
  match py_hash key with
  | Hashable k => dict_store k key v d
  | _ => d
  end.

(** [result = dict(left); result.update(right)] on the entries *)
Definition dict_update (left right : list (value * value)) : list (value * value) :=
  foldl (fun acc kv => dict_setitem acc kv.1 kv.2) left right.

(** The double-quote character. *)
Definition dquote : ascii := ascii_of_nat 34.

(** [repr(s)] for a string, on printable ASCII text without backslashes;
    [None] elsewhere. *)
Definition py_repr_str (s : string) : option string :=
  let cs := chars s in
  let plain c := let n := nat_of_ascii c in (32 <=? n) && (n <=? 126) && negb (n =? 92) in
  if forallb plain cs then
    let has_sq := existsb (Ascii.eqb "'") cs in
    let has_dq := existsb (Ascii.eqb dquote) cs in
    if has_sq && negb has_dq then Some (String dquote (s +:+ String dquote EmptyString))
    else
      Some ("'" +:+ text (flat_map (fun c => if Ascii.eqb c "'" then ["\"; "'"]%char else [c]) cs) +:+ "'")
  else None.

(** *** Equality of values ([==]) *)

(** [a is b], as far as the embedding keeps object identity. *)
Definition same_object (a b : value) : bool :=
  match a, b with
  | VNull, VNull => true
  | VBool x, VBool y => eqb x y
  | VList x, VList y => x =? y
  | VDict x, VDict y => x =? y
  | VFunc f, VFunc g => fn_id f =? fn_id g
  | VClass c, VClass d => cls_id c =? cls_id d
  | VInst i, VInst j => properties i =? properties j
  | VModule x, VModule y => x =? y
  | _, _ => false
  end.

Definition is_nan (v : value) : bool :=
  match v with VFloat S754_nan => true | _ => false end.

Section Equality.
Context {A : Type} (cmp : A → A → abort + bool).

(** Element-wise comparison of two lists, stopping at the first
    difference. *)
Fixpoint list_eq_with (xs ys : list A) : abort + bool :=
  match xs, ys with
  | [], [] => inr true
  | x :: xs', y :: ys' =>
      match cmp x y with
      | inr true => list_eq_with xs' ys'
      | r => r
      end
  | _, _ => inr false
  end.
End Equality.

(** [a == b]; lists and dictionaries compare their elements with the
    identity shortcut of [PyObject_RichCompareBool].  The fuel bounds the
    nesting depth. *)
Fixpoint values_eq (fuel : nat) (st : state) (a b : value) : abort + bool :=
  match fuel with
  | 0 => inl OutOfFuel
  | S n =>
      let rich x y :=
        if same_object x y then inr true
        else if is_nan x && is_nan y then inl (Unmodelled "identity of NaN")
        else values_eq n st x y in
      match as_number a, as_number b with
      | Some x, Some y => inr (num_eqb x y)
      | _, _ =>
          match a, b with
          | VStr s, VStr t => inr (bool_decide (s = t))
          | VList x, VList y =>
              let xs := get_list st x in
              let ys := get_list st y in
              if length xs =? length ys then list_eq_with rich xs ys else inr false
          | VDict x, VDict y =>
              let xs := get_dict st x in
              let ys := get_dict st y in
              if length xs =? length ys then
                list_eq_with
                  (fun kv (_ : value * value) =>
                     match py_hash kv.1 with
                     | Hashable k =>
                         match dict_find k ys with
                         | Some w => rich kv.2 w
                         | None => inr false
                         end
                     | _ => inl (Unmodelled "identity of NaN")
                     end) xs ys
              else inr false
          | _, _ => inr (same_object a b)
          end
      end
  end.

(** [PyObject_RichCompareBool(a, b, Py_EQ)]: what [in], [index], [count]
    and [remove] use. *)
Definition rich_eq (fuel : nat) (st : state) (a b : value) : abort + bool :=
  if same_object a b then inr true
  else if is_nan a && is_nan b then inl (Unmodelled "identity of NaN")
  else values_eq fuel st a b.

(** *** Ordering of values ([<]), [sorted], [min], [max], [sum] *)

(** [a < b]: numbers and strings are ordered; comparing lists is not
    embedded; every other pair raises [TypeError]. *)
Definition py_lt (a b : value) : abort + (host_error + bool) :=
  match as_number a, as_number b with
  | Some x, Some y =>
      inr (inr (match num_compare x y with Some Lt => true | _ => false end))
  | _, _ =>
      match a, b with
      | VStr s, VStr t => inr (inr (String.ltb s t))
      | VList _, VList _ => inl (Unmodelled "ordering of lists")
      | _, _ => inr (inl TypeError)
      end
  end.

Fixpoint insert_sorted {A} (lt : A → A → bool) (x : A) (l : list A) : list A :=
  match l with
  | [] => [x]
  | y :: r => if lt x y then x :: y :: r else y :: insert_sorted lt x r
  end.

(** A stable sort: equal elements keep their order. *)
Definition stable_sort {A} (lt : A → A → bool) (l : list A) : list A :=
  foldr (insert_sorted lt) [] l.

Definition is_plain_number (v : value) : bool :=
  match as_number v with
  | Some (NumF S754_nan) => false
  | Some _ => true
  | None => false
  end.

Definition is_str (v : value) : bool :=
  match v with VStr _ => true | _ => false end.

Definition is_list (v : value) : bool :=
  match v with VList _ => true | _ => false end.

Definition value_ltb (a b : value) : bool :=
  match py_lt a b with
  | inr (inr t) => t
  | _ => false
  end.

(** [sorted(xs)].  With fewer than two elements nothing is compared.  A
    list of numbers (no NaN) or of strings is totally ordered and the sort
    is stable.  When lists or NaN are among the elements the outcome
    depends on the comparisons the host's sort happens to make, which is
    not embedded.  In every other case some compared pair is unordered and
    [TypeError] is raised. *)
Definition py_sorted (xs : list value) : abort + (host_error + list value) :=
  if length xs <? 2 then inr (inr xs)
  else if forallb is_plain_number xs || forallb is_str xs then
    inr (inr (stable_sort value_ltb xs))
  else if existsb (fun v => is_list v || is_nan v) xs then
    inl (Unmodelled "sorted on lists or NaN")
  else inr (inl TypeError).

(** [min(xs)] ([gt = false]) and [max(xs)] ([gt = true]): a linear scan that
    keeps the first extremal element. *)
Fixpoint py_extremum_from (gt : bool) (best : value) (xs : list value)
    : abort + (host_error + value) :=
  match xs with
  | [] => inr (inr best)
  | x :: r =>
      match (if gt then py_lt best x else py_lt x best) with
      | inr (inr true) => py_extremum_from gt x r
      | inr (inr false) => py_extremum_from gt best r
      | inr (inl e) => inr (inl e)
      | inl a => inl a
      end
  end.

Definition py_extremum (gt : bool) (xs : list value) : abort + (host_error + value) :=
  match xs with
  | [] => inr (inl ValueError)
  | x :: r => py_extremum_from gt x r
  end.

(** [sum(xs)] on integers and booleans; the summation of floats is
    compensated by the host and is not embedded. *)
Fixpoint py_sum_from (acc : Z) (xs : list value) : abort + (host_error + value) :=
  match xs with
  | [] => inr (inr (VInt acc))
  | x :: r =>
      match as_number x with
      | Some (NumZ z) => py_sum_from (acc + z) r
      | Some (NumF _) => inl (Unmodelled "sum of floats")
      | None => inr (inl TypeError)
      end
  end.

(** [range(a, b)] *)
Definition py_range (a b : Z) : list Z :=
  map (fun k => (a + Z.of_nat k)%Z) (seq 0 (Z.to_nat (b - a))).

(** ** The evaluator ([class Interpreter]) *)

Definition lift_host {A} (r : host_error + A) : M A :=
  match r with
  | inr a => ret a
  | inl e => raise (HostError e "")
  end.

Definition lift_abort {A} (r : abort + A) : M A :=
  match r with
  | inr a => ret a
  | inl a => abort_with a
  end.

Definition runtime_error {A} (message : string) : M A :=
  raise (VoltRuntimeError message).

Definition new_list (xs : list value) : M value :=
  fun st => Ok (VList (length (lists st))) (set_lists (fun ls => ls ++ [xs]) st).

Definition new_dict (d : list (value * value)) : M value :=
  fun st => Ok (VDict (length (dicts st))) (set_dicts (fun ds => ds ++ [d]) st).

(** [VoltInstance(klass)] *)
Definition new_instance (k : VoltClass) : M VoltInstance :=
  fun st => Ok (mkInstance k (length (instances st)))
              (set_instances (fun ps => ps ++ [∅]) st).

Definition new_module (m : VoltModule) : M value :=
  fun st => Ok (VModule (length (modules st))) (set_modules (fun ms => ms ++ [m]) st).

Definition fresh_id : M nat :=
  fun st => Ok (next_id st) (set_next_id S st).

Definition put_list (l : loc) (xs : list value) : M unit :=
  modify (set_lists (fun ls => <[l := xs]> ls)).

Definition put_dict (l : loc) (d : list (value * value)) : M unit :=
  modify (set_dicts (fun ds => <[l := d]> ds)).

(** [instance.set_property(name, v)] *)
Definition set_property (i : VoltInstance) (name : string) (v : value) : M unit :=
  modify (set_instances (fun ps =>
    <[properties i := <[name := v]> (default ∅ (ps !! properties i))]> ps)).

(** A line of output: the text and the newline that ends it. *)
Definition line (s : string) : string := s +:+ String (ascii_of_nat 10) EmptyString.

(** [print(s)] *)
Definition print (s : string) : M unit :=
  modify (set_stdout (fun out => out ++ [line s])).

(** [input(prompt)]: writes the prompt, then reads a line without its
    newline; [EOFError] at the end of the input. *)
Definition input (prompt : string) : M string :=
  fun st =>
    let st1 := set_stdout (fun out => out ++ [prompt]) st in
    match stdin st1 with
    | line :: rest => Ok line (set_stdin (fun _ => rest) st1)
    | [] => Raise (HostError EOFError "") st1
    end.

(** [d[key] = v] on a dictionary object; an unhashable key is a
    [TypeError]. *)
Definition dict_assign (l : loc) (key v : value) : M unit :=
  match py_hash key with
  | Hashable k => d <- gets (fun st => get_dict st l) ;; put_dict l (dict_store k key v d)
  | Unhashable => raise (HostError TypeError "")
  | NanKey => abort_with (Unmodelled "identity of NaN")
  end.

(** [key in d] and [d[key]] *)
Definition dict_lookup (l : loc) (key : value) : M (option value) :=
  match py_hash key with
  | Hashable k => gets (fun st => dict_find k (get_dict st l))
  | Unhashable => raise (HostError TypeError "")
  | NanKey => abort_with (Unmodelled "identity of NaN")
  end.

(** [VoltClass.find_method] *)
Fixpoint find_method (c : VoltClass) (name : string) : option VoltFunction :=
  match c with
  | mkClass _ _ p ms _ =>
      match ms !! name with
      | Some f => Some f
      | None =>
          match p with
          | Some c' => find_method c' name
          | None => None
          end
      end
  end.

(** What a loop body tells the loop: go on, or leave with a result. *)
Inductive step (A : Type) :=
| Next (a : A)
| Stop (a : A).
Arguments Next {A} a.
Arguments Stop {A} a.

(** [for i, item in enumerate(lst)] over the list object itself: the
    iterator reads the list again at every step, so it sees what the body
    does to it. *)
Fixpoint iterate_list {A} (n : nat) (l : loc) (i : nat) (acc : A)
    (body : nat → value → A → M (step A)) : M A :=
  match n with
  | 0 => abort_with OutOfFuel
  | S n' =>
      xs <- gets (fun st => get_list st l) ;;
      match xs !! i with
      | None => ret acc
      | Some x =>
          r <- body i x acc ;;
          match r with
          | Next a => iterate_list n' l (S i) a body
          | Stop a => ret a
          end
      end
  end.

(** [for k, v in d.items()] over the dictionary object itself.  The host
    raises [RuntimeError] when the size changed between two steps; a change
    of the keys that keeps the size is not embedded. *)
Fixpoint iterate_dict {A} (n : nat) (l : loc) (keys : list hash_result) (i : nat)
    (acc : A) (body : value → value → A → M (step A)) : M A :=
  match n with
  | 0 => abort_with OutOfFuel
  | S n' =>
      d <- gets (fun st => get_dict st l) ;;
      if negb (length d =? length keys) then
        raise (HostError RuntimeError "dictionary changed size during iteration")
      else if negb (bool_decide (map (fun kv => py_hash kv.1) d = keys)) then
        abort_with (Unmodelled "dictionary keys changed during iteration")
      else
        match d !! i with
        | None => ret acc
        | Some (k, v) =>
            r <- body k v acc ;;
            match r with
            | Next a => iterate_dict n' l keys (S i) a body
            | Stop a => ret a
            end
        end
  end.

Definition dict_keys (st : state) (l : loc) : list hash_result :=
  map (fun kv => py_hash kv.1) (get_dict st l).

Definition str_eqb (a b : string) : bool := String.eqb a b.
Infix "=s?" := str_eqb (at level 70).

(** Truthiness of an optional name and of an optional block, as the
    interpreter tests them ([if node.catch_var and node.catch_body]). *)
Definition truthy_name (o : option string) : bool :=
  match o with
  | Some s => negb (s =s? "")
  | None => false
  end.

Definition truthy_block (o : option (list node)) : bool :=
  match o with
  | Some (_ :: _) => true
  | _ => false
  end.

(** The names of [Interpreter.builtins]. *)
Definition builtin_names : list string :=
  ["len"; "str"; "int"; "float"; "type"; "range"; "abs"; "min"; "max";
   "round"; "upper"; "lower"; "split"; "join"; "contains"; "reverse";
   "sort"; "keys"; "values"; "print"; "input"; "number"; "string"; "bool";
   "isinstance"; "char"; "ord"].

(** The keys of [BUILTIN_MODULES]. *)
Definition builtin_modules : list string := ["math"; "random"; "time"; "file"].

Definition ends_with (suffix s : string) : bool :=
  let n := String.length s in
  let k := String.length suffix in
  (k <=? n) && (String.substring (n - k) k s =s? suffix).

(** [os.path.basename(p)] (POSIX): what follows the last slash. *)
Fixpoint basename_from (acc : list ascii) (l : list ascii) : list ascii :=
  match l with
  | [] => acc
  | c :: r => if Ascii.eqb c "/" then basename_from [] r else basename_from (acc ++ [c]) r
  end.

(** [os.path.splitext(p)[0]] on a name without directory: the name without
    its extension; leading dots do not start an extension. *)
Fixpoint leading_dots (l : list ascii) : nat :=
  match l with
  | c :: r => if Ascii.eqb c "." then S (leading_dots r) else 0
  | [] => 0
  end.

Definition drop_extension (l : list ascii) : list ascii :=
  let dots := leading_dots l in
  let body := drop dots l in
  match list_find (fun c => c = "."%char) (rev body) with
  | Some (i, _) => take (dots + (length body - S i)) l
  | None => l
  end.

Definition module_base_name (module_name : string) : string :=
  text (drop_extension (basename_from [] (chars module_name))).

Section Evaluator.
(** [ex] is [Interpreter.execute] for the nodes below the one at hand;
    [depth] bounds the loops and recursions of the host at this level. *)
Variable ex : node → Environment → M value.
Variable depth : nat.

(** [Interpreter._exec_block] *)
Fixpoint exec_block_from (result : value) (statements : list node)
    (env : Environment) : M value :=
  match statements with
  | [] => ret result
  | stmt :: rest => v <- ex stmt env ;; exec_block_from v rest env
  end.

Definition exec_block (statements : list node) (env : Environment) : M value :=
  exec_block_from VNull statements env.

(** [[self.execute(arg, env) for arg in node.args]] *)
Fixpoint exec_args (args : list node) (env : Environment) : M (list value) :=
  match args with
  | [] => ret []
  | a :: rest => v <- ex a env ;; vs <- exec_args rest env ;; ret (v :: vs)
  end.

(** [try: ... except ReturnSignal as ret: return ret.value] followed by
    [return None] *)
Definition catch_return (m : M value) : M value :=
  fun st =>
    match m st with
    | Ok _ st' => Ok VNull st'
    | Raise (ReturnSignal v) st' => Ok v st'
    | r => r
    end.

(** [Interpreter._to_string], the canonical stringifier.  The [repr] of a
    float that is not an integer is not embedded. *)
Fixpoint to_string (n : nat) (v : value) : M string :=
  match n with
  | 0 => abort_with OutOfFuel
  | S n' =>
      match v with
      | VNull => ret "null"
      | VBool b => ret (if b then "true" else "false")
      | VFloat f =>
          z <- lift_host (Z_of_float f) ;;
          if float_eq_Z f z then ret (str_of_Z z)
          else abort_with (Unmodelled "repr of a float")
      | VList l =>
          items <- iterate_list n' l 0 []
                     (fun _ x acc => s <- to_string n' x ;; ret (Next (acc ++ [s]))) ;;
          ret ("[" +:+ str_join ", " items +:+ "]")
      | VDict l =>
          keys <- gets (fun st => dict_keys st l) ;;
          pairs <- iterate_dict n' l keys 0 []
                     (fun k x acc =>
                        sk <- to_string n' k ;;
                        sx <- to_string n' x ;;
                        ret (Next (acc ++ [sk +:+ ": " +:+ sx]))) ;;
          ret ("{" +:+ str_join ", " pairs +:+ "}")
      | VFunc f => ret (repr_function f)
      | VClass c => ret (repr_class c)
      | VInst i =>
          match find_method (klass i) "toString" with
          | Some to_str =>
              method_env <- new_env (Some (closure_env to_str)) ;;
              env_set method_env "this" v ;;;
              env_set method_env "__class__" (VClass (klass i)) ;;;
              fun st =>
                match exec_block (fn_body to_str) method_env st with
                | Ok _ st' => Ok (repr_instance i) st'
                | Raise (ReturnSignal r) st' => to_string n' r st'
                | Raise s st' => Raise s st'
                | Abort a => Abort a
                end
          | None => ret (repr_instance i)
          end
      | VModule l =>
          fun st =>
            match modules st !! l with
            | Some m => Ok (repr_module m) st
            | None => Abort (Unmodelled "dangling module")
            end
      | VInt z => ret (str_of_Z z)
      | VStr s => ret s
      end
  end.

(** [Interpreter._bind_params] *)
Fixpoint bind_params_from (i : nat) (fn_name : string) (params : list param)
    (args : list value) (func_env caller_env : Environment) : M unit :=
  match params with
  | [] => ret tt
  | (param_name, default_node) :: rest =>
      match args !! i with
      | Some a => env_set func_env param_name a
      | None =>
          match default_node with
          | Some d => v <- ex d caller_env ;; env_set func_env param_name v
          | None =>
              runtime_error ("Missing argument '" +:+ param_name +:+
                             "' in call to " +:+ fn_name +:+ "()")
          end
      end ;;;
      bind_params_from (S i) fn_name rest args func_env caller_env
  end.

Definition bind_params (fn : VoltFunction) (args : list value)
    (func_env caller_env : Environment) : M unit :=
  bind_params_from 0 (fn_name fn) (fn_params fn) args func_env caller_env.

(** The call of a function object: what [_exec_FunctionCall] and
    [_call_volt_function] both do with a [VoltFunction]. *)
Definition call_function (fn : VoltFunction) (args : list value)
    (env : Environment) : M value :=
  func_env <- new_env (Some (closure_env fn)) ;;
  bind_params fn args func_env env ;;;
  catch_return (exec_block (fn_body fn) func_env).

(** [Interpreter._call_volt_function] *)
Definition call_volt_function (fn : value) (args : list value)
    (env : Environment) : M value :=
  match fn with
  | VFunc f => call_function f args env
  | _ => runtime_error "Not a callable function"
  end.

(** A method body run with [this] and [__class__] bound. *)
Definition call_method (method_fn : VoltFunction) (this : value)
    (cls : VoltClass) (args : list value) (env : Environment) : M value :=
  method_env <- new_env (Some (closure_env method_fn)) ;;
  env_set method_env "this" this ;;;
  env_set method_env "__class__" (VClass cls) ;;;
  bind_params method_fn args method_env env ;;;
  catch_return (exec_block (fn_body method_fn) method_env).

(** [Interpreter._instantiate_class] *)
Definition instantiate_class (k : VoltClass) (args : list value)
    (env : Environment) : M value :=
  instance <- new_instance k ;;
  match find_method k "init" with
  | Some init_method =>
      call_method init_method (VInst instance) k args env ;;;
      ret (VInst instance)
  | None =>
      match args with
      | [] => ret (VInst instance)
      | _ => runtime_error ("Class '" +:+ cls_name k +:+ "' constructor takes no arguments")
      end
  end.

(** [Interpreter._call_instance_method] *)
Definition call_instance_method (instance : VoltInstance) (method_name : string)
    (args : list value) (env : Environment) : M value :=
  props <- gets (fun st => get_props st (properties instance)) ;;
  match props !! method_name with
  | Some val =>
      match val with
      | VFunc _ => call_volt_function val args env
      | _ => runtime_error ("'" +:+ method_name +:+ "' is not a method")
      end
  | None =>
      match find_method (klass instance) method_name with
      | None =>
          runtime_error ("'" +:+ cls_name (klass instance) +:+ "' has no method '" +:+
                         method_name +:+ "'")
      | Some method_fn =>
          call_method method_fn (VInst instance) (klass instance) args env
      end
  end.

(** [VoltInstance.get] *)
Definition instance_get (instance : VoltInstance) (name : string) : M value :=
  props <- gets (fun st => get_props st (properties instance)) ;;
  match props !! name with
  | Some v => ret v
  | None =>
      match find_method (klass instance) name with
      | Some method => ret (VFunc method)
      | None =>
          runtime_error ("'" +:+ cls_name (klass instance) +:+
                         "' has no property or method '" +:+ name +:+ "'")
      end
  end.

(** *** List methods ([Interpreter._call_list_method]) *)

(** [if not args: raise VoltRuntimeError(message)], then [args[0]] *)
Definition first_arg (args : list value) (message : string) : M value :=
  match args with
  | a :: _ => ret a
  | [] => runtime_error message
  end.

Definition read_list (l : loc) : M (list value) :=
  gets (fun st => get_list st l).

(** The position of the first element equal to [x], as [list.index],
    [list.remove] and [in] find it. *)
Fixpoint index_of (st : state) (x : value) (i : nat) (xs : list value)
    : abort + option nat :=
  match xs with
  | [] => inr None
  | y :: r =>
      match rich_eq depth st y x with
      | inl a => inl a
      | inr true => inr (Some i)
      | inr false => index_of st x (S i) r
      end
  end.

Fixpoint count_of (st : state) (x : value) (xs : list value) : abort + Z :=
  match xs with
  | [] => inr 0%Z
  | y :: r =>
      match rich_eq depth st y x, count_of st x r with
      | inl a, _ => inl a
      | _, inl a => inl a
      | inr b, inr n => inr ((if b then 1 else 0) + n)%Z
      end
  end.

(** The loop of [lastIndexOf]: [lst[i] == args[0]], from the end. *)
Fixpoint last_index_of (st : state) (x : value) (xs : list value) (n : nat)
    : abort + Z :=
  match n with
  | 0 => inr (-1)%Z
  | S i =>
      match xs !! i with
      | None => inr (-1)%Z
      | Some y =>
          match values_eq depth st y x with
          | inl a => inl a
          | inr true => inr (Z.of_nat i)
          | inr false => last_index_of st x xs i
          end
      end
  end.

(** The loop of [unique]: keeps the first occurrence of each element. *)
Fixpoint unique_from (st : state) (seen xs : list value) : abort + list value :=
  match xs with
  | [] => inr seen
  | x :: r =>
      match index_of st x 0 seen with
      | inl a => inl a
      | inr (Some _) => unique_from st seen r
      | inr None => unique_from st (seen ++ [x]) r
      end
  end.

(** The loop of [flat]: one level of nested lists is spliced in. *)
Definition flat_items (st : state) (xs : list value) : list value :=
  flat_map (fun item => match item with VList l => get_list st l | _ => [item] end) xs.

(** The loop of [fill]: [lst[i] = val] for each [i] of the range. *)
Fixpoint fill_range (l : loc) (val : value) (range : list Z) : M unit :=
  match range with
  | [] => ret tt
  | i :: rest =>
      xs <- read_list l ;;
      match py_index (length xs) i with
      | Some p => put_list l (<[p := val]> xs) ;;; fill_range l val rest
      | None => raise (HostError IndexError "")
      end
  end.

(** The loop of [reduce]: [acc = fn(acc, lst[i])] for each [i] of the
    range. *)
Fixpoint reduce_range (l : loc) (fn : value) (env : Environment) (acc : value)
    (range : list nat) : M value :=
  match range with
  | [] => ret acc
  | i :: rest =>
      xs <- read_list l ;;
      match xs !! i with
      | Some x =>
          acc' <- call_volt_function fn [acc; x] env ;;
          reduce_range l fn env acc' rest
      | None => raise (HostError IndexError "")
      end
  end.

(** [[[a, b] for ...]]: a new two-element list for every pair. *)
Fixpoint new_pairs (ps : list (value * value)) : M (list value) :=
  match ps with
  | [] => ret []
  | (a, b) :: rest => p <- new_list [a; b] ;; r <- new_pairs rest ;; ret (p :: r)
  end.

Definition call_list_method (lst : loc) (method : string) (args : list value)
    (env : Environment) : M value :=
  if (method =s? "push") || (method =s? "append") then
    a <- first_arg args (method +:+ "() needs 1 argument") ;;
    xs <- read_list lst ;;
    put_list lst (xs ++ [a]) ;;;
    ret (VList lst)
  else if method =s? "pop" then
    xs <- read_list lst ;;
    match xs with
    | [] => runtime_error "Cannot pop from empty list"
    | _ =>
        i <- match args with
             | a :: _ => lift_host (py_int_conv a)
             | [] => ret (-1)%Z
             end ;;
        match py_index (length xs) i ≫= (fun p => (fun x => (p, x)) <$> xs !! p) with
        | Some (p, x) => put_list lst (delete p xs) ;;; ret x
        | None => raise (HostError IndexError "")
        end
    end
  else if method =s? "shift" then
    xs <- read_list lst ;;
    match xs with
    | [] => runtime_error "Cannot shift from empty list"
    | x :: rest => put_list lst rest ;;; ret x
    end
  else if method =s? "unshift" then
    a <- first_arg args "unshift() needs 1 argument" ;;
    xs <- read_list lst ;;
    put_list lst (a :: xs) ;;;
    ret (VList lst)
  else if method =s? "insert" then
    match args with
    | a0 :: a1 :: _ =>
        i <- lift_host (py_int_conv a0) ;;
        xs <- read_list lst ;;
        put_list lst (py_insert xs i a1) ;;;
        ret (VList lst)
    | _ => runtime_error "insert() needs 2 arguments"
    end
  else if method =s? "remove" then
    a <- first_arg args "remove() needs 1 argument" ;;
    xs <- read_list lst ;;
    found <- (fun st => lift_abort (index_of st a 0 xs) st) ;;
    match found with
    | Some p => put_list lst (delete p xs) ;;; ret (VList lst)
    | None => raise (HostError ValueError "")
    end
  else if method =s? "length" then
    xs <- read_list lst ;; ret (VInt (Z.of_nat (length xs)))
  else if method =s? "indexOf" then
    a <- first_arg args "indexOf() needs 1 argument" ;;
    xs <- read_list lst ;;
    found <- (fun st => lift_abort (index_of st a 0 xs) st) ;;
    ret (VInt (match found with Some p => Z.of_nat p | None => -1 end))
  else if method =s? "lastIndexOf" then
    a <- first_arg args "lastIndexOf() needs 1 argument" ;;
    xs <- read_list lst ;;
    i <- (fun st => lift_abort (last_index_of st a xs (length xs)) st) ;;
    ret (VInt i)
  else if (method =s? "includes") || (method =s? "contains") then
    a <- first_arg args (method +:+ "() needs 1 argument") ;;
    xs <- read_list lst ;;
    found <- (fun st => lift_abort (index_of st a 0 xs) st) ;;
    ret (VBool (bool_decide (is_Some found)))
  else if method =s? "join" then
    sep <- match args with
           | a :: _ => to_string depth a
           | [] => ret ","
           end ;;
    items <- iterate_list depth lst 0 []
               (fun _ x acc => s <- to_string depth x ;; ret (Next (acc ++ [s]))) ;;
    ret (VStr (str_join sep items))
  else if method =s? "slice" then
    match args with
    | a0 :: a1 :: _ =>
        i <- lift_host (py_int_conv a0) ;;
        j <- lift_host (py_int_conv a1) ;;
        xs <- read_list lst ;;
        new_list (py_slice xs i j)
    | [a0] =>
        i <- lift_host (py_int_conv a0) ;;
        xs <- read_list lst ;;
        new_list (drop (slice_bound (length xs) i) xs)
    | [] => xs <- read_list lst ;; new_list xs
    end
  else if method =s? "sort" then
    xs <- read_list lst ;;
    r <- lift_abort (py_sorted xs) ;;
    ys <- lift_host r ;;
    new_list ys
  else if method =s? "reverse" then
    xs <- read_list lst ;; new_list (rev xs)
  else if method =s? "flat" then
    xs <- read_list lst ;;
    items <- gets (fun st => flat_items st xs) ;;
    new_list items
  else if method =s? "fill" then
    val <- first_arg args "fill() needs 1 argument" ;;
    start <- match args !! 1 with
             | Some a => lift_host (py_int_conv a)
             | None => ret 0%Z
             end ;;
    xs <- read_list lst ;;
    stop <- match args !! 2 with
            | Some a => lift_host (py_int_conv a)
            | None => ret (Z.of_nat (length xs))
            end ;;
    fill_range lst val (py_range start (Z.min stop (Z.of_nat (length xs)))) ;;;
    ret (VList lst)
  else if method =s? "clear" then
    put_list lst [] ;;; ret (VList lst)
  else if method =s? "copy" then
    xs <- read_list lst ;; new_list xs
  else if method =s? "count" then
    a <- first_arg args "count() needs 1 argument" ;;
    xs <- read_list lst ;;
    n <- (fun st => lift_abort (count_of st a xs) st) ;;
    ret (VInt n)
  else if method =s? "isEmpty" then
    xs <- read_list lst ;; ret (VBool (bool_decide (xs = [])))
  else if method =s? "first" then
    xs <- read_list lst ;;
    match xs with
    | [] => runtime_error "Cannot get first of empty list"
    | x :: _ => ret x
    end
  else if method =s? "last" then
    xs <- read_list lst ;;
    match last xs with
    | None => runtime_error "Cannot get last of empty list"
    | Some x => ret x
    end
  else if method =s? "unique" then
    xs <- read_list lst ;;
    seen <- (fun st => lift_abort (unique_from st [] xs) st) ;;
    new_list seen
  else if method =s? "sum" then
    xs <- read_list lst ;;
    r <- lift_abort (py_sum_from 0 xs) ;;
    lift_host r
  else if method =s? "min" then
    xs <- read_list lst ;;
    r <- lift_abort (py_extremum false xs) ;;
    lift_host r
  else if method =s? "max" then
    xs <- read_list lst ;;
    r <- lift_abort (py_extremum true xs) ;;
    lift_host r
  else if method =s? "map" then
    fn <- first_arg args "map() needs a function argument" ;;
    items <- iterate_list depth lst 0 []
               (fun _ item acc =>
                  v <- call_volt_function fn [item] env ;; ret (Next (acc ++ [v]))) ;;
    new_list items
  else if method =s? "filter" then
    fn <- first_arg args "filter() needs a function argument" ;;
    items <- iterate_list depth lst 0 []
               (fun _ item acc =>
                  v <- call_volt_function fn [item] env ;;
                  t <- gets (fun st => is_truthy st v) ;;
                  ret (Next (if t then acc ++ [item] else acc))) ;;
    new_list items
  else if method =s? "find" then
    fn <- first_arg args "find() needs a function argument" ;;
    iterate_list depth lst 0 VNull
      (fun _ item acc =>
         v <- call_volt_function fn [item] env ;;
         t <- gets (fun st => is_truthy st v) ;;
         ret (if t then Stop item else Next acc))
  else if method =s? "findIndex" then
    fn <- first_arg args "findIndex() needs a function argument" ;;
    iterate_list depth lst 0 (VInt (-1))
      (fun i item acc =>
         v <- call_volt_function fn [item] env ;;
         t <- gets (fun st => is_truthy st v) ;;
         ret (if t then Stop (VInt (Z.of_nat i)) else Next acc))
  else if method =s? "forEach" then
    fn <- first_arg args "forEach() needs a function argument" ;;
    iterate_list depth lst 0 VNull
      (fun _ item acc => call_volt_function fn [item] env ;;; ret (Next acc))
  else if method =s? "every" then
    fn <- first_arg args "every() needs a function argument" ;;
    iterate_list depth lst 0 (VBool true)
      (fun _ item acc =>
         v <- call_volt_function fn [item] env ;;
         t <- gets (fun st => is_truthy st v) ;;
         ret (if t then Next acc else Stop (VBool false)))
  else if method =s? "some" then
    fn <- first_arg args "some() needs a function argument" ;;
    iterate_list depth lst 0 (VBool false)
      (fun _ item acc =>
         v <- call_volt_function fn [item] env ;;
         t <- gets (fun st => is_truthy st v) ;;
         ret (if t then Stop (VBool true) else Next acc))
  else if method =s? "reduce" then
    fn <- first_arg args "reduce() needs a function argument" ;;
    xs <- read_list lst ;;
    match args !! 1 with
    | Some init => reduce_range lst fn env init (seq 0 (length xs))
    | None =>
        match xs with
        | x :: _ => reduce_range lst fn env x (seq 1 (length xs - 1))
        | [] => raise (HostError IndexError "")
        end
    end
  else if method =s? "zip" then
    match args with
    | VList other :: _ =>
        xs <- read_list lst ;;
        ys <- read_list other ;;
        ps <- new_pairs (zip xs ys) ;;
        new_list ps
    | _ => runtime_error "zip() needs a list argument"
    end
  else if method =s? "enumerate" then
    xs <- read_list lst ;;
    ps <- new_pairs (imap (fun i x => (VInt (Z.of_nat i), x)) xs) ;;
    new_list ps
  else runtime_error ("List has no method '" +:+ method +:+ "'").

(** *** Operators ([_exec_BinaryOp], [_exec_UnaryOp]) *)

Definition num_arith (fz : Z → Z → Z) (ff : spec_float → spec_float → spec_float)
    (a b : numv) : host_error + value :=
  match a, b with
  | NumZ x, NumZ y => inr (VInt (fz x y))
  | NumF x, NumF y => inr (VFloat (ff x y))
  | NumZ x, NumF y =>
      match float_of_Z x with
      | Some fx => inr (VFloat (ff fx y))
      | None => inl OverflowError
      end
  | NumF x, NumZ y =>
      match float_of_Z y with
      | Some fy => inr (VFloat (ff x fy))
      | None => inl OverflowError
      end
  end.

(** [s * n] for a string *)
Definition str_repeat (s : string) (n : Z) : string :=
  Nat.iter (Z.to_nat n) (fun acc => s +:+ acc) "".

(** [x == 0] as the guards of [/] and [%] evaluate it *)
Definition equals_zero (v : value) : bool :=
  match as_number v with
  | Some x => num_eqb x (NumZ 0)
  | None => false
  end.

Definition compare_values (op : string) (left right : value) : M value :=
  let decide (c : option comparison) : bool :=
    match c with
    | Some Lt => (op =s? "<") || (op =s? "<=")
    | Some Eq => (op =s? "<=") || (op =s? ">=")
    | Some Gt => (op =s? ">") || (op =s? ">=")
    | None => false
    end in
  match as_number left, as_number right with
  | Some x, Some y => ret (VBool (decide (num_compare x y)))
  | _, _ =>
      match left, right with
      | VStr s, VStr t => ret (VBool (decide (Some (String.compare s t))))
      | VList _, VList _ => abort_with (Unmodelled "ordering of lists")
      | _, _ => raise (HostError TypeError "")
      end
  end.

(** The branch of [_exec_BinaryOp] for [+]. *)
Definition add_values (left right : value) : M value :=
  if is_str left || is_str right then
    sl <- to_string depth left ;;
    sr <- to_string depth right ;;
    ret (VStr (sl +:+ sr))
  else
    match left, right with
    | VList a, VList b =>
        xs <- read_list a ;;
        ys <- read_list b ;;
        new_list (xs ++ ys)
    | VDict a, VDict b =>
        dl <- gets (fun st => get_dict st a) ;;
        dr <- gets (fun st => get_dict st b) ;;
        new_dict (dict_update dl dr)
    | _, _ =>
        match as_number left, as_number right with
        | Some x, Some y => lift_host (num_add x y)
        | _, _ => raise (HostError TypeError "")
        end
    end.

(** The part of [_exec_BinaryOp] that follows the evaluation of both
    operands. *)
Definition binary_op (op : string) (left right : value) : M value :=
  if op =s? "+" then add_values left right
  else if op =s? "-" then
    match as_number left, as_number right with
    | Some x, Some y => lift_host (num_arith Z.sub (SFsub prec emax) x y)
    | _, _ => raise (HostError TypeError "")
    end
  else if op =s? "*" then
    match left, as_number right with
    | VStr s, Some _ =>
        n <- lift_host (py_int_conv right) ;; ret (VStr (str_repeat s n))
    | _, _ =>
        match right, as_number left with
        | VStr s, Some _ =>
            n <- lift_host (py_int_conv left) ;; ret (VStr (str_repeat s n))
        | _, _ =>
            match as_number left, as_number right with
            | Some x, Some y => lift_host (num_arith Z.mul (SFmul prec emax) x y)
            | _, _ =>
                match left, as_number right, as_number left, right with
                | VList a, Some (NumZ n), _, _ =>
                    xs <- read_list a ;; new_list (mjoin (replicate (Z.to_nat n) xs))
                | _, _, Some (NumZ n), VList a =>
                    xs <- read_list a ;; new_list (mjoin (replicate (Z.to_nat n) xs))
                | _, _, _, _ => raise (HostError TypeError "")
                end
            end
        end
    end
  else if op =s? "/" then
    if equals_zero right then runtime_error "Division by zero"
    else
      match as_number left, as_number right with
      | Some _, Some _ => abort_with (Unmodelled "true division")
      | _, _ => raise (HostError TypeError "")
      end
  else if op =s? "%" then
    if equals_zero right then runtime_error "Modulo by zero"
    else
      match left, as_number left, as_number right with
      | VStr _, _, _ => abort_with (Unmodelled "string formatting")
      | _, Some (NumZ x), Some (NumZ y) => ret (VInt (x mod y))
      | _, Some _, Some _ => abort_with (Unmodelled "float modulo")
      | _, _, _ => raise (HostError TypeError "")
      end
  else if op =s? "==" then
    b <- (fun st => lift_abort (values_eq depth st left right) st) ;; ret (VBool b)
  else if op =s? "!=" then
    b <- (fun st => lift_abort (values_eq depth st left right) st) ;; ret (VBool (negb b))
  else if (op =s? "<") || (op =s? ">") || (op =s? "<=") || (op =s? ">=") then
    compare_values op left right
  else runtime_error ("Unknown operator: " +:+ op).

(** [Interpreter._exec_BinaryOp] *)
Definition exec_BinaryOp (op : string) (left right : node) (env : Environment)
    : M value :=
  if op =s? "and" then
    l <- ex left env ;;
    t <- gets (fun st => is_truthy st l) ;;
    if t then ex right env else ret l
  else if op =s? "or" then
    l <- ex left env ;;
    t <- gets (fun st => is_truthy st l) ;;
    if t then ret l else ex right env
  else
    l <- ex left env ;;
    r <- ex right env ;;
    binary_op op l r.

(** [Interpreter._exec_UnaryOp] *)
Definition exec_UnaryOp (op : string) (operand : node) (env : Environment)
    : M value :=
  v <- ex operand env ;;
  if op =s? "-" then
    match as_number v with
    | Some (NumZ z) => ret (VInt (- z))
    | Some (NumF f) => ret (VFloat (SFopp f))
    | None => raise (HostError TypeError "")
    end
  else if op =s? "not" then
    t <- gets (fun st => is_truthy st v) ;; ret (VBool (negb t))
  else runtime_error ("Unknown unary operator: " +:+ op).

(** *** Statements with a protocol of their own *)

(** The catch clause of [_exec_TryCatchStatement], entered with the value
    to bind: it runs only when [catch_var] and [catch_body] are both
    truthy. *)
Definition run_catch (catch_var : option string) (catch_body : option (list node))
    (env : Environment) (caught : value) : M value :=
  match catch_var, catch_body with
  | Some x, Some body =>
      if truthy_name catch_var && truthy_block catch_body then
        catch_env <- new_env (Some env) ;;
        env_set catch_env x caught ;;;
        exec_block body catch_env
      else ret VNull
  | _, _ => ret VNull
  end.

(** [Interpreter._exec_TryCatchStatement] *)
Definition exec_TryCatchStatement (try_body : list node) (catch_var : option string)
    (catch_body finally_body : option (list node)) (env : Environment) : M value :=
  try_finally
    (fun st =>
       match exec_block try_body env st with
       | Raise (VoltThrowError v) st1 => run_catch catch_var catch_body env v st1
       | Raise (VoltRuntimeError message) st1 =>
           run_catch catch_var catch_body env (VStr (runtime_error_str message)) st1
       | r => r
       end)
    (match finally_body with
     | Some body => if truthy_block finally_body then exec_block body env ;;; ret tt else ret tt
     | None => ret tt
     end).

(** The coercion of [_exec_AskStatement]. *)
Definition ask_value (user_input : string) : value :=
  let fallback :=
    if str_lower user_input =s? "true" then VBool true
    else if str_lower user_input =s? "false" then VBool false
    else VStr user_input in
  if existsb (Ascii.eqb ".") (chars user_input) then
    match py_float user_input with
    | Some f => VFloat f
    | None => fallback
    end
  else
    match py_int user_input with
    | Some z => VInt z
    | None => fallback
    end.

(** [Interpreter._exec_AskStatement] *)
Definition exec_AskStatement (prompt : node) (variable : string) (env : Environment)
    : M value :=
  p <- ex prompt env ;;
  s <- to_string depth p ;;
  user_input <- input s ;;
  let v := ask_value user_input in
  env_set env variable v ;;;
  ret v.

(** One turn of a loop body: [break] leaves the loop with the result so
    far, [continue] goes on with it. *)
Definition loop_body (body : list node) (env : Environment) (result : value)
    : M (step value) :=
  fun st =>
    match exec_block body env st with
    | Ok v st' => Ok (Next v) st'
    | Raise BreakSignal st' => Ok (Stop result) st'
    | Raise ContinueSignal st' => Ok (Next result) st'
    | Raise s st' => Raise s st'
    | Abort a => Abort a
    end.

(** [Interpreter._exec_WhileStatement] *)
Fixpoint while_loop (n : nat) (condition : node) (body : list node)
    (env : Environment) (result : value) : M value :=
  match n with
  | 0 => abort_with OutOfFuel
  | S n' =>
      c <- ex condition env ;;
      t <- gets (fun st => is_truthy st c) ;;
      if t then
        r <- loop_body body env result ;;
        match r with
        | Next v => while_loop n' condition body env v
        | Stop v => ret v
        end
      else ret result
  end.

(** A [for] over a sequence fixed before the loop starts. *)
Fixpoint for_each {A} (items : list A) (bind_item : A → M unit)
    (body : list node) (env : Environment) (result : value) : M value :=
  match items with
  | [] => ret result
  | x :: rest =>
      bind_item x ;;;
      r <- loop_body body env result ;;
      match r with
      | Next v => for_each rest bind_item body env v
      | Stop v => ret v
      end
  end.

(** [Interpreter._exec_Assignment] *)
Definition exec_Assignment (target value_node : node) (env : Environment)
    : M value :=
  v <- ex value_node env ;;
  match target with
  | Identifier name =>
      (fun st =>
         match env_update st env name v with
         | Some st' => Ok tt st'
         | None => env_set env name v st
         end) ;;;
      ret v
  | DotAccess obj property =>
      o <- ex obj env ;;
      match o with
      | VInst i => set_property i property v ;;; ret v
      | VDict l => dict_assign l (VStr property) v ;;; ret v
      | _ => runtime_error ("Cannot set property on " +:+ type_name o)
      end
  | IndexAccess obj index =>
      o <- ex obj env ;;
      i <- ex index env ;;
      match o with
      | VList l =>
          idx <- lift_host (py_int_conv i) ;;
          xs <- read_list l ;;
          match py_index (length xs) idx with
          | Some p => put_list l (<[p := v]> xs) ;;; ret v
          | None => runtime_error ("Index " +:+ str_of_Z idx +:+ " out of range")
          end
      | VDict l => dict_assign l i v ;;; ret v
      | _ => runtime_error ("Cannot index-assign on " +:+ type_name o)
      end
  | ThisExpression =>
      runtime_error "Cannot assign directly to 'this'. Use 'set this.property = value'"
  | _ => runtime_error "Invalid assignment target"
  end.

(** [repr(v)] inside a message, for the values whose [repr] is embedded. *)
Definition py_repr (v : value) : M string :=
  match v with
  | VNull => ret "None"
  | VBool b => ret (if b then "True" else "False")
  | VInt z => ret (str_of_Z z)
  | VStr s =>
      match py_repr_str s with
      | Some r => ret r
      | None => abort_with (Unmodelled "repr of a string")
      end
  | VFunc f => ret (repr_function f)
  | VClass c => ret (repr_class c)
  | VInst i => ret (repr_instance i)
  | _ => abort_with (Unmodelled "repr of a value")
  end.

(** [Interpreter._exec_IndexAccess] *)
Definition exec_IndexAccess (obj index : node) (env : Environment) : M value :=
  o <- ex obj env ;;
  i <- ex index env ;;
  match o with
  | VList l =>
      idx <- lift_host (py_int_conv i) ;;
      xs <- read_list l ;;
      match py_index (length xs) idx ≫= (fun p => xs !! p) with
      | Some x => ret x
      | None =>
          runtime_error ("Index " +:+ str_of_Z idx +:+ " out of range (length " +:+
                         str_of_Z (Z.of_nat (length xs)) +:+ ")")
      end
  | VStr s =>
      idx <- lift_host (py_int_conv i) ;;
      match py_index (String.length s) idx ≫= (fun p => String.get p s) with
      | Some c => ret (VStr (String c EmptyString))
      | None =>
          runtime_error ("Index " +:+ str_of_Z idx +:+ " out of range (length " +:+
                         str_of_Z (Z.of_nat (String.length s)) +:+ ")")
      end
  | VDict l =>
      found <- dict_lookup l i ;;
      match found with
      | Some x => ret x
      | None => r <- py_repr i ;; runtime_error ("Key " +:+ r +:+ " not found in dict")
      end
  | _ => runtime_error ("Cannot index " +:+ type_name o)
  end.

(** [Interpreter._exec_DotAccess] *)
Definition exec_DotAccess (obj : node) (prop : string) (env : Environment) : M value :=
  o <- ex obj env ;;
  match o with
  | VInst i => instance_get i prop
  | VModule l =>
      fun st =>
        match modules st !! l with
        | Some m =>
            match mod_properties m !! prop with
            | Some v => Ok v st
            | None =>
                match mod_methods m !! prop with
                | Some _ => Abort (Unmodelled "host function as a value")
                | None =>
                    match py_repr_str ("Module '" +:+ mod_name m +:+
                                       "' has no property '" +:+ prop +:+ "'") with
                    | Some r => Raise (HostError KeyError r) st
                    | None => Abort (Unmodelled "repr of a string")
                    end
                end
            end
        | None => Abort (Unmodelled "dangling module")
        end
  | VClass c =>
      match find_method c prop with
      | Some method => ret (VFunc method)
      | None => runtime_error ("Class '" +:+ cls_name c +:+ "' has no method '" +:+ prop +:+ "'")
      end
  | VDict l =>
      d <- gets (fun st => get_dict st l) ;;
      if prop =s? "size" then ret (VInt (Z.of_nat (length d)))
      else
        match dict_find (KStr prop) d with
        | Some v => ret v
        | None => runtime_error ("Key '" +:+ prop +:+ "' not found in dict")
        end
  | VStr s =>
      if prop =s? "length" then ret (VInt (Z.of_nat (String.length s)))
      else runtime_error ("String has no property '" +:+ prop +:+ "'. Use ." +:+ prop +:+
                          "() for methods")
  | VList l =>
      if prop =s? "length" then xs <- read_list l ;; ret (VInt (Z.of_nat (length xs)))
      else runtime_error ("List has no property '" +:+ prop +:+ "'. Use ." +:+ prop +:+
                          "() for methods")
  | _ => runtime_error ("Cannot access property '" +:+ prop +:+ "' on " +:+ type_name o)
  end.

(** The call of a module's method in [_exec_MethodCall]:
    [obj.call_method(method, args)] with [KeyError] and [RuntimeError]
    turned into runtime errors of the language. *)
Definition call_module_method (l : loc) (method : string) (args : list value)
    : M value :=
  fun st =>
    match modules st !! l with
    | Some m =>
        match mod_methods m !! method with
        | Some (fn, module_env) =>
            match call_volt_function (VFunc fn) args module_env st with
            | Raise (HostError KeyError msg) st' => Raise (VoltRuntimeError msg) st'
            | Raise (HostError RuntimeError msg) st' => Raise (VoltRuntimeError msg) st'
            | r => r
            end
        | None =>
            match py_repr_str ("Module '" +:+ mod_name m +:+ "' has no method '" +:+
                               method +:+ "'") with
            | Some r => Raise (VoltRuntimeError r) st
            | None => Abort (Unmodelled "repr of a string")
            end
        end
    | None => Abort (Unmodelled "dangling module")
    end.

(** [Interpreter._exec_MethodCall]; the method tables of strings,
    dictionaries and numbers are not embedded. *)
Definition exec_MethodCall (obj : node) (method : string) (args : list node)
    (env : Environment) : M value :=
  o <- ex obj env ;;
  vs <- exec_args args env ;;
  match o with
  | VInst i => call_instance_method i method vs env
  | VModule l => call_module_method l method vs
  | VStr _ => abort_with (Unmodelled "string methods")
  | VList l => call_list_method l method vs env
  | VDict _ => abort_with (Unmodelled "dict methods")
  | VBool _ | VInt _ | VFloat _ => abort_with (Unmodelled "number methods")
  | _ => runtime_error ("Cannot call method '" +:+ method +:+ "' on " +:+ type_name o)
  end.

(** [Interpreter._exec_FunctionCall]; the built-in functions are not
    embedded. *)
Definition exec_FunctionCall (name : string) (args : list node) (env : Environment)
    : M value :=
  vs <- exec_args args env ;;
  if bool_decide (name ∈ builtin_names) then abort_with (Unmodelled "built-in functions")
  else
    val <- env_get env name ;;
    match val with
    | VClass c => instantiate_class c vs env
    | VFunc f => call_function f vs env
    | _ => runtime_error ("'" +:+ name +:+ "' is not a function")
    end.

(** [Interpreter._exec_CallExpression] *)
Definition exec_CallExpression (callee : node) (args : list node) (env : Environment)
    : M value :=
  c <- ex callee env ;;
  vs <- exec_args args env ;;
  match c with
  | VFunc _ => call_volt_function c vs env
  | VClass k => instantiate_class k vs env
  | _ => runtime_error "Expression is not callable"
  end.

(** [Interpreter._exec_NewExpression] *)
Definition exec_NewExpression (class_name : string) (args : list node)
    (env : Environment) : M value :=
  k <- env_get env class_name ;;
  match k with
  | VClass c => vs <- exec_args args env ;; instantiate_class c vs env
  | _ => runtime_error ("'" +:+ class_name +:+ "' is not a class")
  end.

(** [Interpreter._exec_SuperMethodCall] *)
Definition exec_SuperMethodCall (method : string) (args : list node)
    (env : Environment) : M value :=
  this <- env_get env "this" ;;
  current_class <- env_get env "__class__" ;;
  match current_class with
  | VClass (mkClass _ _ (Some parent_class) _ _) =>
      match find_method parent_class method with
      | None => runtime_error ("Parent class has no method '" +:+ method +:+ "'")
      | Some method_fn =>
          vs <- exec_args args env ;;
          call_method method_fn this parent_class vs env
      end
  | _ => runtime_error "'super' used outside of a subclass method"
  end.

(** [Interpreter._exec_IfStatement] *)
Fixpoint exec_elif (clauses : list (node * list node)) (else_body : option (list node))
    (env : Environment) : M value :=
  match clauses with
  | (elif_cond, elif_body) :: rest =>
      c <- ex elif_cond env ;;
      t <- gets (fun st => is_truthy st c) ;;
      if t then exec_block elif_body env else exec_elif rest else_body env
  | [] =>
      match else_body with
      | Some body => exec_block body env
      | None => ret VNull
      end
  end.

Definition exec_IfStatement (condition : node) (body : list node)
    (elif_clauses : list (node * list node)) (else_body : option (list node))
    (env : Environment) : M value :=
  c <- ex condition env ;;
  t <- gets (fun st => is_truthy st c) ;;
  if t then exec_block body env else exec_elif elif_clauses else_body env.

(** [Interpreter._exec_ForInStatement] *)
Definition exec_ForInStatement (variable : string) (variable2 : option string)
    (iterable : node) (body : list node) (env : Environment) : M value :=
  it <- ex iterable env ;;
  let two := truthy_name variable2 in
  let second := default "" variable2 in
  let turn (first other : value) (result : value) : M (step value) :=
    (if two then env_set env variable first ;;; env_set env second other
     else env_set env variable other) ;;;
    loop_body body env result in
  match it with
  | VDict l =>
      keys <- gets (fun st => dict_keys st l) ;;
      iterate_dict depth l keys 0 VNull
        (fun k _ result =>
           env_set env variable k ;;;
           (if two then
              found <- dict_lookup l k ;;
              match found with
              | Some x => env_set env second x
              | None => raise (HostError KeyError "")
              end
            else ret tt) ;;;
           loop_body body env result)
  | VList l =>
      iterate_list depth l 0 VNull
        (fun i item result => turn (VInt (Z.of_nat i)) item result)
  | VStr s =>
      for_each (imap (fun i c => (i, c)) (chars s))
        (fun ic =>
           let ch := VStr (String ic.2 EmptyString) in
           if two then env_set env variable (VInt (Z.of_nat ic.1)) ;;; env_set env second ch
           else env_set env variable ch)
        body env VNull
  | _ => runtime_error ("Cannot iterate over " +:+ type_name it)
  end.

(** [Interpreter._exec_MatchStatement] *)
Fixpoint exec_cases (v : value) (cases : list (node * list node))
    (default_body : option (list node)) (env : Environment) : M value :=
  match cases with
  | (case_expr, case_body) :: rest =>
      case_val <- ex case_expr env ;;
      same <- (fun st => lift_abort (values_eq depth st v case_val) st) ;;
      if same then exec_block case_body env else exec_cases v rest default_body env
  | [] =>
      match default_body with
      | Some body => if truthy_block default_body then exec_block body env else ret VNull
      | None => ret VNull
      end
  end.

(** The methods dictionary of [_exec_ClassDeclaration]. *)
Fixpoint declare_methods
    (methods : list (string * list param * list node)) (env : Environment)
    (acc : gmap string VoltFunction) : M (gmap string VoltFunction) :=
  match methods with
  | [] => ret acc
  | (name, params, body) :: rest =>
      id <- fresh_id ;;
      declare_methods rest env (<[name := mkFunction id name params body env]> acc)
  end.

(** [Interpreter._exec_ClassDeclaration] *)
Definition exec_ClassDeclaration (name : string) (parent_name : option string)
    (methods : list (string * list param * list node)) (env : Environment) : M value :=
  parent_class <-
    (if truthy_name parent_name then
       p <- env_get env (default "" parent_name) ;;
       match p with
       | VClass c => ret (Some c)
       | _ => runtime_error ("'" +:+ default "" parent_name +:+ "' is not a class")
       end
     else ret None) ;;
  ms <- declare_methods methods env ∅ ;;
  id <- fresh_id ;;
  let k := VClass (mkClass id name parent_class ms env) in
  env_set env name k ;;;
  ret k.

(** [Interpreter._exec_DestructureList] *)
Fixpoint set_all (bindings : list (string * value)) (env : Environment) : M unit :=
  match bindings with
  | [] => ret tt
  | (name, v) :: rest => env_set env name v ;;; set_all rest env
  end.

Definition exec_DestructureList (names : list string) (value_node : node)
    (env : Environment) : M value :=
  v <- ex value_node env ;;
  match v with
  | VList l =>
      xs <- read_list l ;;
      if length xs <? length names then
        runtime_error ("Not enough values to destructure: expected " +:+
                       str_of_Z (Z.of_nat (length names)) +:+ ", got " +:+
                       str_of_Z (Z.of_nat (length xs)))
      else set_all (zip names xs) env ;;; ret VNull
  | _ => runtime_error "Cannot destructure non-list into list pattern"
  end.

(** [Interpreter._exec_DestructureDict] *)
Fixpoint destructure_names (names : list string) (find : string → M (option value))
    (missing : string → string) (env : Environment) : M unit :=
  match names with
  | [] => ret tt
  | name :: rest =>
      found <- find name ;;
      match found with
      | Some x => env_set env name x ;;; destructure_names rest find missing env
      | None => runtime_error (missing name)
      end
  end.

Definition exec_DestructureDict (names : list string) (value_node : node)
    (env : Environment) : M value :=
  v <- ex value_node env ;;
  match v with
  | VInst i =>
      destructure_names names
        (fun name => gets (fun st => get_props st (properties i) !! name))
        (fun name => "Property '" +:+ name +:+ "' not found on instance") env ;;;
      ret VNull
  | VDict l =>
      destructure_names names
        (fun name => gets (fun st => dict_find (KStr name) (get_dict st l)))
        (fun name => "Key '" +:+ name +:+ "' not found in dict") env ;;;
      ret VNull
  | _ => runtime_error "Cannot destructure non-dict into dict pattern"
  end.

(** The interpreter's [global_env]: the first environment ever made. *)
Definition global_env : Environment := Env 0 None.

(** [Interpreter._exec_UseStatement] for a module in a source file.
    [files] gives the statements of each file that exists and parses; the
    four built-in modules are not embedded. *)
Definition exec_UseStatement (module_name : string) (env : Environment) : M value :=
  if bool_decide (module_name ∈ builtin_modules) then
    abort_with (Unmodelled "built-in modules")
  else
    let filepath :=
      if ends_with ".volt" module_name then module_name
      else module_name +:+ ".volt" in
    tree <- gets (fun st => files st !! filepath) ;;
    match tree with
    | None => runtime_error ("Module not found: '" +:+ module_name +:+ "'")
    | Some statements =>
        module_env <- new_env (Some global_env) ;;
        exec_block statements module_env ;;;
        vars <- gets (fun st => frame_vars st (variables module_env)) ;;
        let base_name := module_base_name module_name in
        m <- new_module
               (mkModule base_name vars
                  (omap (fun v => match v with
                                  | VFunc f => Some (f, module_env)
                                  | _ => None
                                  end) vars)) ;;
        env_set env base_name m ;;;
        ret m
    end.

(** [Interpreter.execute]: the dispatch on the class of the node. *)
Definition exec_node (n : node) (env : Environment) : M value :=
  match n with
  | Program statements => exec_block statements env
  | NumberLiteral (NInt z) => ret (VInt z)
  | NumberLiteral (NFloat f) => ret (VFloat f)
  | StringLiteral s => ret (VStr s)
  | BooleanLiteral b => ret (VBool b)
  | NullLiteral => ret VNull
  | ListLiteral elements => vs <- exec_args elements env ;; new_list vs
  | DictLiteral pairs =>
      d <- new_dict [] ;;
      match d with
      | VDict l =>
          (fix fill (ps : list (node * node)) : M value :=
             match ps with
             | [] => ret d
             | (key_node, value_node) :: rest =>
                 key <- ex key_node env ;;
                 v <- ex value_node env ;;
                 dict_assign l key v ;;;
                 fill rest
             end) pairs
      | _ => ret d
      end
  | StringInterpolation parts =>
      (fix join (ps : list node) (acc : string) : M value :=
         match ps with
         | [] => ret (VStr acc)
         | part :: rest =>
             val <- ex part env ;;
             s <- to_string depth val ;;
             join rest (acc +:+ s)
         end) parts ""
  | Identifier name => env_get env name
  | ThisExpression => env_get env "this"
  | IndexAccess obj index => exec_IndexAccess obj index env
  | DotAccess obj prop => exec_DotAccess obj prop env
  | BinaryOp op lhs rhs => exec_BinaryOp op lhs rhs env
  | UnaryOp op operand => exec_UnaryOp op operand env
  | LambdaExpression params body =>
      id <- fresh_id ;;
      ret (VFunc (mkFunction id "<lambda>" params [ReturnStatement (Some body)] env))
  | FunctionCall name args => exec_FunctionCall name args env
  | CallExpression callee args => exec_CallExpression callee args env
  | MethodCall obj method args => exec_MethodCall obj method args env
  | NewExpression class_name args => exec_NewExpression class_name args env
  | SuperMethodCall method args => exec_SuperMethodCall method args env
  | Assignment target value_node => exec_Assignment target value_node env
  | ShowStatement expression =>
      v <- ex expression env ;;
      s <- to_string depth v ;;
      print s ;;;
      ret VNull
  | AskStatement prompt variable => exec_AskStatement prompt variable env
  | IfStatement condition body elif_clauses else_body =>
      exec_IfStatement condition body elif_clauses else_body env
  | WhileStatement condition body => while_loop depth condition body env VNull
  | LoopTimesStatement count body =>
      c <- ex count env ;;
      match as_number c with
      | Some _ =>
          n <- lift_host (py_int_conv c) ;;
          for_each (py_range 0 n) (fun _ => ret tt) body env VNull
      | None => runtime_error "Loop count must be a number"
      end
  | LoopRangeStatement variable start stop body =>
      a <- ex start env ;;
      b <- ex stop env ;;
      lo <- lift_host (py_int_conv a) ;;
      hi <- lift_host (py_int_conv b) ;;
      for_each (py_range lo (hi + 1)) (fun i => env_set env variable (VInt i))
        body env VNull
  | ForInStatement variable variable2 iterable body =>
      exec_ForInStatement variable variable2 iterable body env
  | FuncDeclaration name params body =>
      id <- fresh_id ;;
      let func := VFunc (mkFunction id name params body env) in
      env_set env name func ;;;
      ret func
  | ReturnStatement value_node =>
      match value_node with
      | Some e => v <- ex e env ;; raise (ReturnSignal v)
      | None => raise (ReturnSignal VNull)
      end
  | BreakStatement => raise BreakSignal
  | ContinueStatement => raise ContinueSignal
  | PushStatement list_expr value_node =>
      lst <- ex list_expr env ;;
      v <- ex value_node env ;;
      match lst with
      | VList l => xs <- read_list l ;; put_list l (xs ++ [v]) ;;; ret VNull
      | _ => runtime_error "push requires a list"
      end
  | PopStatement list_expr =>
      lst <- ex list_expr env ;;
      match lst with
      | VList l =>
          xs <- read_list l ;;
          match last xs with
          | None => runtime_error "Cannot pop from empty list"
          | Some x => put_list l (take (length xs - 1) xs) ;;; ret x
          end
      | _ => runtime_error "pop requires a list"
      end
  | ClassDeclaration name parent_name methods =>
      exec_ClassDeclaration name parent_name methods env
  | MatchStatement value_node cases default_body =>
      v <- ex value_node env ;;
      exec_cases v cases default_body env
  | TryCatchStatement try_body catch_var catch_body finally_body =>
      exec_TryCatchStatement try_body catch_var catch_body finally_body env
  | ThrowStatement value_node =>
      v <- ex value_node env ;;
      raise (VoltThrowError v)
  | DestructureList names value_node => exec_DestructureList names value_node env
  | DestructureDict names value_node => exec_DestructureDict names value_node env
  | UseStatement module_name => exec_UseStatement module_name env
  end.

End Evaluator.

(** [Interpreter.execute] with a bound on the depth of the recursion:
    [execute (S fuel)] runs the node at hand and hands its parts to
    [execute fuel]. *)
Fixpoint execute (fuel : nat) (n : node) (env : Environment) : M value :=
  match fuel with
  | 0 => abort_with OutOfFuel
  | S fuel' => exec_node (execute fuel') fuel' n env
  end.

(** The state of a fresh interpreter: the global environment is empty, the
    standard input holds [input_lines], [sources] are the module files. *)
Definition initial_state (input_lines : list string)
    (sources : gmap string (list node)) : state :=
  mkState [∅] [] [] [] [] 0 [] input_lines sources.

(** [Interpreter.run] after lexing and parsing. *)
Definition run (fuel : nat) (program : list node) (input_lines : list string)
    (sources : gmap string (list node)) : result value :=
  execute fuel (Program program) global_env (initial_state input_lines sources).

(** ** The string scanner of the lexer ([src/lexer.py])

    The scanner state is the source text and the cursor ([pos], [line],
    [column]); the token list is left out because reading a string does not
    touch it. *)

Module Lexer.

Record t := mk {
  source : list ascii;
  pos : nat;
  line : nat;
  column : nat
}.

Inductive outcome (A : Type) :=
| Done (a : A) (lx : t)
| LexerError (message : string) (line column : nat)
| IndexOutOfRange
| NoFuel.
Arguments Done {A} a lx.
Arguments LexerError {A} message line column.
Arguments IndexOutOfRange {A}.
Arguments NoFuel {A}.

Definition NUL : ascii := ascii_of_nat 0.
Definition newline : ascii := ascii_of_nat 10.
Definition tab : ascii := ascii_of_nat 9.
Definition backslash : ascii := ascii_of_nat 92.
Definition lbrace : ascii := ascii_of_nat 123.
Definition rbrace : ascii := ascii_of_nat 125.
Definition squote : ascii := ascii_of_nat 39.

(** [Lexer.error] *)
Definition error {A} (message : string) (lx : t) : outcome A :=
  LexerError message (line lx) (column lx).

(** [Lexer.peek] *)
Definition peek (lx : t) : ascii :=
  match source lx !! pos lx with
  | Some c => c
  | None => NUL
  end.

Definition at_end (lx : t) : bool := length (source lx) <=? pos lx.

(** [Lexer.advance]; indexing past the end of the source is an
    [IndexError] of the host. *)
Definition advance (lx : t) : option (ascii * t) :=
  match source lx !! pos lx with
  | Some ch =>
      Some (ch,
            if Ascii.eqb ch newline then mk (source lx) (S (pos lx)) (S (line lx)) 1
            else mk (source lx) (S (pos lx)) (line lx) (S (column lx)))
  | None => None
  end.

(** The table [escape_map] of [read_string]. *)
Definition escape_map : list (ascii * ascii) :=
  [("n"%char, newline); ("t"%char, tab); (backslash, backslash); (dquote, dquote);
   (squote, squote); (lbrace, lbrace); (rbrace, rbrace); ("0"%char, NUL)].

Fixpoint assoc (k : ascii) (m : list (ascii * ascii)) : option ascii :=
  match m with
  | [] => None
  | (k', v) :: r => if Ascii.eqb k k' then Some v else assoc k r
  end.

(** [escape_map.get(esc, backslash + esc)] *)
Definition escape_get (esc : ascii) : list ascii :=
  match assoc esc escape_map with
  | Some c => [c]
  | None => [backslash; esc]
  end.

(** The fragments of an interpolated string. *)
Inductive part :=
| TextPart (s : list ascii)
| ExprPart (s : list ascii).

(** What [read_string] returns: [('string', text)] or [('interp', parts)]. *)
Inductive string_token :=
| PlainString (s : list ascii)
| Interpolated (parts : list part).

(** The inner loop of [_read_interpolation_expr]: a quoted string inside
    the expression, copied up to the quote [q]. *)
Fixpoint read_nested_string (fuel : nat) (q : ascii) (result : list ascii) (lx : t)
    : outcome (list ascii) :=
  match fuel with
  | 0 => NoFuel
  | S fuel' =>
      if negb (at_end lx) && negb (Ascii.eqb (peek lx) q) then
        match (if Ascii.eqb (peek lx) backslash then
                 match advance lx with
                 | Some (c, lx1) => Some (result ++ [c], lx1)
                 | None => None
                 end
               else Some (result, lx)) with
        | Some (result1, lx1) =>
            match advance lx1 with
            | Some (c, lx2) => read_nested_string fuel' q (result1 ++ [c]) lx2
            | None => IndexOutOfRange
            end
        | None => IndexOutOfRange
        end
      else Done result lx
  end.

(** [Lexer._read_interpolation_expr] *)
Fixpoint read_interpolation_loop (fuel : nat) (depth : nat) (result : list ascii)
    (lx : t) : outcome (list ascii) :=
  match fuel with
  | 0 => NoFuel
  | S fuel' =>
      if negb (at_end lx) && (0 <? depth) then
        let ch := peek lx in
        match advance lx with
        | None => IndexOutOfRange
        | Some (c, lx1) =>
            if Ascii.eqb ch lbrace then
              read_interpolation_loop fuel' (S depth) (result ++ [c]) lx1
            else if Ascii.eqb ch rbrace then
              if 0 <? depth - 1 then
                read_interpolation_loop fuel' (depth - 1) (result ++ [c]) lx1
              else read_interpolation_loop fuel' (depth - 1) result lx1
            else if Ascii.eqb ch dquote || Ascii.eqb ch squote then
              match read_nested_string fuel' c (result ++ [c]) lx1 with
              | Done result1 lx2 =>
                  if negb (at_end lx2) then
                    match advance lx2 with
                    | Some (c2, lx3) =>
                        read_interpolation_loop fuel' depth (result1 ++ [c2]) lx3
                    | None => IndexOutOfRange
                    end
                  else read_interpolation_loop fuel' depth result1 lx2
              | r => r
              end
            else read_interpolation_loop fuel' depth (result ++ [c]) lx1
        end
      else Done result lx
  end.

Definition read_interpolation_expr (fuel : nat) (lx : t) : outcome (list ascii) :=
  read_interpolation_loop fuel 1 [] lx.

(** The loop of [read_string] and what follows it.  [current_text] holds
    the characters joined so far. *)
Fixpoint read_string_loop (fuel : nat) (quote_char : ascii) (interpolate : bool)
    (parts : list part) (current_text : list ascii) (has_interpolation : bool)
    (lx : t) : outcome string_token :=
  match fuel with
  | 0 => NoFuel
  | S fuel' =>
      if negb (at_end lx) && negb (Ascii.eqb (peek lx) quote_char) then
        let ch := peek lx in
        if Ascii.eqb ch backslash then
          match advance lx with
          | None => IndexOutOfRange
          | Some (_, lx1) =>
              if at_end lx1 then error "Unterminated string literal" lx1
              else
                match advance lx1 with
                | None => IndexOutOfRange
                | Some (esc, lx2) =>
                    read_string_loop fuel' quote_char interpolate parts
                      (current_text ++ escape_get esc) has_interpolation lx2
                end
          end
        else if Ascii.eqb ch lbrace && interpolate then
          let parts1 :=
            match current_text with
            | [] => parts
            | _ => parts ++ [TextPart current_text]
            end in
          match advance lx with
          | None => IndexOutOfRange
          | Some (_, lx1) =>
              match read_interpolation_expr fuel' lx1 with
              | Done expr_text lx2 =>
                  read_string_loop fuel' quote_char interpolate
                    (parts1 ++ [ExprPart expr_text]) [] true lx2
              | LexerError m l c => LexerError m l c
              | IndexOutOfRange => IndexOutOfRange
              | NoFuel => NoFuel
              end
          end
        else if Ascii.eqb ch newline then error "Unterminated string literal" lx
        else
          match advance lx with
          | None => IndexOutOfRange
          | Some (c, lx1) =>
              read_string_loop fuel' quote_char interpolate parts
                (current_text ++ [c]) has_interpolation lx1
          end
      else if at_end lx then error "Unterminated string literal" lx
      else
        match advance lx with
        | None => IndexOutOfRange
        | Some (_, lx1) =>
            if negb has_interpolation then Done (PlainString current_text) lx1
            else
              Done (Interpolated
                      (match current_text with
                       | [] => parts
                       | _ => parts ++ [TextPart current_text]
                       end)) lx1
        end
  end.

(** [Lexer.read_string].  Every turn of a loop moves the cursor forward,
    so the length of the source bounds the number of turns. *)
Definition read_string (quote_char : ascii) (interpolate : bool) (lx : t)
    : outcome string_token :=
  match advance lx with
  | None => IndexOutOfRange
  | Some (_, lx1) =>
      read_string_loop (S (length (source lx))) quote_char interpolate [] [] false lx1
  end.

(** [Lexer.peek_ahead] *)
Definition peek_ahead (lx : t) (offset : nat) : ascii :=
  match source lx !! (pos lx + offset) with
  | Some c => c
  | None => NUL
  end.

(** The loop of [read_number]: the characters read, whether a dot is among
    them, and where the cursor stops. *)
Fixpoint read_number_loop (fuel : nat) (result : list ascii) (has_dot : bool) (lx : t)
    : outcome (list ascii * bool) :=
  match fuel with
  | 0 => NoFuel
  | S fuel' =>
      if negb (at_end lx) && (is_digit (peek lx) || Ascii.eqb (peek lx) ".") then
        if Ascii.eqb (peek lx) "." then
          if negb (is_digit (peek_ahead lx 1)) then Done (result, has_dot) lx
          else if has_dot then Done (result, has_dot) lx
          else
            match advance lx with
            | Some (c, lx1) => read_number_loop fuel' (result ++ [c]) true lx1
            | None => IndexOutOfRange
            end
        else
          match advance lx with
          | Some (c, lx1) => read_number_loop fuel' (result ++ [c]) has_dot lx1
          | None => IndexOutOfRange
          end
      else Done (result, has_dot) lx
  end.

(** [Lexer.read_number]: [float(num_str) if has_dot else int(num_str)];
    [None] stands for the [ValueError] of the conversion. *)
Definition read_number (lx : t) : outcome (option num) :=
  match read_number_loop (S (length (source lx))) [] false lx with
  | Done (result, has_dot) lx1 =>
      Done (if has_dot then NFloat <$> py_float (text result)
            else NInt <$> py_int (text result)) lx1
  | LexerError m l c => LexerError m l c
  | IndexOutOfRange => IndexOutOfRange
  | NoFuel => NoFuel
  end.

(** The loop of [skip_comment]: up to the end of the line. *)
Fixpoint skip_comment_loop (fuel : nat) (lx : t) : outcome unit :=
  match fuel with
  | 0 => NoFuel
  | S fuel' =>
      if negb (at_end lx) && negb (Ascii.eqb (peek lx) newline) then
        match advance lx with
        | Some (_, lx1) => skip_comment_loop fuel' lx1
        | None => IndexOutOfRange
        end
      else Done tt lx
  end.

(** [Lexer.skip_comment] *)
Definition skip_comment (lx : t) : outcome unit :=
  if Ascii.eqb (peek lx) "-" && Ascii.eqb (peek_ahead lx 1) "-" then
    skip_comment_loop (S (length (source lx))) lx
  else Done tt lx.

End Lexer.

(** * Properties *)

Lemma execute_S fuel n env :
  execute (S fuel) n env = exec_node (execute fuel) fuel n env.
Proof. reflexivity. Qed.

#[local] Arguments execute : simpl never.
(** ** Vocabulary of the statements *)

(** The frames of an environment, innermost first. *)
Fixpoint frame_chain (e : Environment) : list loc :=
  match e with
  | Env l p => l :: match p with Some e' => frame_chain e' | None => [] end
  end.

Definition binds (st : state) (x : string) (l : loc) : Prop :=
  is_Some (frame_vars st l !! x).

(** The frame that an assignment to [x] from [env] writes: the innermost
    frame of the chain that binds [x], and the current frame when there is
    none. *)
Definition assignment_target (st : state) (env : Environment) (x : string) : loc :=
  match list_find (binds st x) (frame_chain env) with
  | Some (_, l) => l
  | None => variables env
  end.

(** [scope_of env c]: [c] is [env] or a scope below it (a child frame, a
    child of a child, ...). *)
Inductive scope_of (env : Environment) : Environment → Prop :=
| scope_here : scope_of env env
| scope_child l c : scope_of env c → scope_of env (Env l (Some c)).

(** [unshadowed st x env c]: [c] is [env] or a scope below it, and no frame
    strictly between binds [x] itself. *)
Inductive unshadowed (st : state) (x : string) (env : Environment)
    : Environment → Prop :=
| unshadowed_here : unshadowed st x env env
| unshadowed_child l c :
    frame_vars st l !! x = None →
    unshadowed st x env c →
    unshadowed st x env (Env l (Some c)).

(** The classes of an inheritance chain, the class itself first. *)
Fixpoint class_chain (c : VoltClass) : list VoltClass :=
  match c with
  | mkClass _ _ p _ _ => c :: match p with Some c' => class_chain c' | None => [] end
  end.

Definition defines (name : string) (c : VoltClass) : Prop :=
  is_Some (cls_methods c !! name).

(** ** Induction along parent links *)

Lemma Environment_chain_ind (P : Environment → Prop) :
  (∀ l, P (Env l None)) →
  (∀ l p, P p → P (Env l (Some p))) →
  ∀ e, P e.
Proof.
  intros Hroot Hchild. fix IH 1. intros [l [p|]].
  - apply Hchild, IH.
  - apply Hroot.
Qed.

Lemma VoltClass_chain_ind (P : VoltClass → Prop) :
  (∀ i n ms e, P (mkClass i n None ms e)) →
  (∀ i n p ms e, P p → P (mkClass i n (Some p) ms e)) →
  ∀ c, P c.
Proof.
  intros Hroot Hchild. fix IH 1. intros [i n [p|] ms e].
  - apply Hchild, IH.
  - apply Hroot.
Qed.

(** ** Environments *)

Lemma frame_vars_set_frames_insert st l m :
  l < length (frames st) →
  frame_vars (set_frames (fun fs => <[l := m]> fs) st) l = m.
Proof.
  intros Hl. unfold frame_vars, set_frames; simpl.
  by rewrite list_lookup_insert_eq.
Qed.

Lemma frame_vars_set_frames_insert_ne st l l' m :
  l ≠ l' →
  frame_vars (set_frames (fun fs => <[l := m]> fs) st) l' = frame_vars st l'.
Proof.
  intros Hne. unfold frame_vars, set_frames; simpl.
  by rewrite list_lookup_insert_ne.
Qed.

Lemma binds_allocated st x l : binds st x l → l < length (frames st).
Proof.
  unfold binds, frame_vars. intros [v Hv].
  destruct (frames st !! l) as [m|] eqn:Hm.
  - by eapply lookup_lt_Some.
  - simpl in Hv. by rewrite lookup_empty in Hv.
Qed.

(** [Environment.update] writes the first frame of the chain that binds the
    name, and reports failure when there is none. *)
Lemma env_update_first_binding st e x v :
  env_update st e x v =
    match list_find (binds st x) (frame_chain e) with
    | Some (_, l) =>
        Some (set_frames (fun fs => <[l := <[x := v]> (frame_vars st l)]> fs) st)
    | None => None
    end.
Proof.
  induction e as [l | l p IH] using Environment_chain_ind; simpl;
    case_decide as Hb; try rewrite IH.
  - by destruct Hb as [w ->].
  - by apply eq_None_not_Some in Hb as ->.
  - by destruct Hb as [w ->].
  - apply eq_None_not_Some in Hb as ->.
    by destruct (list_find _ _) as [[? ?]|].
Qed.

(** [Environment.get] reads the first frame of the chain that binds the
    name. *)
Lemma env_lookup_first_binding st e x :
  env_lookup st e x =
    match list_find (binds st x) (frame_chain e) with
    | Some (_, l) => frame_vars st l !! x
    | None => None
    end.
Proof.
  induction e as [l | l p IH] using Environment_chain_ind; simpl;
    case_decide as Hb; try rewrite IH.
  - by destruct Hb as [w ->].
  - by apply eq_None_not_Some in Hb as ->.
  - by destruct Hb as [w ->].
  - apply eq_None_not_Some in Hb as ->.
    by destruct (list_find _ _) as [[? ?]|].
Qed.

Lemma assignment_target_allocated st env x :
  variables env < length (frames st) →
  assignment_target st env x < length (frames st).
Proof.
  intros Henv. unfold assignment_target.
  destruct (list_find _ _) as [[i l]|] eqn:Hfind; [|done].
  apply list_find_Some in Hfind as (_ & Hb & _). by eapply binds_allocated.
Qed.

(** After the write, a lookup from the assigning environment finds the new
    value. *)
Lemma env_lookup_after_write st env x v :
  variables env < length (frames st) →
  let l := assignment_target st env x in
  env_lookup (set_frames (fun fs => <[l := <[x := v]> (frame_vars st l)]> fs) st) env x
  = Some v.
Proof.
  intros Henv l. subst l. unfold assignment_target.
  destruct (list_find (binds st x) (frame_chain env)) as [[i l]|] eqn:Hfind.
  - clear Henv. revert i Hfind.
    induction env as [l0 | l0 p IH] using Environment_chain_ind; intros i Hfind;
      simpl in Hfind; destruct (decide (binds st x l0)) as [Hb|Hb]; simplify_eq/=.
    + rewrite frame_vars_set_frames_insert by (by eapply binds_allocated).
      by rewrite lookup_insert_eq.
    + rewrite frame_vars_set_frames_insert by (by eapply binds_allocated).
      by rewrite lookup_insert_eq.
    + destruct (list_find (binds st x) (frame_chain p)) as [[j l']|] eqn:Hp;
        simplify_eq/=.
      assert (Hl : binds st x l).
      { apply list_find_Some in Hp as (_ & ? & _). done. }
      assert (l ≠ l0) by (intros ->; done).
      rewrite frame_vars_set_frames_insert_ne by done.
      destruct (frame_vars st l0 !! x) eqn:Hx; [exfalso; apply Hb; by eexists|].
      by eapply IH.
  - destruct env as [l0 p]; simpl in *.
    rewrite frame_vars_set_frames_insert by done. by rewrite lookup_insert_eq.
Qed.

(** After the write, a lookup from a scope below finds the new value too,
    as long as no frame in between binds the name itself. *)
Lemma env_lookup_unshadowed st env x v c :
  variables env < length (frames st) →
  unshadowed st x env c →
  let l := assignment_target st env x in
  env_lookup (set_frames (fun fs => <[l := <[x := v]> (frame_vars st l)]> fs) st) c x
  = Some v.
Proof.
  intros Henv Hc l. induction Hc as [|l' c Hfree Hc IH].
  - by apply env_lookup_after_write.
  - simpl. destruct (decide (l = l')) as [<-|Hne].
    + rewrite frame_vars_set_frames_insert
        by (by apply assignment_target_allocated).
      by rewrite lookup_insert_eq.
    + rewrite frame_vars_set_frames_insert_ne by done. by rewrite Hfree.
Qed.

(** The claim of the specification about child scopes, as it is worded:
    after [set x = v], the name resolves to [v] from every scope below the
    assigning one. *)
Definition assignment_seen_from_every_child_scope : Prop :=
  ∀ fuel x e env st v st2 c,
    execute (S fuel) (Assignment (Identifier x) e) env st = Ok v st2 →
    scope_of env c →
    env_lookup st2 c x = Some v.

Definition final_state (r : result value) : state :=
  match r with
  | Ok _ st => st
  | Raise _ st => st
  | Abort _ => initial_state [] ∅
  end.

(** [func mk(x) { return () => x }] and [set g = mk(5)]: the frame of the
    call of [mk] binds [x] and stays alive as the closure of [g]. *)
Definition closure_program : list node :=
  [FuncDeclaration "mk" [("x", None)]
     [ReturnStatement (Some (LambdaExpression [] (Identifier "x")))];
   Assignment (Identifier "g") (FunctionCall "mk" [NumberLiteral (NInt 5)])].

(** C5, the claim as stated fails: after [closure_program], [set x = 9] at
    top level creates a global binding, and the scope of the closure of [g],
    a child of the global scope, still resolves [x] to 5 (its own parameter
    shadows the global name). *)
Lemma assignment_shadowed_in_child_scope : ¬ assignment_seen_from_every_child_scope.
Proof.
  intros claim.
  pose (st := final_state (run 10 closure_program [] ∅)).
  assert (H : env_lookup
                (set_frames (fun fs => <[0 := <["x" := VInt 9]> (frame_vars st 0)]> fs) st)
                (Env 1 (Some global_env)) "x" = Some (VInt 9)).
  { apply (claim 1 "x" (NumberLiteral (NInt 9)) global_env st).
    - vm_compute. reflexivity.
    - apply scope_child, scope_here. }
  vm_compute in H. discriminate H.
Qed.

(** C5 (amended): for an assignment [set x = e] whose right-hand side
    evaluates to [v], the innermost frame of the environment chain that
    already binds [x] is updated in place, or, when no frame binds [x], a
    binding is created in the current frame; no other frame and nothing else
    in the state changes; afterwards [x] resolves to [v] from the assigning
    environment and from every scope below it that is not separated from
    it by a frame binding [x] itself. *)
Theorem assignment_writes_innermost_binding fuel x e env st v st1 :
  execute fuel e env st = Ok v st1 →
  variables env < length (frames st1) →
  let l := assignment_target st1 env x in
  let st2 := set_frames (fun fs => <[l := <[x := v]> (frame_vars st1 l)]> fs) st1 in
  execute (S fuel) (Assignment (Identifier x) e) env st = Ok v st2
  ∧ env_lookup st2 env x = Some v
  ∧ ∀ c, unshadowed st1 x env c → env_lookup st2 c x = Some v.
Proof.
  intros Hval Henv l st2. split; [|split].
  - rewrite execute_S. simpl. unfold exec_Assignment, bind. rewrite Hval.
    rewrite env_update_first_binding. subst st2 l. unfold assignment_target.
    destruct (list_find _ _) as [[i l]|]; [done|].
    unfold env_set, modify, ret. done.
  - by apply env_lookup_after_write.
  - intros c Hc. by apply env_lookup_unshadowed.
Qed.

Lemma assignment_writes_innermost_binding_witness :
  execute 1 (NumberLiteral (NInt 9)) global_env (initial_state [] ∅)
    = Ok (VInt 9) (initial_state [] ∅)
  ∧ variables global_env < length (frames (initial_state [] ∅))
  ∧ env_lookup
      (set_frames (fun fs => <[0 := <["x" := VInt 9]> ∅]> fs) (initial_state [] ∅))
      global_env "x" = Some (VInt 9).
Proof.
  split; [reflexivity|]. split; [simpl; lia|].
  destruct (assignment_writes_innermost_binding 1 "x" (NumberLiteral (NInt 9)) global_env
              (initial_state [] ∅) (VInt 9) (initial_state [] ∅) eq_refl (le_n 1))
    as (_ & H & _).
  exact H.
Defined.

(** ** Short-circuit operators *)

(** C6: when the left operand [a] of [or] or [and] evaluates to [v], the
    operator yields [v] itself (not a boolean made from it) whenever [v]
    decides the result, and in that case the state is the one [a] left, so
    the right operand [b] was not evaluated at all, whatever [b] is;
    otherwise the operator yields whatever the evaluation of [b] yields. *)
Theorem short_circuit_yields_operand fuel a b env st v st1 :
  execute fuel a env st = Ok v st1 →
  execute (S fuel) (BinaryOp "or" a b) env st
    = (if is_truthy st1 v then Ok v st1 else execute fuel b env st1)
  ∧ execute (S fuel) (BinaryOp "and" a b) env st
    = (if is_truthy st1 v then execute fuel b env st1 else Ok v st1).
Proof.
  intros Ha. split; rewrite execute_S; simpl; unfold exec_BinaryOp; simpl;
    unfold bind, gets; rewrite Ha; by destruct (is_truthy st1 v).
Qed.

Lemma short_circuit_yields_operand_witness :
  execute 1 (NumberLiteral (NInt 7)) global_env (initial_state [] ∅)
    = Ok (VInt 7) (initial_state [] ∅)
  ∧ execute 2 (BinaryOp "or" (NumberLiteral (NInt 7)) (Identifier "undefined"))
      global_env (initial_state [] ∅)
    = Ok (VInt 7) (initial_state [] ∅).
Proof.
  split; [reflexivity|].
  exact (proj1 (short_circuit_yields_operand 1 (NumberLiteral (NInt 7))
                  (Identifier "undefined") global_env (initial_state [] ∅)
                  (VInt 7) (initial_state [] ∅) eq_refl)).
Defined.

(** ** Method and property lookup on instances *)

(** [find_method] is the linear walk up the parent links: the method comes
    from the first class of the chain that defines the name. *)
Lemma find_method_first_in_chain c name :
  find_method c name =
    match list_find (defines name) (class_chain c) with
    | Some (_, k) => cls_methods k !! name
    | None => None
    end.
Proof.
  induction c as [i n ms e | i n p ms e IH] using VoltClass_chain_ind; simpl;
    case_decide as Hd; unfold defines in Hd; simpl in *; try rewrite IH.
  - by destruct Hd as [f ->].
  - by apply eq_None_not_Some in Hd as ->.
  - by destruct Hd as [f ->].
  - apply eq_None_not_Some in Hd as ->.
    by destruct (list_find _ _) as [[? ?]|].
Qed.

(** The method that the class chain of [c] gives for [name]. *)
Definition inherited_method (c : VoltClass) (name : string) : option VoltFunction :=
  match list_find (defines name) (class_chain c) with
  | Some (_, k) => cls_methods k !! name
  | None => None
  end.

(** C8: for a method call [obj.method(args)] and a property access
    [obj.prop] whose object is an instance: a property owned by the instance
    is taken, whatever the classes define under that name (a property
    holding a function is called with the arguments; one holding anything
    else makes the call fail); only when the instance has no such property
    the name is resolved along the class chain, by the first class, from the
    instance's class upwards through the parent links, that defines it. *)
Theorem instance_lookup_prefers_properties fuel obj method args prop env st i st1 vs st2 :
  execute fuel obj env st = Ok (VInst i) st1 →
  exec_args (execute fuel) args env st1 = Ok vs st2 →
  execute (S fuel) (MethodCall obj method args) env st =
    match get_props st2 (properties i) !! method with
    | Some (VFunc f) => call_function (execute fuel) f vs env st2
    | Some _ => Raise (VoltRuntimeError ("'" +:+ method +:+ "' is not a method")) st2
    | None =>
        match inherited_method (klass i) method with
        | Some m => call_method (execute fuel) m (VInst i) (klass i) vs env st2
        | None =>
            Raise (VoltRuntimeError ("'" +:+ cls_name (klass i) +:+ "' has no method '" +:+
                                     method +:+ "'")) st2
        end
    end
  ∧ execute (S fuel) (DotAccess obj prop) env st =
    match get_props st1 (properties i) !! prop with
    | Some v => Ok v st1
    | None =>
        match inherited_method (klass i) prop with
        | Some m => Ok (VFunc m) st1
        | None =>
            Raise (VoltRuntimeError ("'" +:+ cls_name (klass i) +:+
                                     "' has no property or method '" +:+ prop +:+ "'")) st1
        end
    end.
Proof.
  intros Hobj Hargs. unfold inherited_method.
  rewrite <- !find_method_first_in_chain. split.
  - rewrite execute_S. simpl. unfold exec_MethodCall, bind. rewrite Hobj, Hargs.
    unfold call_instance_method, bind, gets.
    destruct (get_props st2 (properties i) !! method) as [[]|]; try done.
    by destruct (find_method (klass i) method).
  - rewrite execute_S. simpl. unfold exec_DotAccess, bind. rewrite Hobj.
    unfold instance_get, bind, gets.
    destruct (get_props st1 (properties i) !! prop); [done|].
    by destruct (find_method (klass i) prop).
Qed.

(** The state after [class A { func m() { return 1 } }],
    [class B extends A { }], [set o = new B()] and [set o.m = () => 2]: the
    instance property [m] holds a function and the class chain defines [m]
    as well. *)
Definition property_program : list node :=
  [ClassDeclaration "A" None
     [("m", [], [ReturnStatement (Some (NumberLiteral (NInt 1)))])];
   ClassDeclaration "B" (Some "A") [];
   Assignment (Identifier "o") (NewExpression "B" []);
   Assignment (DotAccess (Identifier "o") "m")
     (LambdaExpression [] (NumberLiteral (NInt 2)))].

Definition property_state : state :=
  final_state (run 10 property_program [] ∅).

Definition property_instance : VoltInstance :=
  let method_m :=
    mkFunction 0 "m" [] [ReturnStatement (Some (NumberLiteral (NInt 1)))] global_env in
  let class_A := mkClass 1 "A" None {[ "m" := method_m ]} global_env in
  mkInstance (mkClass 2 "B" (Some class_A) ∅ global_env) 0.

Lemma instance_lookup_prefers_properties_witness :
  execute 3 (Identifier "o") global_env property_state
    = Ok (VInst property_instance) property_state
  ∧ exec_args (execute 3) [] global_env property_state = Ok [] property_state
  ∧ (∃ st', execute 4 (MethodCall (Identifier "o") "m" []) global_env property_state
            = Ok (VInt 2) st')
  ∧ execute 4 (DotAccess (Identifier "o") "n") global_env property_state
    = Raise (VoltRuntimeError "'B' has no property or method 'n'") property_state.
Proof.
  assert (Hobj : execute 3 (Identifier "o") global_env property_state
                 = Ok (VInst property_instance) property_state)
    by (vm_compute; reflexivity).
  destruct (instance_lookup_prefers_properties 3 (Identifier "o") "m" [] "n"
              global_env property_state property_instance property_state []
              property_state Hobj eq_refl) as [Hcall Hprop].
  split; [exact Hobj|]. split; [reflexivity|]. split.
  - rewrite Hcall. vm_compute. eexists. reflexivity.
  - rewrite Hprop. vm_compute. reflexivity.
Defined.

(** ** The [+] operator *)

(** The entries of a dictionary object have hashable, pairwise different
    keys: [dict_assign] never stores anything else. *)
Definition dict_wf (d : list (value * value)) : bool :=
  forallb (fun kv => match py_hash kv.1 with Hashable _ => true | _ => false end) d
  && bool_decide (NoDup (map (fun kv => py_hash kv.1) d)).

Lemma dict_find_store k k' key v d :
  py_hash key = Hashable k →
  dict_find k' (dict_store k key v d) = if decide (k' = k) then Some v else dict_find k' d.
Proof.
  intros Hkey. induction d as [|[key0 v0] d IH]; simpl; unfold key_matches in *.
  - rewrite Hkey. case_bool_decide; case_decide; congruence.
  - case_bool_decide as Hk0; simpl; unfold key_matches.
    + rewrite Hk0. repeat case_bool_decide; case_decide; congruence.
    + case_bool_decide as Hk'; [|apply IH].
      case_decide; congruence.
Qed.

Lemma dict_find_absent k d :
  Hashable k ∉ map (fun kv => py_hash kv.1) d → dict_find k d = None.
Proof.
  induction d as [|[key0 v0] d IH]; simpl; [done|].
  intros Hnot. apply not_elem_of_cons in Hnot as [Hne Hnot].
  unfold key_matches. rewrite bool_decide_false by (intros Heq; by rewrite Heq in Hne).
  by apply IH.
Qed.

(** The merged dictionary of [dict(left); update(right)]: every key of the
    right operand has the right operand's value, every other key keeps the
    value of the left operand. *)
Lemma dict_find_update k dl dr :
  dict_wf dr = true →
  dict_find k (dict_update dl dr) =
    match dict_find k dr with
    | Some v => Some v
    | None => dict_find k dl
    end.
Proof.
  unfold dict_wf, dict_update. rewrite andb_true_iff, bool_decide_eq_true.
  intros [Hhash Hnodup]. revert dl.
  induction dr as [|[key v] dr IH]; intros dl; simpl in *; [done|].
  apply andb_true_iff in Hhash as [Hkey Hhash].
  apply NoDup_cons in Hnodup as [Hfresh Hnodup].
  rewrite IH by done. unfold dict_setitem; simpl.
  destruct (py_hash key) as [k0| |] eqn:Hk0; try done.
  unfold key_matches. rewrite Hk0.
  destruct (decide (k = k0)) as [->|Hne].
  - rewrite bool_decide_true by done.
    rewrite dict_find_absent by done.
    rewrite dict_find_store by done. by rewrite decide_True.
  - rewrite bool_decide_false by (intros [=]; done).
    destruct (dict_find k dr); [done|].
    rewrite dict_find_store by done. by rewrite decide_False.
Qed.

Lemma to_string_str ex n s st : to_string ex (S n) (VStr s) st = Ok s st.
Proof. reflexivity. Qed.

Lemma execute_Ok_fuel fuel n env st v st' :
  execute fuel n env st = Ok v st' → ∃ fuel', fuel = S fuel'.
Proof. destruct fuel; [discriminate|]. by eexists. Qed.



(** ** Try, catch, finally *)

(** What a try form with the finally clause [fin] yields once its body and
    catch clause have produced [r]: the finally block is executed from the
    state [r] left; when it completes, [r] is the outcome of the try form, in
    the state after the block; when it raises, what it raises replaces
    [r]. *)
Definition then_finally (ex : node → Environment → M value) (fin : list node)
    (env : Environment) (r : result value) : result value :=
  match r with
  | Ok v st1 =>
      match exec_block ex fin env st1 with
      | Ok _ st2 => Ok v st2
      | Raise s st2 => Raise s st2
      | Abort a => Abort a
      end
  | Raise s st1 =>
      match exec_block ex fin env st1 with
      | Ok _ st2 => Raise s st2
      | Raise s' st2 => Raise s' st2
      | Abort a => Abort a
      end
  | Abort a => Abort a
  end.

Definition control_signal (s : signal) : Prop :=
  match s with
  | ReturnSignal _ | BreakSignal | ContinueSignal => True
  | _ => False
  end.

(** The claim of the specification about control signals, as it is worded:
    a return, break or continue raised by the body passes through the try
    form after the finally clause has run. *)
Definition control_signals_pass_through : Prop :=
  ∀ fuel try_body catch_var catch_body fin env st s st1,
    control_signal s →
    exec_block (execute fuel) try_body env st = Raise s st1 →
    ∃ st2,
      execute (S fuel) (TryCatchStatement try_body catch_var catch_body (Some fin)) env st
      = Raise s st2.

(** C4, the claim as stated fails: in [try { return 1 } finally { return 2 }]
    the return of the body does not pass through; the return raised by the
    finally clause leaves the try form in its place. *)
Lemma return_replaced_by_finally : ¬ control_signals_pass_through.
Proof.
  intros claim.
  destruct (claim 2 [ReturnStatement (Some (NumberLiteral (NInt 1)))] None None
              [ReturnStatement (Some (NumberLiteral (NInt 2)))] global_env
              (initial_state [] ∅) (ReturnSignal (VInt 1)) (initial_state [] ∅) I eq_refl)
    as [st2 H].
  vm_compute in H. discriminate H.
Qed.

Lemma exec_finally_block ex fin env (r : result value) :
  try_finally (fun _ => r)
    (if truthy_block (Some fin) then exec_block ex fin env ;;; ret tt else ret tt)
    (final_state r)
  = then_finally ex fin env r.
Proof.
  unfold try_finally, then_finally, bind, ret.
  destruct r as [v st1|s st1|a]; [| |done];
    (destruct fin as [|stmt fin]; simpl; [done|]);
    by destruct (exec_block ex (stmt :: fin) env st1).
Qed.

(** The try form with a finally clause: the body, the catch clause when the
    body raised a thrown value or a runtime error, then the finally
    clause. *)
Lemma exec_try_form fuel try_body catch_var catch_body fin env st :
  execute (S fuel) (TryCatchStatement try_body catch_var catch_body (Some fin)) env st
  = then_finally (execute fuel) fin env
      match exec_block (execute fuel) try_body env st with
      | Raise (VoltThrowError v) st1 =>
          run_catch (execute fuel) catch_var catch_body env v st1
      | Raise (VoltRuntimeError message) st1 =>
          run_catch (execute fuel) catch_var catch_body env
            (VStr (runtime_error_str message)) st1
      | r => r
      end.
Proof.
  rewrite execute_S. simpl. unfold exec_TryCatchStatement.
  rewrite <- exec_finally_block. unfold try_finally.
  by destruct (match exec_block _ _ _ _ with Ok _ _ => _ | _ => _ end).
Qed.

(** C4 (amended): for every try form with a finally clause, whatever the
    body does, the finally clause is executed exactly once, from the state
    left by the body (or by the catch clause when the body threw and there is
    one), and only then control leaves the try form.  A return, break or
    continue raised by the body is not given to the catch clause: the
    finally clause runs in the state the body left.  When the finally clause
    completes, the signal leaves the try form unchanged; when the finally
    clause itself returns, breaks, continues or throws, that signal leaves
    the try form instead.  This covers the five cases: the body completes,
    throws, returns, breaks, continues. *)
Theorem finally_runs_once fuel try_body catch_var catch_body fin env st :
  let ex := execute fuel in
  let try_form :=
    execute (S fuel) (TryCatchStatement try_body catch_var catch_body (Some fin)) env st in
  match exec_block ex try_body env st with
  | Ok v st1 => try_form = then_finally ex fin env (Ok v st1)
  | Raise (VoltThrowError v) st1 =>
      try_form = then_finally ex fin env (run_catch ex catch_var catch_body env v st1)
  | Raise (VoltRuntimeError message) st1 =>
      try_form = then_finally ex fin env
                   (run_catch ex catch_var catch_body env
                      (VStr (runtime_error_str message)) st1)
  | Raise s st1 => try_form = then_finally ex fin env (Raise s st1)
  | Abort a => try_form = Abort a
  end
  ∧ ∀ s st1 w st2,
      control_signal s →
      exec_block ex try_body env st = Raise s st1 →
      exec_block ex fin env st1 = Ok w st2 →
      try_form = Raise s st2.
Proof.
  intros ex try_form. subst try_form. rewrite exec_try_form. fold ex. split.
  - destruct (exec_block ex try_body env st) as [v st1|s st1|a]; [done| |done].
    by destruct s.
  - intros s st1 w st2 Hs Hbody Hfin. rewrite Hbody.
    destruct s; try done; simpl; by rewrite Hfin.
Qed.

Lemma finally_runs_once_witness :
  let fin := [ShowStatement (StringLiteral "done")] in
  ∃ st2,
    control_signal BreakSignal
    ∧ exec_block (execute 3) [BreakStatement] global_env (initial_state [] ∅)
      = Raise BreakSignal (initial_state [] ∅)
    ∧ exec_block (execute 3) fin global_env (initial_state [] ∅) = Ok VNull st2
    ∧ execute 4 (TryCatchStatement [BreakStatement] (Some "e")
                   (Some [ShowStatement (Identifier "e")]) (Some fin))
        global_env (initial_state [] ∅)
      = Raise BreakSignal st2.
Proof.
  intros fin. eexists. split; [exact I|]. split; [reflexivity|].
  split; [vm_compute; reflexivity|].
  exact (proj2 (finally_runs_once 3 [BreakStatement] (Some "e")
                  (Some [ShowStatement (Identifier "e")]) fin global_env
                  (initial_state [] ∅))
           BreakSignal (initial_state [] ∅) VNull _ I eq_refl eq_refl).
Defined.

(** A thrown value reaches the catch clause of the try form whose body
    raised it, and the clause binds exactly that value in a fresh child
    frame. *)
Lemma catch_binds_thrown_value fuel try_body x catch_body env st v st1 :
  exec_block (execute fuel) try_body env st = Raise (VoltThrowError v) st1 →
  truthy_name (Some x) && truthy_block (Some catch_body) = true →
  execute (S fuel) (TryCatchStatement try_body (Some x) (Some catch_body) None) env st
  = (catch_env <- new_env (Some env) ;;
     env_set catch_env x v ;;;
     exec_block (execute fuel) catch_body catch_env) st1.
Proof.
  intros Hbody Htruthy. rewrite execute_S. simpl.
  unfold exec_TryCatchStatement, try_finally. rewrite Hbody.
  unfold run_catch. rewrite Htruthy.
  by destruct ((_ <- new_env (Some env) ;; _) st1).
Qed.

(** A try form without a catch clause does not let a thrown value through:
    after the finally clause the try form completes with [null]. *)
Lemma try_finally_swallows_throw fuel try_body fin env st v st1 :
  exec_block (execute fuel) try_body env st = Raise (VoltThrowError v) st1 →
  execute (S fuel) (TryCatchStatement try_body None None (Some fin)) env st
  = then_finally (execute fuel) fin env (Ok VNull st1).
Proof.
  intros Hbody. by rewrite exec_try_form, Hbody.
Qed.

(** [try { try { throw 42 } finally { show "cleanup" } } catch e { show e }] *)
Definition nested_try_program : list node :=
  [TryCatchStatement
     [TryCatchStatement [ThrowStatement (NumberLiteral (NInt 42))] None None
        (Some [ShowStatement (StringLiteral "cleanup")])]
     (Some "e") (Some [ShowStatement (Identifier "e")]) None].

(** C1 fails on the code: a thrown value should pass through every
    enclosing try form up to the innermost one with a catch clause, whose
    clause binds it.  In [nested_try_program] the inner try form has only a
    finally clause; it does not pass the thrown 42 through but ends
    normally, so the catch clause of the outer form never runs: the program
    prints [cleanup] and nothing else, and completes. *)
Theorem throw_lost_in_try_finally :
  ∃ st, run 10 nested_try_program [] ∅ = Ok VNull st
        ∧ stdout st = [line "cleanup"].
Proof. eexists. split; vm_compute; reflexivity. Qed.

(** ** Input coercion of [ask] *)

Definition has_dot (user_input : string) : bool :=
  existsb (Ascii.eqb ".") (chars user_input).

(** What [ask] binds when the line is not taken as a number. *)
Definition ask_text_value (user_input : string) : value :=
  if str_lower user_input =s? "true" then VBool true
  else if str_lower user_input =s? "false" then VBool false
  else VStr user_input.

(** The coercion as the specification words it: an integer if the line
    parses as one, else a float if it parses as one, else a boolean, else
    the line. *)
Definition ask_value_spec (user_input : string) : value :=
  match py_int user_input with
  | Some z => VInt z
  | None =>
      match py_float user_input with
      | Some f => VFloat f
      | None => ask_text_value user_input
      end
  end.

Definition ask_coercion_as_specified : Prop :=
  ∀ user_input, ask_value user_input = ask_value_spec user_input.


Definition digit_or_underscore (c : ascii) : Prop :=
  is_digit c = true ∨ c = "_"%char.

Lemma digits_tail_consumed len :
  ∀ l acc n z m,
    length l ≤ len →
    digits_tail acc n l = (z, m, []) →
    Forall digit_or_underscore l.
Proof.
  induction len as [|len IH]; intros l acc n z m Hlen Htail.
  - destruct l; [constructor|simpl in Hlen; lia].
  - destruct l as [|c r]; [constructor|]. simpl in Hlen, Htail.
    destruct (is_digit c) eqn:Hc.
    + constructor; [by left|]. eapply IH; [lia|done].
    + destruct (Ascii.eqb c "_") eqn:Hu; [|discriminate].
      apply Ascii.eqb_eq in Hu as ->.
      destruct r as [|d r']; [discriminate|].
      destruct (is_digit d) eqn:Hd; [|discriminate].
      constructor; [by right|]. constructor; [by left|].
      eapply IH; [simpl in Hlen; lia|done].
Qed.

Lemma digitpart_consumed acc l z n :
  digitpart acc l = Some (z, n, []) → Forall digit_or_underscore l.
Proof.
  destruct l as [|c r]; [constructor|]. simpl.
  destruct (is_digit c) eqn:Hc; [|discriminate].
  intros [= Htail]. constructor; [by left|].
  by eapply digits_tail_consumed.
Qed.

Lemma elem_of_lstrip c l : c ∈ l → is_space c = false → c ∈ lstrip l.
Proof.
  intros Hin Hc. induction l as [|d r IH]; [done|]. simpl.
  destruct (is_space d) eqn:Hd; [|done].
  apply elem_of_cons in Hin as [->|Hin]; [congruence|by apply IH].
Qed.

Lemma elem_of_rev (c : ascii) l : c ∈ l → c ∈ rev l.
Proof. rewrite !list_elem_of_In. apply in_rev. Qed.

Lemma elem_of_strip c l : c ∈ l → is_space c = false → c ∈ strip l.
Proof.
  intros Hin Hc. unfold strip.
  apply elem_of_rev, elem_of_lstrip; [|done].
  apply elem_of_rev, elem_of_lstrip; done.
Qed.

(** A line that [int] accepts has no dot in it. *)
Lemma py_int_no_dot s z : py_int s = Some z → has_dot s = false.
Proof.
  unfold py_int, has_dot. intros Hint.
  destruct (existsb (Ascii.eqb ".") (chars s)) eqn:Hdot; [exfalso|done].
  apply existsb_exists in Hdot as (c & Hin & Hc).
  apply Ascii.eqb_eq in Hc as <-.
  apply list_elem_of_In in Hin.
  assert (Hstrip : "."%char ∈ strip (chars s)) by (by apply elem_of_strip).
  clear Hin.
  destruct (split_sign (strip (chars s))) as [neg l] eqn:Hsign.
  assert (Hl : "."%char ∈ l).
  { unfold split_sign in Hsign. destruct (strip (chars s)) as [|c r]; [by inversion Hstrip|].
    destruct (Ascii.eqb c "-") eqn:Hminus;
      [apply Ascii.eqb_eq in Hminus as ->; injection Hsign as <- <-;
       apply elem_of_cons in Hstrip as [?|?]; [discriminate|done]|].
    destruct (Ascii.eqb c "+") eqn:Hplus;
      [apply Ascii.eqb_eq in Hplus as ->; injection Hsign as <- <-;
       apply elem_of_cons in Hstrip as [?|?]; [discriminate|done]|].
    by injection Hsign as <- <-. }
  destruct (digitpart 0 l) as [[[z' n] rest]|] eqn:Hdigits; [|discriminate].
  destruct rest; [|discriminate].
  apply digitpart_consumed in Hdigits.
  rewrite Forall_forall in Hdigits. apply Hdigits in Hl as [Hd|Hu]; discriminate.
Qed.



(** ** Default arguments *)

(** The module file [m.volt]: [set y = 5] and [func f(x = y) { return x }]. *)
Definition module_source : list node :=
  [Assignment (Identifier "y") (NumberLiteral (NInt 5));
   FuncDeclaration "f" [("x", Some (Identifier "y"))]
     [ReturnStatement (Some (Identifier "x"))]].

(** The main program: [use "m"] and [set y = 7]. *)
Definition module_user_program : list node :=
  [UseStatement "m"; Assignment (Identifier "y") (NumberLiteral (NInt 7))].

Definition module_user_state : state :=
  final_state (run 10 module_user_program [] {[ "m.volt" := module_source ]}).

(** The claim of the specification at a call of a module's function: the
    function is called as any other, with the environment of the call as
    the caller's environment, in which missing arguments with a default are
    evaluated. *)
Definition module_call_defaults_in_callers_environment : Prop :=
  ∀ fuel obj name args env st l st1 vs st2 m fn module_env,
    execute fuel obj env st = Ok (VModule l) st1 →
    exec_args (execute fuel) args env st1 = Ok vs st2 →
    modules st2 !! l = Some m →
    mod_methods m !! name = Some (fn, module_env) →
    execute (S fuel) (MethodCall obj name args) env st
    = call_function (execute fuel) fn vs env st2.


Lemma bind_params_from_step ex i fname p dflt rest args fe ce :
  bind_params_from ex i fname ((p, dflt) :: rest) args fe ce
  = (match args !! i with
     | Some a => env_set fe p a
     | None =>
         match dflt with
         | Some d => v <- ex d ce ;; env_set fe p v
         | None =>
             runtime_error ("Missing argument '" +:+ p +:+ "' in call to " +:+
                            fname +:+ "()")
         end
     end ;;; bind_params_from ex (S i) fname rest args fe ce).
Proof. reflexivity. Qed.


(** The state after [func f(x = 10) { return x + 1 }]. *)
Definition default_program : list node :=
  [FuncDeclaration "f" [("x", Some (NumberLiteral (NInt 10)))]
     [ReturnStatement (Some (BinaryOp "+" (Identifier "x") (NumberLiteral (NInt 1))))]].

Definition default_state : state := final_state (run 5 default_program [] ∅).


(** ** String literals in the lexer *)

(** What stands between the quotes of a string literal: characters that
    stand for themselves, and escapes (a backslash and the character after
    it). *)
Inductive literal_item :=
| Plain (c : ascii)
| Escaped (c : ascii).

(** The source text of an item. *)
Definition item_source (i : literal_item) : list ascii :=
  match i with
  | Plain c => [c]
  | Escaped c => [Lexer.backslash; c]
  end.

(** The value of an escape as the specification lists it: [n], [t], the
    backslash, the two quotes, the two braces and [0] give one character,
    any other character is kept with the backslash before it. *)
Definition escape_value (c : ascii) : list ascii :=
  if Ascii.eqb c "n" then [Lexer.newline]
  else if Ascii.eqb c "t" then [Lexer.tab]
  else if Ascii.eqb c Lexer.backslash then [Lexer.backslash]
  else if Ascii.eqb c dquote then [dquote]
  else if Ascii.eqb c Lexer.squote then [Lexer.squote]
  else if Ascii.eqb c Lexer.lbrace then [Lexer.lbrace]
  else if Ascii.eqb c Lexer.rbrace then [Lexer.rbrace]
  else if Ascii.eqb c "0" then [Lexer.NUL]
  else [Lexer.backslash; c].

Definition item_value (i : literal_item) : list ascii :=
  match i with
  | Plain c => [c]
  | Escaped c => escape_value c
  end.

(** A character that stands for itself inside a literal delimited by
    [quote_char]: not the quote, not a backslash, not a newline, and in an
    interpolated string not an opening brace. *)
Definition plain_char (quote_char : ascii) (interpolate : bool) (c : ascii) : Prop :=
  c ≠ quote_char ∧ c ≠ Lexer.backslash ∧ c ≠ Lexer.newline
  ∧ (interpolate = true → c ≠ Lexer.lbrace).

Definition item_ok (quote_char : ascii) (interpolate : bool) (i : literal_item) : Prop :=
  match i with
  | Plain c => plain_char quote_char interpolate c
  | Escaped _ => True
  end.

Lemma escape_get_value c : Lexer.escape_get c = escape_value c.
Proof.
  unfold Lexer.escape_get, escape_value, Lexer.escape_map; simpl.
  repeat (destruct (Ascii.eqb c _); [reflexivity|]). reflexivity.
Qed.

Lemma lexer_at_end_middle pre c rest line column :
  Lexer.at_end (Lexer.mk (pre ++ c :: rest) (length pre) line column) = false.
Proof.
  unfold Lexer.at_end; simpl. apply Nat.leb_gt.
  rewrite length_app; simpl. lia.
Qed.

Lemma lexer_peek_middle pre c rest line column :
  Lexer.peek (Lexer.mk (pre ++ c :: rest) (length pre) line column) = c.
Proof. unfold Lexer.peek; simpl. by rewrite list_lookup_middle. Qed.

Lemma lexer_advance_middle pre c rest line column :
  ∃ line' column',
    Lexer.advance (Lexer.mk (pre ++ c :: rest) (length pre) line column)
    = Some (c, Lexer.mk ((pre ++ [c]) ++ rest) (length (pre ++ [c])) line' column').
Proof.
  unfold Lexer.advance; simpl. rewrite list_lookup_middle by done.
  rewrite <- app_assoc, length_app, Nat.add_1_r; simpl.
  destruct (Ascii.eqb c Lexer.newline); eauto.
Qed.

(** The loop of [read_string] over the items of a literal without
    interpolation, up to and including the closing quote. *)
Lemma read_string_loop_items quote_char interpolate after items :
  quote_char ≠ Lexer.backslash →
  Forall (item_ok quote_char interpolate) items →
  ∀ pre current_text line column fuel,
    length (flat_map item_source items) < fuel →
    ∃ line' column',
      Lexer.read_string_loop fuel quote_char interpolate [] current_text false
        (Lexer.mk (pre ++ flat_map item_source items ++ quote_char :: after)
           (length pre) line column)
      = Lexer.Done (Lexer.PlainString (current_text ++ flat_map item_value items))
          (Lexer.mk (pre ++ flat_map item_source items ++ quote_char :: after)
             (length pre + length (flat_map item_source items) + 1) line' column').
Proof.
  intros Hquote Hitems.
  induction Hitems as [|item items Hitem _ IH];
    intros pre current_text line column fuel Hfuel;
    (destruct fuel as [|fuel]; [simpl in Hfuel; lia|]).
  - simpl. rewrite lexer_at_end_middle, lexer_peek_middle, Ascii.eqb_refl. simpl.
    destruct (lexer_advance_middle pre quote_char after line column)
      as (line' & column' & ->).
    rewrite app_nil_r, <- app_assoc, length_app, Nat.add_0_r. simpl. eauto.
  - destruct item as [c|c]; simpl in Hfuel |- *.
    + destruct Hitem as (Hq & Hb & Hn & Hl).
      rewrite lexer_at_end_middle, lexer_peek_middle.
      apply Ascii.eqb_neq in Hq as ->. apply Ascii.eqb_neq in Hb as ->.
      apply Ascii.eqb_neq in Hn as ->. simpl.
      replace (Ascii.eqb c Lexer.lbrace && interpolate) with false
        by (destruct interpolate; [|by rewrite andb_false_r];
            symmetry; rewrite andb_true_r; by apply Ascii.eqb_neq, Hl).
      destruct (lexer_advance_middle pre c
                  (flat_map item_source items ++ quote_char :: after) line column)
        as (line1 & column1 & ->).
      destruct (IH (pre ++ [c]) (current_text ++ [c]) line1 column1 fuel)
        as (line' & column' & ->); [lia|].
      rewrite <- !app_assoc, length_app. simpl.
      exists line', column'. do 2 f_equal. lia.
    + rewrite lexer_at_end_middle, lexer_peek_middle.
      assert (Ascii.eqb Lexer.backslash quote_char = false) as ->
        by (apply Ascii.eqb_neq; congruence).
      rewrite Ascii.eqb_refl. simpl.
      destruct (lexer_advance_middle pre Lexer.backslash
                  (c :: flat_map item_source items ++ quote_char :: after) line column)
        as (line1 & column1 & ->).
      rewrite lexer_at_end_middle.
      destruct (lexer_advance_middle (pre ++ [Lexer.backslash]) c
                  (flat_map item_source items ++ quote_char :: after) line1 column1)
        as (line2 & column2 & ->).
      rewrite escape_get_value.
      destruct (IH ((pre ++ [Lexer.backslash]) ++ [c]) (current_text ++ escape_value c)
                  line2 column2 fuel) as (line' & column' & ->); [lia|].
      rewrite <- !app_assoc, !length_app. simpl.
      exists line', column'. do 2 f_equal. lia.
Qed.

(** C9: a string literal is an opening quote, items and the same quote
    closing it, where an item is a character standing for itself or a
    backslash followed by any character.  Scanning the literal yields the
    string in which every escape among [n], [t], backslash, double quote,
    single quote, opening brace, closing brace and [0] is replaced by the
    single character it names, every other escape is kept as the backslash
    and the character, and every other character is itself; the cursor ends
    just after the closing quote. *)
Theorem read_string_replaces_escapes quote_char interpolate before items after
    line column :
  quote_char = dquote ∨ quote_char = Lexer.squote →
  Forall (item_ok quote_char interpolate) items →
  let body := flat_map item_source items in
  let source := before ++ quote_char :: body ++ quote_char :: after in
  ∃ line' column',
    Lexer.read_string quote_char interpolate
      (Lexer.mk source (length before) line column)
    = Lexer.Done (Lexer.PlainString (flat_map item_value items))
        (Lexer.mk source (length before + length body + 2) line' column').
Proof.
  intros Hquote Hitems body source. subst body source. unfold Lexer.read_string.
  destruct (lexer_advance_middle before quote_char
              (flat_map item_source items ++ quote_char :: after) line column)
    as (line1 & column1 & ->).
  simpl Lexer.source.
  destruct (read_string_loop_items quote_char interpolate after items) with
    (pre := before ++ [quote_char]) (current_text := @nil ascii)
    (line := line1) (column := column1)
    (fuel := S (length (before ++ quote_char ::
                        flat_map item_source items ++ quote_char :: after)))
    as (line' & column' & ->); [by destruct Hquote as [-> | ->]|done| |].
  - rewrite !length_app. simpl. rewrite length_app. lia.
  - rewrite <- !app_assoc, !length_app. simpl.
    exists line', column'. do 2 f_equal. lia.
Qed.

Lemma read_string_replaces_escapes_witness :
  let items := [Plain "a"; Escaped "n"; Escaped "q"; Escaped dquote; Plain "{"]%char in
  (dquote = dquote ∨ dquote = Lexer.squote)
  ∧ Forall (item_ok dquote false) items
  ∧ ∃ line' column',
      Lexer.read_string dquote false
        (Lexer.mk ([dquote; "a"; Lexer.backslash; "n"; Lexer.backslash; "q";
                    Lexer.backslash; dquote; "{"; dquote; " "]%char) 0 1 1)
      = Lexer.Done
          (Lexer.PlainString ["a"; Lexer.newline; Lexer.backslash; "q"; dquote; "{"]%char)
          (Lexer.mk ([dquote; "a"; Lexer.backslash; "n"; Lexer.backslash; "q";
                      Lexer.backslash; dquote; "{"; dquote; " "]%char) 10 line' column').
Proof.
  intros items.
  assert (Hitems : Forall (item_ok dquote false) items).
  { repeat constructor; try (intros H; vm_compute in H; discriminate H). }
  split; [by left|]. split; [exact Hitems|].
  exact (read_string_replaces_escapes dquote false [] items [" "%char] 1 1
           (or_introl eq_refl) Hitems).
Defined.

(** ** List methods and the receiver *)

(** [keeps_lists m]: whatever [m] does, every list that exists when it
    starts has the same elements when it ends. *)
Definition keeps_lists {A} (m : M A) : Prop :=
  ∀ st,
    match m st with
    | Ok _ st' | Raise _ st' => ∀ l xs, lists st !! l = Some xs → lists st' !! l = Some xs
    | Abort _ => True
    end.

(** The names under which the list method table modifies the receiver. *)
Definition mutating_methods : list string :=
  ["push"; "append"; "pop"; "shift"; "unshift"; "insert"; "remove"; "fill"; "clear"].

(** The eight names that the specification lists. *)
Definition listed_mutating_methods : list string :=
  ["push"; "pop"; "shift"; "unshift"; "insert"; "remove"; "fill"; "clear"].

Lemma keeps_ret {A} (a : A) : keeps_lists (ret a).
Proof. intros st; simpl; auto. Qed.

Lemma keeps_raise {A} s : keeps_lists (@raise A s).
Proof. intros st; simpl; auto. Qed.

Lemma keeps_runtime_error {A} message : keeps_lists (@runtime_error A message).
Proof. intros st; simpl; auto. Qed.

Lemma keeps_abort {A} a : keeps_lists (@abort_with A a).
Proof. intros st; simpl; auto. Qed.

Lemma keeps_gets {A} (f : state → A) : keeps_lists (gets f).
Proof. intros st; simpl; auto. Qed.

Lemma keeps_lift_host {A} (r : host_error + A) : keeps_lists (lift_host r).
Proof. destruct r; intros st; simpl; auto. Qed.

Lemma keeps_lift_abort {A} (r : abort + A) : keeps_lists (lift_abort r).
Proof. destruct r; intros st; simpl; auto. Qed.

Lemma keeps_lift_abort_state {A} (f : state → abort + A) :
  keeps_lists (fun st => lift_abort (f st) st).
Proof. intros st. destruct (f st); simpl; auto. Qed.

Lemma keeps_bind {A B} (m : M A) (k : A → M B) :
  keeps_lists m → (∀ a, keeps_lists (k a)) → keeps_lists (bind m k).
Proof.
  intros Hm Hk st. unfold bind. specialize (Hm st).
  destruct (m st) as [a st1|s st1|r]; [|done|done].
  specialize (Hk a st1). destruct (k a st1); [| |done]; intros l xs Hl; auto.
Qed.

Lemma keeps_modify (f : state → state) :
  (∀ st, lists (f st) = lists st) → keeps_lists (modify f).
Proof. intros Hf st. simpl. intros l xs. by rewrite Hf. Qed.

Lemma keeps_env_set e x v : keeps_lists (env_set e x v).
Proof. by apply keeps_modify. Qed.

Lemma keeps_new_env p : keeps_lists (new_env p).
Proof. intros st; simpl; auto. Qed.

Lemma keeps_new_list xs : keeps_lists (new_list xs).
Proof. intros st. simpl. intros l ys Hl. by apply lookup_app_l_Some. Qed.

Lemma keeps_read_list l : keeps_lists (read_list l).
Proof. intros st; simpl; auto. Qed.

Lemma keeps_catch_return (m : M value) : keeps_lists m → keeps_lists (catch_return m).
Proof.
  intros Hm st. unfold catch_return. specialize (Hm st).
  destruct (m st) as [a st1|s st1|r]; [done| |done]. by destruct s.
Qed.

Lemma keeps_iterate_list {A} n l (body : nat → value → A → M (step A)) :
  (∀ i x acc, keeps_lists (body i x acc)) →
  ∀ i acc, keeps_lists (iterate_list n l i acc body).
Proof.
  intros Hbody. induction n as [|n IH]; intros i acc; simpl.
  - apply keeps_abort.
  - apply keeps_bind; [apply keeps_gets|]. intros xs.
    destruct (xs !! i); [|apply keeps_ret].
    apply keeps_bind; [apply Hbody|]. intros [a|a]; [apply IH|apply keeps_ret].
Qed.

Lemma keeps_iterate_dict {A} n l keys (body : value → value → A → M (step A)) :
  (∀ k x acc, keeps_lists (body k x acc)) →
  ∀ i acc, keeps_lists (iterate_dict n l keys i acc body).
Proof.
  intros Hbody. induction n as [|n IH]; intros i acc; simpl.
  - apply keeps_abort.
  - apply keeps_bind; [apply keeps_gets|]. intros d.
    destruct (negb _); [apply keeps_raise|].
    destruct (negb _); [apply keeps_abort|].
    destruct (d !! i) as [[k v]|]; [|apply keeps_ret].
    apply keeps_bind; [apply Hbody|]. intros [a|a]; [apply IH|apply keeps_ret].
Qed.

Section UserCodeKeepsLists.
Variable ex : node → Environment → M value.
Hypothesis ex_keeps : ∀ n env, keeps_lists (ex n env).

Lemma keeps_exec_block_from result statements env :
  keeps_lists (exec_block_from ex result statements env).
Proof.
  revert result. induction statements as [|stmt rest IH]; intros result; simpl.
  - apply keeps_ret.
  - apply keeps_bind; [apply ex_keeps|]. intros v. apply IH.
Qed.

Lemma keeps_exec_block statements env : keeps_lists (exec_block ex statements env).
Proof. apply keeps_exec_block_from. Qed.

Lemma keeps_to_string n : ∀ v, keeps_lists (to_string ex n v).
Proof.
  induction n as [|n IH]; intros v; [apply keeps_abort|].
  destruct v; simpl; try apply keeps_ret.
  - apply keeps_bind; [apply keeps_lift_host|]. intros z.
    destruct (float_eq_Z f z); [apply keeps_ret|apply keeps_abort].
  - apply keeps_bind; [|intros; apply keeps_ret].
    apply keeps_iterate_list. intros i x acc.
    apply keeps_bind; [apply IH|]. intros s. apply keeps_ret.
  - apply keeps_bind; [apply keeps_gets|]. intros keys.
    apply keeps_bind; [|intros; apply keeps_ret].
    apply keeps_iterate_dict. intros k x acc.
    apply keeps_bind; [apply IH|]. intros sk.
    apply keeps_bind; [apply IH|]. intros sx. apply keeps_ret.
  - destruct (find_method (klass i) "toString") as [to_str|]; [|apply keeps_ret].
    apply keeps_bind; [apply keeps_new_env|]. intros method_env.
    apply keeps_bind; [apply keeps_env_set|]. intros _.
    apply keeps_bind; [apply keeps_env_set|]. intros _.
    intros st. pose proof (keeps_exec_block (fn_body to_str) method_env st) as Hbody.
    destruct (exec_block ex (fn_body to_str) method_env st) as [w st1|s st1|a];
      [done| |done].
    destruct s; try done.
    pose proof (IH value0 st1) as Hstr.
    destruct (to_string ex n value0 st1); [| |done]; intros l' xs Hl; auto.
  - intros st. destruct (modules st !! l); simpl; auto.
Qed.

Lemma keeps_bind_params_from i fname params args fe ce :
  keeps_lists (bind_params_from ex i fname params args fe ce).
Proof.
  revert i. induction params as [|[p dflt] rest IH]; intros i; simpl.
  - apply keeps_ret.
  - apply keeps_bind; [|intros; apply IH].
    destruct (args !! i); [apply keeps_env_set|].
    destruct dflt; [|apply keeps_runtime_error].
    apply keeps_bind; [apply ex_keeps|]. intros v. apply keeps_env_set.
Qed.

Lemma keeps_call_volt_function fn args env :
  keeps_lists (call_volt_function ex fn args env).
Proof.
  destruct fn; simpl; try apply keeps_runtime_error.
  unfold call_function.
  apply keeps_bind; [apply keeps_new_env|]. intros func_env.
  apply keeps_bind; [apply keeps_bind_params_from|]. intros _.
  apply keeps_catch_return, keeps_exec_block.
Qed.

Lemma keeps_reduce_range l fn env range :
  ∀ acc, keeps_lists (reduce_range ex l fn env acc range).
Proof.
  induction range as [|i rest IH]; intros acc; simpl.
  - apply keeps_ret.
  - apply keeps_bind; [apply keeps_read_list|]. intros xs.
    destruct (xs !! i); [|apply keeps_raise].
    apply keeps_bind; [apply keeps_call_volt_function|]. intros acc'. apply IH.
Qed.

End UserCodeKeepsLists.

Lemma keeps_new_pairs ps : keeps_lists (new_pairs ps).
Proof.
  induction ps as [|[a b] rest IH]; simpl.
  - apply keeps_ret.
  - apply keeps_bind; [apply keeps_new_list|]. intros p.
    apply keeps_bind; [apply IH|]. intros r. apply keeps_ret.
Qed.

Lemma keeps_first_arg args message : keeps_lists (first_arg args message).
Proof. destruct args; [apply keeps_runtime_error|apply keeps_ret]. Qed.

Lemma mutating_test_false method name :
  method ∉ mutating_methods → name ∈ mutating_methods → (method =s? name) = false.
Proof.
  intros Hnot Hin. unfold str_eqb. apply String.eqb_neq. by intros ->.
Qed.

Ltac keeps_step :=
  first
    [ apply keeps_ret | apply keeps_raise | apply keeps_runtime_error
    | apply keeps_abort | apply keeps_gets | apply keeps_read_list
    | apply keeps_lift_host | apply keeps_lift_abort | apply keeps_lift_abort_state
    | apply keeps_new_list | apply keeps_new_pairs | apply keeps_first_arg
    | apply keeps_to_string; assumption
    | apply keeps_call_volt_function; assumption
    | apply keeps_reduce_range; assumption
    | apply keeps_iterate_list; intros
    | apply keeps_bind; [|intros]
    | match goal with
      | |- keeps_lists (match ?x with _ => _ end) => destruct x
      end ].

(** A list method other than the mutating ones leaves every existing list
    as it was, as long as the user code it calls does. *)
Lemma keeps_call_list_method ex depth lst method args env :
  (∀ n e, keeps_lists (ex n e)) →
  method ∉ mutating_methods →
  keeps_lists (call_list_method ex depth lst method args env).
Proof.
  intros Hex Hmethod. unfold call_list_method.
  pose proof (fun name => mutating_test_false method name Hmethod) as Hfalse.
  rewrite (Hfalse "push"), (Hfalse "append"), (Hfalse "pop"), (Hfalse "shift"),
    (Hfalse "unshift"), (Hfalse "insert"), (Hfalse "remove"), (Hfalse "fill"),
    (Hfalse "clear") by compute_done.
  clear Hfalse. simpl.
  repeat
    match goal with
    | |- keeps_lists (if ?a || ?b then _ else _) =>
        destruct (a || b); [solve [repeat keeps_step]|]
    | |- keeps_lists (if ?a then _ else _) =>
        destruct a; [solve [repeat keeps_step]|]
    end.
  apply keeps_runtime_error.
Qed.

(** The claim of the specification about the other methods, as it is
    worded: a method that is not one of the eight listed names does not
    modify the receiver (nor any other existing list), as long as the user
    code it calls does not. *)
Definition only_listed_methods_modify : Prop :=
  ∀ ex depth lst method args env,
    (∀ n e, keeps_lists (ex n e)) →
    method ∉ listed_mutating_methods →
    keeps_lists (call_list_method ex depth lst method args env).

(** The state after [set a = [1]]. *)
Definition one_list_state : state :=
  final_state (run 5 [Assignment (Identifier "a") (ListLiteral [NumberLiteral (NInt 1)])]
                 [] ∅).




(** * Further properties of the evaluator and of the lexer *)

(** ** Equations of the evaluation monad *)

Lemma bind_ret {A B} (a : A) (k : A → M B) st : bind (ret a) k st = k a st.
Proof. reflexivity. Qed.

Lemma bind_gets {A B} (f : state → A) (k : A → M B) st :
  bind (gets f) k st = k (f st) st.
Proof. reflexivity. Qed.

Lemma bind_read_list {B} l (k : list value → M B) st :
  bind (read_list l) k st = k (get_list st l) st.
Proof. reflexivity. Qed.

Lemma bind_modify {B} f (k : unit → M B) st : bind (modify f) k st = k tt (f st).
Proof. reflexivity. Qed.

Lemma bind_Ok {A B} (m : M A) (k : A → M B) st a st' :
  m st = Ok a st' → bind m k st = k a st'.
Proof. unfold bind. by intros ->. Qed.

Lemma bind_Raise {A B} (m : M A) (k : A → M B) st s st' :
  m st = Raise s st' → bind m k st = Raise s st'.
Proof. unfold bind. by intros ->. Qed.

Lemma bind_raise {A B} s (k : A → M B) st : bind (raise s) k st = Raise s st.
Proof. reflexivity. Qed.

(** ** Environments: [has], [get], [update] and fresh frames *)

(** [Environment.has], [Environment.get] and [Environment.update] walk the
    same chain and agree: when [has] answers true, [get] returns a value
    without changing anything and [update] succeeds; when [has] answers
    false, [get] raises the runtime error [Undefined variable: 'x'] and
    [update] reports failure. *)
Theorem has_agrees_with_get_and_update st e x v :
  if env_has st e x
  then (∃ w, env_get e x st = Ok w st) ∧ is_Some (env_update st e x v)
  else env_get e x st
       = Raise (VoltRuntimeError ("Undefined variable: '" +:+ x +:+ "'")) st
       ∧ env_update st e x v = None.
Proof.
  unfold env_get.
  induction e as [l | l p IH] using Environment_chain_ind; simpl;
    destruct (frame_vars st l !! x) as [w|]; eauto.
Qed.

(** A write to a frame that is not on the chain of [e] changes nothing of
    what [e] resolves. *)
Lemma env_lookup_off_chain st e l m y :
  l ∉ frame_chain e →
  env_lookup (set_frames (fun fs => <[l := m]> fs) st) e y = env_lookup st e y.
Proof.
  induction e as [l0 | l0 p IH] using Environment_chain_ind; simpl; intros Hl.
  - apply not_elem_of_cons in Hl as [Hne _].
    by rewrite frame_vars_set_frames_insert_ne.
  - apply not_elem_of_cons in Hl as [Hne Hl].
    rewrite frame_vars_set_frames_insert_ne by done. by rewrite IH.
Qed.

Lemma env_lookup_new_frame st e y :
  env_lookup (set_frames (fun fs => fs ++ [∅]) st) e y = env_lookup st e y.
Proof.
  assert (Hvars : ∀ l, frame_vars (set_frames (fun fs => fs ++ [∅]) st) l = frame_vars st l).
  { intros l. unfold frame_vars, set_frames; simpl.
    destruct (decide (l < length (frames st))) as [Hlt|Hge].
    - by rewrite lookup_app_l.
    - rewrite lookup_app_r by lia. rewrite (lookup_ge_None_2 (frames st)) by lia.
      by destruct (l - length (frames st)) as [|[|?]]. }
  induction e as [l0 | l0 p IH] using Environment_chain_ind; simpl;
    rewrite Hvars; [done|by rewrite IH].
Qed.

(** The frames of an environment exist in the state. *)
Definition allocated (st : state) (e : Environment) : Prop :=
  Forall (fun l => l < length (frames st)) (frame_chain e).

Lemma new_frame_binding st e p x v y fe st1 st2 :
  allocated st e →
  new_env p st = Ok fe st1 →
  env_set fe x v st1 = Ok tt st2 →
  env_lookup st2 fe x = Some v
  ∧ parent fe = p
  ∧ env_lookup st2 e y = env_lookup st e y.
Proof.
  unfold new_env, env_set, modify. intros Halloc [= <- <-] [= <-]. simpl.
  unfold allocated in Halloc. rewrite Forall_forall in Halloc.
  split; [|split; [done|]].
  - unfold frame_vars; simpl. unfold loc. rewrite list_lookup_insert_eq
      by (rewrite length_app; simpl; lia).
    simpl. by rewrite lookup_insert_eq.
  - etransitivity; [|apply env_lookup_new_frame].
    apply (env_lookup_off_chain (set_frames (fun fs => fs ++ [∅]) st)).
    intros Hin. apply Halloc in Hin. lia.
Qed.

(** A binding made in a newly created frame (the parameters and locals of
    a call, the variable of a catch clause) is found from that frame and is
    invisible from every environment that existed before: what such an
    environment resolves, for any name, is what it resolved before. *)
Theorem fresh_frame_bindings_stay_local st e p x v y fe st1 st2 :
  allocated st e →
  new_env p st = Ok fe st1 →
  env_set fe x v st1 = Ok tt st2 →
  env_lookup st2 fe x = Some v
  ∧ env_lookup st2 e y = env_lookup st e y.
Proof.
  intros Halloc Hnew Hset.
  destruct (new_frame_binding st e p x v y fe st1 st2 Halloc Hnew Hset) as (? & _ & ?).
  done.
Qed.

Lemma fresh_frame_bindings_stay_local_witness :
  let st := initial_state [] ∅ in
  allocated st global_env
  ∧ ∃ fe st1 st2,
      new_env (Some global_env) st = Ok fe st1
      ∧ env_set fe "x" (VInt 1) st1 = Ok tt st2
      ∧ env_lookup st2 fe "x" = Some (VInt 1)
      ∧ env_lookup st2 global_env "x" = None.
Proof.
  intros st.
  assert (Halloc : allocated st global_env) by (repeat constructor).
  split; [exact Halloc|].
  eexists _, _, _. split; [reflexivity|]. split; [reflexivity|].
  exact (fresh_frame_bindings_stay_local st global_env (Some global_env) "x" (VInt 1) "x"
           _ _ _ Halloc eq_refl eq_refl).
Defined.

(** ** Errors at a try form *)



(** An exception of the host (a [TypeError] from [1 - "a"], the
    [ValueError] of [remove] on a value that is not in the list, an
    [IndexError], ...) is not a runtime error of the evaluator: no catch
    clause receives it.  It leaves the try form as it is, after the finally
    clause, if there is one, has run. *)
Theorem host_error_escapes_catch fuel try_body catch_var catch_body env st kind text st1 :
  exec_block (execute fuel) try_body env st = Raise (HostError kind text) st1 →
  execute (S fuel) (TryCatchStatement try_body catch_var catch_body None) env st
  = Raise (HostError kind text) st1
  ∧ ∀ fin,
      execute (S fuel) (TryCatchStatement try_body catch_var catch_body (Some fin)) env st
      = match exec_block (execute fuel) fin env st1 with
        | Ok _ st2 => Raise (HostError kind text) st2
        | r => r
        end.
Proof.
  intros Hbody. split.
  - rewrite execute_S. simpl. unfold exec_TryCatchStatement, try_finally.
    by rewrite Hbody.
  - intros fin. rewrite exec_try_form, Hbody. simpl.
    by destruct (exec_block (execute fuel) fin env st1).
Qed.

(** [try { show 1 - "a" } catch e { show "caught" }] *)
Lemma host_error_escapes_catch_witness :
  let st := initial_state [] ∅ in
  let body := [ShowStatement (BinaryOp "-" (NumberLiteral (NInt 1)) (StringLiteral "a"))] in
  exec_block (execute 4) body global_env st = Raise (HostError TypeError "") st
  ∧ execute 5 (TryCatchStatement body (Some "e")
                 (Some [ShowStatement (StringLiteral "caught")]) None) global_env st
    = Raise (HostError TypeError "") st.
Proof.
  intros st body. split; [reflexivity|].
  exact (proj1 (host_error_escapes_catch 4 body (Some "e")
                  (Some [ShowStatement (StringLiteral "caught")]) global_env st
                  TypeError "" st eq_refl)).
Defined.

(** ** Division by zero, and instance properties *)

Lemma equals_zero_spec v :
  equals_zero v = true
  ↔ v = VInt 0 ∨ v = VBool false ∨ ∃ s, v = VFloat (S754_zero s).
Proof.
  split.
  - unfold equals_zero, num_eqb. destruct v as [|b|z|f| | | | | | |]; simpl; try done.
    + destruct b; [done|]. intros _. right. by left.
    + destruct (Z.compare_spec z 0); try done. subst. by left.
    + destruct f as [s| | |s m e]; simpl; try done.
      * intros _. right. right. by exists s.
      * by destruct s.
      * destruct (0 <=? e)%Z eqn:He.
        -- apply Z.leb_le in He.
           assert (0 < Z.pos m * 2 ^ e)%Z
             by (apply Z.mul_pos_pos; [lia|by apply Z.pow_pos_nonneg]).
           assert (Hne : (0 ?= cond_Zopp s (Z.pos m * 2 ^ e))%Z ≠ Eq)
             by (rewrite Z.compare_eq_iff; destruct s; simpl; lia).
           change (match cond_Zopp s (Z.pos m * 2 ^ e) with
                   | 0 => Eq | Z.pos _ => Lt | Z.neg _ => Gt end)%Z
             with (0 ?= cond_Zopp s (Z.pos m * 2 ^ e))%Z.
           destruct (0 ?= cond_Zopp s (Z.pos m * 2 ^ e))%Z; done.
        -- destruct s; done.
  - intros [->|[->|[s ->]]]; done.
Qed.

(** Division and modulo by zero.  When the right operand is zero (the
    integer 0, a floating zero of either sign, or [false], which is the
    number 0), [a / b] fails with the runtime error [Division by zero] and
    [a % b] with [Modulo by zero], after both operands have been evaluated
    and whatever the left operand is, a string or a list included.  These are
    runtime errors of the language, which a catch clause receives. *)
Theorem zero_divisor_is_a_runtime_error fuel a b env st va st1 vb st2 :
  execute fuel a env st = Ok va st1 →
  execute fuel b env st1 = Ok vb st2 →
  vb = VInt 0 ∨ vb = VBool false ∨ (∃ s, vb = VFloat (S754_zero s)) →
  execute (S fuel) (BinaryOp "/" a b) env st
  = Raise (VoltRuntimeError "Division by zero") st2
  ∧ execute (S fuel) (BinaryOp "%" a b) env st
    = Raise (VoltRuntimeError "Modulo by zero") st2.
Proof.
  intros Ha Hb Hzero%equals_zero_spec.
  split; rewrite execute_S; simpl; unfold exec_BinaryOp; simpl;
    rewrite (bind_Ok _ _ _ _ _ Ha), (bind_Ok _ _ _ _ _ Hb);
    unfold binary_op; simpl; by rewrite Hzero.
Qed.

(** ["x" / false] is a division by zero. *)
Lemma zero_divisor_is_a_runtime_error_witness :
  let st := initial_state [] ∅ in
  execute 1 (StringLiteral "x") global_env st = Ok (VStr "x") st
  ∧ execute 1 (BooleanLiteral false) global_env st = Ok (VBool false) st
  ∧ execute 2 (BinaryOp "/" (StringLiteral "x") (BooleanLiteral false)) global_env st
    = Raise (VoltRuntimeError "Division by zero") st.
Proof.
  intros st. split; [reflexivity|]. split; [reflexivity|].
  exact (proj1 (zero_divisor_is_a_runtime_error 1 (StringLiteral "x") (BooleanLiteral false)
                  global_env st (VStr "x") st (VBool false) st eq_refl eq_refl
                  (or_intror (or_introl eq_refl)))).
Defined.

(** Properties of an instance.  [set obj.name = v] stores [v] in the
    properties of that one instance: its other properties, the properties
    of every other instance and the class are untouched.  Reading
    [obj.name] returns a stored property whatever the class defines under
    the name, so after the write the read returns [v]. *)
Theorem instance_property_write_and_read fuel obj name e env i :
  let ex := execute fuel in
  (∀ st v sv so,
     ex e env st = Ok v sv →
     ex obj env sv = Ok (VInst i) so →
     properties i < length (instances so) →
     ∃ st',
       execute (S fuel) (Assignment (DotAccess obj name) e) env st = Ok v st'
       ∧ get_props st' (properties i) !! name = Some v
       ∧ (∀ other, other ≠ name →
            get_props st' (properties i) !! other = get_props so (properties i) !! other)
       ∧ (∀ l, l ≠ properties i → get_props st' l = get_props so l)
       ∧ frames st' = frames so ∧ lists st' = lists so ∧ dicts st' = dicts so)
  ∧ (∀ st st1 v,
       ex obj env st = Ok (VInst i) st1 →
       get_props st1 (properties i) !! name = Some v →
       execute (S fuel) (DotAccess obj name) env st = Ok v st1).
Proof.
  intros ex. split.
  - intros st v sv so He Hobj Hl.
    rewrite execute_S. simpl. unfold exec_Assignment. fold ex.
    rewrite (bind_Ok _ _ _ _ _ He), (bind_Ok _ _ _ _ _ Hobj).
    unfold set_property. rewrite bind_modify. eexists. split; [reflexivity|].
    unfold get_props; simpl. unfold loc in *.
    rewrite list_lookup_insert_eq by done. simpl.
    split; [by rewrite lookup_insert_eq|].
    split; [intros other Hne; by rewrite lookup_insert_ne|].
    split; [|done]. intros l Hne. by rewrite list_lookup_insert_ne.
  - intros st st1 v Hobj Hprop.
    rewrite execute_S. simpl. unfold exec_DotAccess. fold ex.
    rewrite (bind_Ok _ _ _ _ _ Hobj). unfold instance_get. rewrite bind_gets.
    by rewrite Hprop.
Qed.

Lemma instance_property_write_and_read_witness :
  let o := Identifier "o" in
  execute 3 o global_env property_state = Ok (VInst property_instance) property_state
  ∧ properties property_instance < length (instances property_state)
  ∧ ∃ st',
      execute 4 (Assignment (DotAccess o "size") (NumberLiteral (NInt 3))) global_env
        property_state = Ok (VInt 3) st'
      ∧ get_props st' (properties property_instance) !! "size" = Some (VInt 3).
Proof.
  intros o.
  assert (Ho : execute 3 o global_env property_state
               = Ok (VInst property_instance) property_state) by (vm_compute; reflexivity).
  assert (Hl : properties property_instance < length (instances property_state))
    by (vm_compute; lia).
  split; [exact Ho|]. split; [exact Hl|].
  destruct (instance_property_write_and_read 3 o "size" (NumberLiteral (NInt 3)) global_env
              property_instance) as [Hwrite _].
  destruct (Hwrite property_state (VInt 3) property_state property_state eq_refl Ho Hl)
    as (st' & Hres & Hprop & _).
  exists st'. split; [exact Hres|exact Hprop].
Defined.

(** ** Indexing lists and dictionaries *)

Lemma py_index_in_range (n : nat) (i : Z) :
  (- Z.of_nat n ≤ i < Z.of_nat n)%Z →
  py_index n i = Some (Z.to_nat (i mod Z.of_nat n)) ∧ Z.to_nat (i mod Z.of_nat n) < n.
Proof.
  intros Hi. unfold py_index.
  assert (Hmod : (0 ≤ i mod Z.of_nat n < Z.of_nat n)%Z) by (apply Z.mod_pos_bound; lia).
  split; [|lia].
  destruct (Z.leb_spec 0 i); simpl.
  - destruct (Z.ltb_spec i (Z.of_nat n)); [|lia]. by rewrite Z.mod_small by lia.
  - destruct (Z.ltb_spec i 0); [|lia]. simpl.
    destruct (Z.leb_spec (- Z.of_nat n) i); [|lia].
    f_equal. f_equal.
    rewrite <- (Z.mod_small (i + Z.of_nat n) (Z.of_nat n)) by lia.
    replace (i + Z.of_nat n)%Z with (i + 1 * Z.of_nat n)%Z by lia.
    by rewrite Z_mod_plus_full.
Qed.

Lemma py_index_out_of_range (n : nat) (i : Z) :
  (i < - Z.of_nat n ∨ Z.of_nat n ≤ i)%Z → py_index n i = None.
Proof.
  intros Hi. unfold py_index.
  destruct (Z.leb_spec 0 i), (Z.ltb_spec i (Z.of_nat n)), (Z.ltb_spec i 0),
    (Z.leb_spec (- Z.of_nat n) i); simpl; try done; lia.
Qed.


(** The state after [set a = [10, 20, 30]]. *)
Definition three_list_state : state :=
  final_state
    (run 5 [Assignment (Identifier "a")
              (ListLiteral [NumberLiteral (NInt 10); NumberLiteral (NInt 20);
                            NumberLiteral (NInt 30)])] [] ∅).


Lemma get_dict_put st l d :
  l < length (dicts st) →
  get_dict (set_dicts (fun ds => <[l := d]> ds) st) l = d.
Proof. intros Hl. unfold get_dict; simpl. by rewrite list_lookup_insert_eq. Qed.

Lemma get_dict_put_ne st l l' d :
  l' ≠ l →
  get_dict (set_dicts (fun ds => <[l := d]> ds) st) l' = get_dict st l'.
Proof. intros Hl. unfold get_dict; simpl. by rewrite list_lookup_insert_ne. Qed.

Lemma dict_store_length k key v d :
  length (dict_store k key v d)
  = match dict_find k d with
    | Some _ => length d
    | None => S (length d)
    end.
Proof.
  induction d as [|[key0 v0] d IH]; simpl; [done|].
  destruct (key_matches k key0); simpl; [done|].
  rewrite IH. by destruct (dict_find k d).
Qed.

(** Writing and reading a dictionary entry [d[key]].  A key is identified
    by its hash key [k] (equal numbers such as [1], [1.0] and [true] are one
    key).  The write makes [k] hold the value, keeps every other entry,
    grows the dictionary by one entry exactly when [k] was absent, and
    touches no other dictionary.  The read returns the value stored under
    the hash key of the index, and fails with the runtime error
    [Key ... not found in dict] when there is none. *)
Theorem dict_index_write_and_read fuel obj index e env l :
  let ex := execute fuel in
  (∀ st v sv so key si k,
     ex e env st = Ok v sv →
     ex obj env sv = Ok (VDict l) so →
     ex index env so = Ok key si →
     py_hash key = Hashable k →
     l < length (dicts si) →
     ∃ st',
       execute (S fuel) (Assignment (IndexAccess obj index) e) env st = Ok v st'
       ∧ dict_find k (get_dict st' l) = Some v
       ∧ (∀ k', k' ≠ k → dict_find k' (get_dict st' l) = dict_find k' (get_dict si l))
       ∧ length (get_dict st' l)
         = match dict_find k (get_dict si l) with
           | Some _ => length (get_dict si l)
           | None => S (length (get_dict si l))
           end
       ∧ (∀ l', l' ≠ l → get_dict st' l' = get_dict si l')
       ∧ frames st' = frames si ∧ lists st' = lists si)
  ∧ (∀ st st1 key st2 k,
       ex obj env st = Ok (VDict l) st1 →
       ex index env st1 = Ok key st2 →
       py_hash key = Hashable k →
       execute (S fuel) (IndexAccess obj index) env st
       = match dict_find k (get_dict st2 l) with
         | Some x => Ok x st2
         | None =>
             (r <- py_repr key ;; runtime_error ("Key " +:+ r +:+ " not found in dict")) st2
         end).
Proof.
  intros ex. split.
  - intros st v sv so key si k He Hobj Hidx Hkey Hl.
    rewrite execute_S. simpl. unfold exec_Assignment, bind. fold ex.
    rewrite He, Hobj, Hidx. unfold dict_assign. rewrite Hkey.
    unfold bind, gets, put_dict, modify. eexists. split; [reflexivity|].
    rewrite get_dict_put by done.
    split; [by rewrite dict_find_store, decide_True|].
    split; [intros k' Hne; by rewrite dict_find_store, decide_False|].
    split; [apply dict_store_length|].
    split; [|done]. intros l' Hne. by apply get_dict_put_ne.
  - intros st st1 key st2 k Hobj Hidx Hkey.
    rewrite execute_S. simpl. unfold exec_IndexAccess, bind at 1 2. fold ex.
    rewrite Hobj, Hidx. unfold dict_lookup. rewrite Hkey. unfold bind at 1, gets.
    by destruct (dict_find k (get_dict st2 l)).
Qed.

(** The state after [set d = {}]. *)
Definition empty_dict_state : state :=
  final_state (run 5 [Assignment (Identifier "d") (DictLiteral [])] [] ∅).

(** After [set d[1] = "one"], the entry is read back under the key
    [true]. *)
Lemma dict_index_write_and_read_witness :
  let d := Identifier "d" in
  ∃ st',
    execute 4 (Assignment (IndexAccess d (NumberLiteral (NInt 1))) (StringLiteral "one"))
      global_env empty_dict_state = Ok (VStr "one") st'
    ∧ execute 4 (IndexAccess d (BooleanLiteral true)) global_env st' = Ok (VStr "one") st'.
Proof.
  intros d.
  destruct (dict_index_write_and_read 3 d (NumberLiteral (NInt 1)) (StringLiteral "one")
              global_env 0) as [Hwrite _].
  destruct (Hwrite empty_dict_state (VStr "one") empty_dict_state empty_dict_state (VInt 1)
              empty_dict_state (KNum 1) eq_refl eq_refl eq_refl eq_refl)
    as (st' & Hres & Hfound & _ & _ & _ & Hframes & _); [vm_compute; lia|].
  exists st'. split; [exact Hres|].
  destruct (dict_index_write_and_read 3 d (BooleanLiteral true) NullLiteral
              global_env 0) as [_ Hread].
  assert (Hd : execute 3 d global_env st' = Ok (VDict 0) st').
  { unfold d. rewrite execute_S. simpl. unfold env_get. simpl.
    unfold frame_vars. rewrite Hframes. reflexivity. }
  rewrite (Hread st' st' (VBool true) st' (KNum 1) Hd eq_refl eq_refl).
  by rewrite Hfound.
Defined.

(** Dot access on a dictionary, [d.name].  [set d.name = v] stores [v]
    under the string key [name], whatever the name.  Reading [d.name]
    returns the entry stored under the string key, or fails with the
    runtime error [Key 'name' not found in dict]; the one exception is the
    name [size], for which the read returns the number of entries, even
    when the dictionary holds an entry under the key [size]. *)
Theorem dict_dot_write_and_read fuel obj name e env l :
  let ex := execute fuel in
  (∀ st v sv so,
     ex e env st = Ok v sv →
     ex obj env sv = Ok (VDict l) so →
     l < length (dicts so) →
     ∃ st',
       execute (S fuel) (Assignment (DotAccess obj name) e) env st = Ok v st'
       ∧ dict_find (KStr name) (get_dict st' l) = Some v
       ∧ (∀ k', k' ≠ KStr name →
            dict_find k' (get_dict st' l) = dict_find k' (get_dict so l)))
  ∧ (∀ st st1,
       ex obj env st = Ok (VDict l) st1 →
       let d := get_dict st1 l in
       execute (S fuel) (DotAccess obj name) env st
       = if decide (name = "size") then Ok (VInt (Z.of_nat (length d))) st1
         else
           match dict_find (KStr name) d with
           | Some x => Ok x st1
           | None => Raise (VoltRuntimeError ("Key '" +:+ name +:+ "' not found in dict")) st1
           end).
Proof.
  intros ex. split.
  - intros st v sv so He Hobj Hl.
    rewrite execute_S. simpl. unfold exec_Assignment, bind. fold ex.
    rewrite He, Hobj. unfold dict_assign. simpl.
    unfold bind, gets, put_dict, modify. eexists. split; [reflexivity|].
    rewrite get_dict_put by done.
    split; [by rewrite dict_find_store, decide_True|].
    intros k' Hne; by rewrite dict_find_store, decide_False.
  - intros st st1 Hobj d.
    rewrite execute_S. simpl. unfold exec_DotAccess, bind at 1. fold ex.
    rewrite Hobj. unfold bind, gets. fold d. unfold str_eqb.
    destruct (String.eqb_spec name "size") as [->|Hne].
    + by rewrite decide_True.
    + rewrite decide_False by done. by destruct (dict_find (KStr name) d).
Qed.

(** After [set d.size = 7] the entry exists, [d.size] is the number of
    entries, 1. *)
Lemma dict_dot_write_and_read_witness :
  let d := Identifier "d" in
  ∃ st',
    execute 4 (Assignment (DotAccess d "size") (NumberLiteral (NInt 7)))
      global_env empty_dict_state = Ok (VInt 7) st'
    ∧ dict_find (KStr "size") (get_dict st' 0) = Some (VInt 7)
    ∧ execute 4 (DotAccess d "size") global_env st' = Ok (VInt 1) st'.
Proof.
  intros d.
  destruct (dict_dot_write_and_read 3 d "size" (NumberLiteral (NInt 7)) global_env 0)
    as [Hwrite _].
  destruct (Hwrite empty_dict_state (VInt 7) empty_dict_state empty_dict_state
              eq_refl eq_refl) as (st' & Hres & Hfound & _); [vm_compute; lia|].
  exists st'. split; [exact Hres|]. split; [exact Hfound|].
  revert Hres. vm_compute. intros [= <-]. reflexivity.
Defined.

(** ** Calls with all arguments supplied *)

Lemma bind_params_from_supplied ex fname params :
  ∀ i args fe ce,
    i + length params ≤ length args →
    bind_params_from ex i fname params args fe ce
    = set_all (zip (map fst params) (drop i args)) fe.
Proof.
  induction params as [|[p dflt] rest IH]; intros i args fe ce Hlen; simpl in *; [done|].
  destruct (lookup_lt_is_Some_2 args i) as [a Ha]; [lia|].
  rewrite Ha, (drop_S _ _ _ Ha). simpl. by rewrite IH by lia.
Qed.

(** When a call supplies at least as many arguments as the function has
    parameters, the parameters are bound, in order, to the arguments at
    their positions; arguments beyond the last parameter are ignored
    without an error; no default expression is evaluated; and the outcome of
    the call does not depend on the environment of the caller (the body
    runs in a frame chained to the closure of the function only). *)
Theorem supplied_arguments_bind_positionally ex f vs :
  length (fn_params f) ≤ length vs →
  (∀ fe ce,
     bind_params ex f vs fe ce = set_all (zip (map fst (fn_params f)) vs) fe)
  ∧ (∀ env env' st, call_function ex f vs env st = call_function ex f vs env' st)
  ∧ (∀ env st,
       call_function ex f vs env st
       = (func_env <- new_env (Some (closure_env f)) ;;
          set_all (zip (map fst (fn_params f)) vs) func_env ;;;
          catch_return (exec_block ex (fn_body f) func_env)) st).
Proof.
  intros Hlen.
  assert (Hbind : ∀ fe ce,
            bind_params ex f vs fe ce = set_all (zip (map fst (fn_params f)) vs) fe).
  { intros fe ce. unfold bind_params. by rewrite bind_params_from_supplied. }
  split; [exact Hbind|]. unfold call_function, bind at 1 3 5. simpl. split.
  - intros env env' st. by rewrite !Hbind.
  - intros env st. by rewrite Hbind.
Qed.

(** [func f(x) { return x }] called with the arguments 1 and 2. *)
Lemma supplied_arguments_bind_positionally_witness :
  let f := mkFunction 0 "f" [("x", None)] [ReturnStatement (Some (Identifier "x"))]
             global_env in
  length (fn_params f) ≤ length [VInt 1; VInt 2]
  ∧ ∃ st',
      call_function (execute 3) f [VInt 1; VInt 2] global_env (initial_state [] ∅)
      = Ok (VInt 1) st'.
Proof.
  intros f.
  assert (Hlen : length (fn_params f) ≤ length [VInt 1; VInt 2]) by (simpl; lia).
  split; [exact Hlen|].
  destruct (supplied_arguments_bind_positionally (execute 3) f [VInt 1; VInt 2] Hlen)
    as (_ & _ & Hcall).
  rewrite Hcall. vm_compute. eexists. reflexivity.
Defined.

(** ** The canonical stringifier on lists *)

(** The text of a value that is not a container, a function or an object. *)
Definition scalar_text (v : value) : option string :=
  match v with
  | VNull => Some "null"
  | VBool b => Some (if b then "true" else "false")
  | VInt z => Some (str_of_Z z)
  | VStr s => Some s
  | _ => None
  end.

Lemma to_string_scalar ex n v t st :
  scalar_text v = Some t → to_string ex (S n) v st = Ok t st.
Proof. destruct v; simpl; intros [= <-]; done. Qed.

Lemma iterate_list_S {A} n l i (acc : A) body :
  iterate_list (S n) l i acc body
  = (xs <- gets (fun st => get_list st l) ;;
     match xs !! i with
     | None => ret acc
     | Some x =>
         r <- body i x acc ;;
         match r with
         | Next a => iterate_list n l (S i) a body
         | Stop a => ret a
         end
     end).
Proof. reflexivity. Qed.

Lemma to_string_list ex m l :
  to_string ex (S m) (VList l)
  = (items <- iterate_list m l 0 []
                (fun _ x acc => s <- to_string ex m x ;; ret (Next (acc ++ [s]))) ;;
     ret ("[" +:+ str_join ", " items +:+ "]")).
Proof. reflexivity. Qed.

Lemma iterate_list_texts ex n l st xs :
  get_list st l = xs →
  ∀ k i acc ts,
    Forall2 (fun x t => scalar_text x = Some t) (drop i xs) ts →
    length xs - i < k →
    iterate_list k l i acc
      (fun _ x acc => s <- to_string ex (S n) x ;; ret (Next (acc ++ [s]))) st
    = Ok (acc ++ ts) st.
Proof.
  intros Hxs. induction k as [|k IH]; intros i acc ts Hts Hk; [lia|].
  rewrite iterate_list_S. unfold bind at 1, gets. rewrite Hxs.
  destruct (xs !! i) as [x|] eqn:Hx.
  - rewrite (drop_S _ _ _ Hx) in Hts.
    apply Forall2_cons_inv_l in Hts as (t & ts' & Ht & Hts' & ->).
    unfold bind at 1. unfold bind at 1. rewrite (to_string_scalar _ _ _ _ _ Ht).
    unfold ret at 1. cbv beta iota.
    rewrite (IH (S i) (acc ++ [t]) ts' Hts') by (apply lookup_lt_Some in Hx; lia).
    by rewrite <- app_assoc.
  - apply lookup_ge_None_1 in Hx. rewrite drop_ge in Hts by done.
    apply Forall2_nil_inv_l in Hts as ->. by rewrite app_nil_r.
Qed.



(** ** The range loop *)

Lemma py_range_cons (a b : Z) :
  (a < b)%Z → py_range a b = a :: py_range (a + 1) b.
Proof.
  intros Hab. unfold py_range.
  replace (Z.to_nat (b - a)) with (S (Z.to_nat (b - (a + 1)))) by lia.
  simpl. rewrite Z.add_0_r. f_equal.
  rewrite <- seq_shift, map_map. apply map_ext. intros k. lia.
Qed.

Lemma py_range_empty (a b : Z) : (b ≤ a)%Z → py_range a b = [].
Proof. intros Hab. unfold py_range. by replace (Z.to_nat (b - a)) with 0 by lia. Qed.

Lemma for_each_range ex x body env (P : Z → state → Prop) hi :
  ∀ n lo result s,
    Z.to_nat (hi + 1 - lo) = n →
    P lo s →
    (∀ i s0, (lo ≤ i ≤ hi)%Z → P i s0 →
       ∃ v s', (env_set env x (VInt i) ;;; exec_block ex body env) s0 = Ok v s'
               ∧ P (i + 1)%Z s') →
    ∃ v s',
      for_each ex (py_range lo (hi + 1)) (fun i => env_set env x (VInt i)) body env result s
      = Ok v s'
      ∧ P (Z.max lo (hi + 1)) s'.
Proof.
  induction n as [|n IH]; intros lo result s Hn HP Hbody.
  - rewrite py_range_empty by lia. exists result, s. split; [done|].
    by replace (Z.max lo (hi + 1)) with lo by lia.
  - rewrite py_range_cons by lia. simpl.
    destruct (Hbody lo s) as (v & s' & Hrun & HP'); [lia|done|].
    unfold bind at 1 in Hrun. unfold bind at 1. simpl in Hrun |- *.
    unfold bind at 1, loop_body. rewrite Hrun.
    destruct (IH (lo + 1)%Z v s') as (v' & s'' & Hrest & HP''); [lia|done| |].
    { intros i s0 Hi. apply Hbody. lia. }
    exists v', s''. split; [done|].
    by replace (Z.max lo (hi + 1)) with (Z.max (lo + 1) (hi + 1)) by lia.
Qed.

(** [for x in start to stop { body }], where the bounds evaluate to the
    integers [lo] and [hi]: the body runs once for each integer from [lo]
    to [hi], both included, in increasing order, each time after [x] has
    been bound to that integer in the current frame; with [lo > hi] it does
    not run at all.  Stated as a rule: a property [P i] that holds before
    the turn for [i] and that each turn carries from [i] to [i + 1] (the
    body completing normally) holds, after the loop, for the successor of
    the last value. *)
Theorem range_loop_runs_body_for_each_value fuel x start stop body env st lo s1 hi s2
    (P : Z → state → Prop) :
  execute fuel start env st = Ok (VInt lo) s1 →
  execute fuel stop env s1 = Ok (VInt hi) s2 →
  P lo s2 →
  (∀ i s, (lo ≤ i ≤ hi)%Z → P i s →
     ∃ v s', (env_set env x (VInt i) ;;; exec_block (execute fuel) body env) s = Ok v s'
             ∧ P (i + 1)%Z s') →
  ∃ v s',
    execute (S fuel) (LoopRangeStatement x start stop body) env st = Ok v s'
    ∧ P (Z.max lo (hi + 1)) s'.
Proof.
  intros Hstart Hstop HP Hbody.
  rewrite execute_S. simpl. unfold bind at 1 2. rewrite Hstart, Hstop. simpl.
  unfold bind at 1 2. simpl.
  by apply (for_each_range _ _ _ _ P hi (Z.to_nat (hi + 1 - lo))).
Qed.

(** [for i in 1 to 3 { show i }] prints three lines. *)
Lemma range_loop_runs_body_for_each_value_witness :
  ∃ v s',
    execute 4 (LoopRangeStatement "i" (NumberLiteral (NInt 1)) (NumberLiteral (NInt 3))
                 [ShowStatement (Identifier "i")]) global_env (initial_state [] ∅)
    = Ok v s'
    ∧ length (stdout s') = 3.
Proof.
  pose (P := fun (i : Z) (s : state) =>
                frames s ≠ [] ∧ Z.of_nat (length (stdout s)) = (i - 1)%Z).
  destruct (range_loop_runs_body_for_each_value 3 "i" (NumberLiteral (NInt 1))
              (NumberLiteral (NInt 3)) [ShowStatement (Identifier "i")] global_env
              (initial_state [] ∅) 1 (initial_state [] ∅) 3 (initial_state [] ∅) P
              eq_refl eq_refl) as (v & s' & Hrun & _ & Hout).
  - split; [discriminate|reflexivity].
  - intros i s Hi [Hframes Hout].
    destruct s as [[|f fs] ls ds ins ms nid out inp fl]; [done|]. simpl in Hout.
    eexists _, _. split.
    + unfold bind at 1, env_set, modify. simpl. unfold exec_block. simpl.
      unfold bind at 1. rewrite execute_S. simpl.
      unfold bind at 1. rewrite execute_S. simpl.
      unfold env_get. simpl. unfold frame_vars. simpl.
      rewrite lookup_insert_eq. simpl. reflexivity.
    + split; [discriminate|]. simpl. rewrite length_app. simpl. lia.
  - exists v, s'. split; [exact Hrun|]. simpl in Hout. lia.
Defined.

(** ** List methods that cancel or coincide *)

Lemma get_list_put st l ys :
  l < length (lists st) →
  get_list (set_lists (fun ls => <[l := ys]> ls) st) l = ys.
Proof. intros Hl. unfold get_list; simpl. by rewrite list_lookup_insert_eq. Qed.

Lemma set_lists_same st f : f (lists st) = lists st → set_lists f st = st.
Proof. destruct st; unfold set_lists; simpl. by intros ->. Qed.

Lemma put_list_twice st l ys zs :
  lists st !! l = Some zs →
  set_lists (fun ls => <[l := zs]> ls) (set_lists (fun ls => <[l := ys]> ls) st) = st.
Proof.
  intros Hl. destruct st; unfold set_lists; simpl in *.
  by rewrite list_insert_insert_eq, list_insert_id.
Qed.

Lemma py_index_last (n : nat) : py_index (S n) (-1) = Some n.
Proof.
  unfold py_index.
  destruct (Z.leb_spec 0 (-1)); [lia|].
  destruct (Z.ltb_spec (-1) 0); [|lia].
  destruct (Z.leb_spec (- Z.of_nat (S n)) (-1)); [|lia].
  simpl andb. cbv iota. f_equal. lia.
Qed.

(** On a list, [push(v)] followed by [pop()], and [unshift(v)] followed by
    [shift()], return [v] and leave the list, and the whole state, exactly
    as they were before. *)
Theorem push_pop_and_unshift_shift_cancel ex depth l v env st xs :
  lists st !! l = Some xs →
  (call_list_method ex depth l "push" [v] env ;;;
   call_list_method ex depth l "pop" [] env) st = Ok v st
  ∧ (call_list_method ex depth l "unshift" [v] env ;;;
     call_list_method ex depth l "shift" [] env) st = Ok v st.
Proof.
  intros Hl.
  assert (Hlt : l < length (lists st)) by (by eapply lookup_lt_Some).
  assert (Hxs : get_list st l = xs) by (unfold get_list; by rewrite Hl).
  unfold call_list_method. simpl. unfold bind, read_list, gets, put_list, modify. simpl.
  rewrite !get_list_put, Hxs by done. split.
  - destruct (xs ++ [v]) as [|y ys] eqn:Happ; [by destruct xs|]. rewrite <- Happ.
    rewrite length_app, Nat.add_1_r, py_index_last. simpl.
    rewrite lookup_app_r, Nat.sub_diag by done. simpl.
    replace (delete (length xs) (xs ++ [v])) with xs
      by (by rewrite delete_middle, app_nil_r).
    by rewrite put_list_twice.
  - by rewrite put_list_twice.
Qed.

Lemma push_pop_and_unshift_shift_cancel_witness :
  lists one_list_state !! 0 = Some [VInt 1]
  ∧ (call_list_method (execute 0) 0 0 "push" [VInt 4] global_env ;;;
     call_list_method (execute 0) 0 0 "pop" [] global_env) one_list_state
    = Ok (VInt 4) one_list_state.
Proof.
  split; [reflexivity|].
  exact (proj1 (push_pop_and_unshift_shift_cancel (execute 0) 0 0 (VInt 4) global_env
                  one_list_state [VInt 1] eq_refl)).
Defined.

Lemma slice_bound_low (n : nat) (i : Z) :
  (i ≤ - Z.of_nat n ∨ i = 0)%Z → slice_bound n i = 0.
Proof.
  intros Hi. unfold slice_bound. destruct (Z.ltb_spec i 0); lia.
Qed.

Lemma slice_bound_high (n : nat) (i : Z) : (Z.of_nat n ≤ i)%Z → slice_bound n i = n.
Proof.
  intros Hi. unfold slice_bound. destruct (Z.ltb_spec i 0); lia.
Qed.

Lemma slice_bound_le (n : nat) (i : Z) : slice_bound n i ≤ n.
Proof. unfold slice_bound. destruct (Z.ltb_spec i 0); lia. Qed.



(** ** [fill], [remove], [indexOf] and [sort] *)

Lemma fill_range_spec l v :
  ∀ k a st,
    l < length (lists st) →
    a + k ≤ length (get_list st l) →
    ∃ st',
      fill_range l v (py_range (Z.of_nat a) (Z.of_nat a + Z.of_nat k)) st = Ok tt st'
      ∧ length (get_list st' l) = length (get_list st l)
      ∧ (∀ j, get_list st' l !! j
              = if decide (a ≤ j < a + k) then Some v else get_list st l !! j)
      ∧ (∀ l', l' ≠ l → get_list st' l' = get_list st l')
      ∧ length (lists st') = length (lists st)
      ∧ frames st' = frames st ∧ dicts st' = dicts st
      ∧ instances st' = instances st ∧ stdout st' = stdout st.
Proof.
  induction k as [|k IH]; intros a st Hl Hk.
  - rewrite py_range_empty by lia. exists st. split; [done|]. split; [done|].
    split; [|done]. intros j. by rewrite decide_False by lia.
  - rewrite py_range_cons by lia. simpl.
    unfold bind at 1, read_list, gets.
    destruct (py_index_in_range (length (get_list st l)) (Z.of_nat a)) as [Hp _]; [lia|].
    rewrite Hp, Z.mod_small, Nat2Z.id by lia.
    unfold bind at 1, put_list, modify.
    set (st1 := set_lists _ st).
    assert (Hst1 : get_list st1 l = <[a := v]> (get_list st l))
      by (by apply get_list_put).
    destruct (IH (S a) st1) as (st' & Hrun & Hlen & Hget & Hother & Hlists & Hrest).
    { subst st1; simpl. by rewrite length_insert. }
    { rewrite Hst1, length_insert. lia. }
    exists st'. replace (Z.of_nat a + 1)%Z with (Z.of_nat (S a)) by lia.
    replace (Z.of_nat a + Z.of_nat (S k))%Z with (Z.of_nat (S a) + Z.of_nat k)%Z by lia.
    split; [exact Hrun|].
    split; [by rewrite Hlen, Hst1, length_insert|].
    split; [|split; [|split; [|exact Hrest]]].
    + intros j. rewrite Hget, Hst1.
      destruct (decide (j = a)) as [->|Hne].
      * rewrite decide_False, decide_True by lia.
        apply list_lookup_insert_eq. lia.
      * rewrite list_lookup_insert_ne by done.
        destruct (decide (S a ≤ j < S a + k)).
        -- by rewrite decide_True by lia.
        -- by rewrite decide_False by lia.
    + intros l' Hne. rewrite Hother by done. subst st1.
      unfold get_list; simpl. by rewrite list_lookup_insert_ne.
    + rewrite Hlists. subst st1; simpl. by rewrite length_insert.
Qed.

(** [fill(v, a, b)] with integer bounds and [0 <= a]: the receiver keeps
    its length, every position [j] with [a <= j < b] holds [v] afterwards,
    every other position keeps its element, and no other list changes; a
    bound [b] beyond the length is cut to the length, and an empty range
    changes nothing.  [fill(v)] alone replaces every element. *)
Theorem fill_replaces_a_range ex depth l v env st (a b : nat) :
  let xs := get_list st l in
  let call args := call_list_method ex depth l "fill" args env st in
  l < length (lists st) →
  (∃ st',
     call [v; VInt (Z.of_nat a); VInt (Z.of_nat b)] = Ok (VList l) st'
     ∧ length (get_list st' l) = length xs
     ∧ (∀ j x, xs !! j = Some x →
               get_list st' l !! j = Some (if decide (a ≤ j < b) then v else x))
     ∧ (∀ l', l' ≠ l → get_list st' l' = get_list st l'))
  ∧ (∃ st',
       call [v] = Ok (VList l) st'
       ∧ get_list st' l = replicate (length xs) v
       ∧ (∀ l', l' ≠ l → get_list st' l' = get_list st l')).
Proof.
  intros xs call Hl. subst call. unfold call_list_method. simpl.
  rewrite !bind_ret, !bind_read_list, !bind_ret. fold xs. split.
  - set (hi := Z.min (Z.of_nat b) (Z.of_nat (length xs))).
    destruct (decide (a ≤ length xs ∧ (Z.of_nat a ≤ hi)%Z)) as [[Ha Hhi]|Hempty].
    + destruct (fill_range_spec l v (Z.to_nat hi - a) a st Hl)
        as (st' & Hrun & Hlen & Hget & Hother & _); [fold xs; lia|].
      replace (Z.of_nat a + Z.of_nat (Z.to_nat hi - a))%Z with hi in Hrun by lia.
      rewrite (bind_Ok _ _ _ _ _ Hrun). exists st'. split; [done|]. split; [done|].
      split; [|done]. intros j x Hj. rewrite Hget. fold xs.
      apply lookup_lt_Some in Hj as Hjlt.
      destruct (decide (a ≤ j < b)).
      * by rewrite decide_True by lia.
      * by rewrite decide_False by lia.
    + destruct (decide (Z.of_nat a < hi)%Z) as [Hlt|Hge]; [lia|].
      rewrite py_range_empty by lia. exists st. split; [done|]. split; [done|].
      split; [|done]. intros j x Hj. apply lookup_lt_Some in Hj as Hjlt.
      by rewrite decide_False by lia.
  - rewrite Z.min_id.
    destruct (fill_range_spec l v (length xs) 0 st Hl)
      as (st' & Hrun & Hlen & Hget & Hother & _); [fold xs; lia|].
    simpl in Hrun. rewrite (bind_Ok _ _ _ _ _ Hrun). exists st'. split; [done|].
    split; [|done]. apply list_eq. intros j. rewrite Hget. fold xs.
    destruct (decide (0 ≤ j < 0 + length xs)) as [Hj|Hj].
    + symmetry. apply lookup_replicate_2. lia.
    + rewrite lookup_ge_None_2 by lia. symmetry. apply lookup_replicate_None. lia.
Qed.

(** On [[1]], [fill(0)] gives [[0]]. *)
Lemma fill_replaces_a_range_witness :
  0 < length (lists one_list_state)
  ∧ ∃ st',
      call_list_method (execute 0) 0 0 "fill" [VInt 0] global_env one_list_state
      = Ok (VList 0) st'
      ∧ get_list st' 0 = [VInt 0].
Proof.
  assert (Hl : 0 < length (lists one_list_state)) by (vm_compute; lia).
  split; [exact Hl|].
  destruct (fill_replaces_a_range (execute 0) 0 0 (VInt 0) global_env one_list_state 0 0 Hl)
    as (_ & st' & Hrun & Hget & _).
  exists st'. split; [exact Hrun|exact Hget].
Defined.

Lemma rich_eq_integers depth st (y z : Z) :
  rich_eq (S depth) st (VInt y) (VInt z) = inr (bool_decide (y = z)).
Proof.
  unfold rich_eq. simpl. unfold num_eqb. simpl. f_equal.
  destruct (Z.compare_spec y z); case_bool_decide; done || lia.
Qed.

Lemma index_of_integers depth st z :
  ∀ zs i,
    index_of (S depth) st (VInt z) i (map VInt zs)
    = inr (match list_find (fun y => y = z) zs with
           | Some (k, _) => Some (i + k)
           | None => None
           end).
Proof.
  induction zs as [|y zs IH]; intros i; [done|].
  cbn [map index_of list_find]. rewrite rich_eq_integers.
  case_bool_decide as Hy; case_decide; try done.
  - by rewrite Nat.add_0_r.
  - rewrite IH. destruct (list_find _ zs) as [[k w]|]; simpl; [|done].
    do 2 f_equal. lia.
Qed.

Lemma list_find_first (z : Z) pre post :
  z ∉ pre → list_find (fun y => y = z) (pre ++ z :: post) = Some (length pre, z).
Proof.
  intros Hpre. apply list_find_Some. split; [by apply list_lookup_middle|].
  split; [done|]. intros j y Hj Hlt Hy. subst y.
  rewrite lookup_app_l in Hj by done. apply Hpre. by eapply list_elem_of_lookup_2.
Qed.

Lemma list_find_absent (z : Z) zs : z ∉ zs → list_find (fun y => y = z) zs = None.
Proof.
  intros Hz. apply list_find_None. apply Forall_forall. by intros y Hy ->.
Qed.

(** On a list of integers, [remove(z)] deletes the first element equal to
    [z] and nothing else, and [indexOf(z)] is the position of that element.
    When no element equals [z], [indexOf(z)] is [-1], whereas [remove(z)]
    raises the [ValueError] of the host (not a runtime error of the
    language) and changes nothing. *)
Theorem remove_deletes_first_occurrence ex depth l env st zs z :
  lists st !! l = Some (map VInt zs) →
  let call method := call_list_method ex (S depth) l method [VInt z] env st in
  (∀ pre post,
     zs = pre ++ z :: post → z ∉ pre →
     call "indexOf" = Ok (VInt (Z.of_nat (length pre))) st
     ∧ call "remove"
       = Ok (VList l) (set_lists (fun ls => <[l := map VInt (pre ++ post)]> ls) st))
  ∧ (z ∉ zs →
     call "indexOf" = Ok (VInt (-1)) st
     ∧ call "remove" = Raise (HostError ValueError "") st).
Proof.
  intros Hl call. subst call.
  assert (Hxs : get_list st l = map VInt zs) by (unfold get_list; by rewrite Hl).
  unfold call_list_method. simpl.
  rewrite !bind_ret, !bind_read_list, Hxs.
  unfold bind, put_list, modify. rewrite !index_of_integers. simpl. split.
  - intros pre post -> Hpre. rewrite list_find_first by done. simpl.
    split; [done|]. do 3 f_equal.
    rewrite !map_app. simpl. rewrite <- (length_map VInt pre). apply delete_middle.
  - intros Hz. by rewrite list_find_absent.
Qed.

(** With [a = [1]], [a.remove(2)] raises [ValueError]. *)
Lemma remove_deletes_first_occurrence_witness :
  lists one_list_state !! 0 = Some (map VInt [1%Z])
  ∧ (2%Z ∉ [1%Z])
  ∧ call_list_method (execute 0) 1 0 "remove" [VInt 2] global_env one_list_state
    = Raise (HostError ValueError "") one_list_state.
Proof.
  assert (Hz : 2%Z ∉ [1%Z]) by (apply not_elem_of_cons; split; [done|apply not_elem_of_nil]).
  split; [reflexivity|]. split; [exact Hz|].
  destruct (remove_deletes_first_occurrence (execute 0) 0 0 global_env one_list_state
              [1%Z] 2 eq_refl) as [_ Habsent].
  exact (proj2 (Habsent Hz)).
Defined.

Lemma value_ltb_integers (a b : Z) : value_ltb (VInt a) (VInt b) = (a <? b)%Z.
Proof. reflexivity. Qed.

Lemma insert_sorted_integers (z : Z) zs :
  insert_sorted value_ltb (VInt z) (map VInt zs) = map VInt (insert_sorted Z.ltb z zs).
Proof.
  induction zs as [|y zs IH]; simpl; [done|].
  rewrite value_ltb_integers. destruct (z <? y)%Z; simpl; [done|]. by rewrite IH.
Qed.

Lemma stable_sort_integers zs :
  stable_sort value_ltb (map VInt zs) = map VInt (stable_sort Z.ltb zs).
Proof.
  unfold stable_sort. induction zs as [|y zs IH]; simpl; [done|].
  by rewrite IH, insert_sorted_integers.
Qed.

Lemma insert_sorted_permutation (z : Z) zs : insert_sorted Z.ltb z zs ≡ₚ z :: zs.
Proof.
  induction zs as [|y zs IH]; simpl; [done|].
  destruct (z <? y)%Z; [done|]. rewrite IH. apply Permutation_swap.
Qed.

Lemma insert_sorted_ordered (z : Z) zs :
  Sorted Z.le zs → Sorted Z.le (insert_sorted Z.ltb z zs).
Proof.
  induction zs as [|y zs IH]; intros Hs; simpl; [by repeat constructor|].
  apply Sorted_inv in Hs as [Hs Hhd].
  destruct (Z.ltb_spec z y).
  - constructor; [by constructor|]. constructor. lia.
  - constructor; [by apply IH|].
    destruct zs as [|w zs]; simpl; [constructor; lia|].
    apply HdRel_inv in Hhd. destruct (z <? w)%Z; constructor; lia.
Qed.

Lemma py_sorted_integers zs :
  py_sorted (map VInt zs) = inr (inr (map VInt (stable_sort Z.ltb zs))).
Proof.
  unfold py_sorted. rewrite length_map.
  destruct zs as [|a [|b zs]]; try reflexivity.
  replace (length (a :: b :: zs) <? 2) with false by done.
  replace (forallb is_plain_number (map VInt (a :: b :: zs))) with true.
  - simpl orb. cbv iota. by rewrite stable_sort_integers.
  - symmetry. apply forallb_forall. intros x Hx.
    apply in_map_iff in Hx as (y & <- & _). done.
Qed.

(** On a list of integers, [sort()] returns a new list that holds the same
    integers (each as often as the receiver does) in ascending order; the
    receiver and every other existing list stay as they were. *)
Theorem sort_orders_integers ex depth l env st zs :
  lists st !! l = Some (map VInt zs) →
  ∃ sorted,
    call_list_method ex depth l "sort" [] env st
    = Ok (VList (length (lists st))) (set_lists (fun ls => ls ++ [map VInt sorted]) st)
    ∧ Sorted Z.le sorted
    ∧ sorted ≡ₚ zs.
Proof.
  intros Hl.
  assert (Hxs : get_list st l = map VInt zs) by (unfold get_list; by rewrite Hl).
  exists (stable_sort Z.ltb zs). split; [|split].
  - unfold call_list_method. simpl. rewrite bind_read_list, Hxs, py_sorted_integers.
    reflexivity.
  - unfold stable_sort. induction zs as [|z zs IH] in |- *; simpl; [constructor|].
    by apply insert_sorted_ordered.
  - unfold stable_sort. induction zs as [|z zs IH] in |- *; simpl; [done|].
    by rewrite insert_sorted_permutation, IH.
Qed.

(** The state after [set a = [3, 1, 2]]. *)
Definition unsorted_state : state :=
  final_state
    (run 5 [Assignment (Identifier "a")
              (ListLiteral [NumberLiteral (NInt 3); NumberLiteral (NInt 1);
                            NumberLiteral (NInt 2)])] [] ∅).

Lemma sort_orders_integers_witness :
  lists unsorted_state !! 0 = Some (map VInt [3; 1; 2]%Z)
  ∧ ∃ sorted,
      call_list_method (execute 0) 0 0 "sort" [] global_env unsorted_state
      = Ok (VList 1) (set_lists (fun ls => ls ++ [map VInt sorted]) unsorted_state)
      ∧ Sorted Z.le sorted
      ∧ sorted ≡ₚ [3; 1; 2]%Z.
Proof.
  split; [reflexivity|].
  exact (sort_orders_integers (execute 0) 0 0 global_env unsorted_state [3; 1; 2]%Z
           eq_refl).
Defined.

(** ** Dictionary methods ([Interpreter._call_dict_method]) *)

(** [del d[key]] on the entries *)
Fixpoint dict_remove (k : dkey) (d : list (value * value)) : list (value * value) :=
  match d with
  | [] => []
  | (key, v) :: r => if key_matches k key then r else (key, v) :: dict_remove k r
  end.

Section DictMethods.
Variable ex : node → Environment → M value.
Variable depth : nat.

(** [Interpreter._call_dict_method] *)
Definition call_dict_method (d : loc) (method : string) (args : list value)
    (env : Environment) : M value :=
  if method =s? "keys" then
    entries <- gets (fun st => get_dict st d) ;; new_list (map fst entries)
  else if method =s? "values" then
    entries <- gets (fun st => get_dict st d) ;; new_list (map snd entries)
  else if method =s? "entries" then
    entries <- gets (fun st => get_dict st d) ;;
    ps <- new_pairs entries ;;
    new_list ps
  else if method =s? "has" then
    key <- first_arg args "has() needs 1 argument" ;;
    found <- dict_lookup d key ;;
    ret (VBool (bool_decide (is_Some found)))
  else if method =s? "get" then
    key <- first_arg args "get() needs 1-2 arguments" ;;
    let default := match args !! 1 with Some a => a | None => VNull end in
    found <- dict_lookup d key ;;
    ret (match found with Some x => x | None => default end)
  else if (method =s? "remove") || (method =s? "delete") then
    key <- first_arg args (method +:+ "() needs 1 argument") ;;
    match py_hash key with
    | Hashable k =>
        entries <- gets (fun st => get_dict st d) ;;
        match dict_find k entries with
        | Some val => put_dict d (dict_remove k entries) ;;; ret val
        | None => ret VNull
        end
    | Unhashable => raise (HostError TypeError "")
    | NanKey => abort_with (Unmodelled "identity of NaN")
    end
  else if (method =s? "size") || (method =s? "length") then
    entries <- gets (fun st => get_dict st d) ;;
    ret (VInt (Z.of_nat (length entries)))
  else if method =s? "merge" then
    match args with
    | VDict other :: _ =>
        dl <- gets (fun st => get_dict st d) ;;
        dr <- gets (fun st => get_dict st other) ;;
        new_dict (dict_update dl dr)
    | _ => runtime_error "merge() needs a dict argument"
    end
  else if method =s? "clear" then
    put_dict d [] ;;; ret (VDict d)
  else if method =s? "copy" then
    entries <- gets (fun st => get_dict st d) ;; new_dict entries
  else if method =s? "isEmpty" then
    entries <- gets (fun st => get_dict st d) ;;
    ret (VBool (bool_decide (entries = [])))
  else if method =s? "contains" then
    key <- first_arg args "contains() needs 1 argument" ;;
    found <- dict_lookup d key ;;
    ret (VBool (bool_decide (is_Some found)))
  else if method =s? "forEach" then
    fn <- first_arg args "forEach() needs a function argument" ;;
    keys <- gets (fun st => dict_keys st d) ;;
    iterate_dict depth d keys 0 VNull
      (fun k v acc => call_volt_function ex fn [k; v] env ;;; ret (Next acc))
  else if method =s? "map" then
    fn <- first_arg args "map() needs a function argument" ;;
    result <- new_dict [] ;;
    keys <- gets (fun st => dict_keys st d) ;;
    iterate_dict depth d keys 0 result
      (fun k v acc =>
         new_val <- call_volt_function ex fn [k; v] env ;;
         match acc with
         | VDict r => dict_assign r k new_val ;;; ret (Next acc)
         | _ => ret (Next acc)
         end)
  else if method =s? "filter" then
    fn <- first_arg args "filter() needs a function argument" ;;
    result <- new_dict [] ;;
    keys <- gets (fun st => dict_keys st d) ;;
    iterate_dict depth d keys 0 result
      (fun k v acc =>
         keep <- call_volt_function ex fn [k; v] env ;;
         t <- gets (fun st => is_truthy st keep) ;;
         match acc with
         | VDict r => (if t then dict_assign r k v else ret tt) ;;; ret (Next acc)
         | _ => ret (Next acc)
         end)
  else if method =s? "toList" then
    entries <- gets (fun st => get_dict st d) ;;
    ps <- new_pairs entries ;;
    new_list ps
  else runtime_error ("Dict has no method '" +:+ method +:+ "'").

End DictMethods.

Lemma dict_wf_cons key v d :
  dict_wf ((key, v) :: d) = true
  ↔ (∃ k, py_hash key = Hashable k ∧ Hashable k ∉ map (fun kv => py_hash kv.1) d)
    ∧ dict_wf d = true.
Proof.
  unfold dict_wf. simpl. rewrite !andb_true_iff, !bool_decide_eq_true, NoDup_cons.
  split.
  - intros [[Hk Hall] [Hnew Hnd]]. destruct (py_hash key) as [k| |] eqn:Hkey; try done.
    split; [by exists k|done].
  - intros [(k & Hk & Hnew) [Hall Hnd]]. rewrite Hk in *. done.
Qed.

Lemma dict_remove_hashes k d h :
  h ∈ map (fun kv => py_hash kv.1) (dict_remove k d) →
  h ∈ map (fun kv => py_hash kv.1) d.
Proof.
  induction d as [|[key v] d IH]; simpl; [done|].
  destruct (key_matches k key); simpl.
  - intros Hin. by right.
  - intros [->|Hin]%elem_of_cons; [by left|right; by apply IH].
Qed.

Lemma dict_wf_remove k d : dict_wf d = true → dict_wf (dict_remove k d) = true.
Proof.
  induction d as [|[key v] d IH]; [done|].
  intros [(k0 & Hk0 & Hnew) Hwf]%dict_wf_cons. simpl.
  destruct (key_matches k key); [done|].
  apply dict_wf_cons. split; [|by apply IH].
  exists k0. split; [done|]. intros Hin. by apply Hnew, (dict_remove_hashes k).
Qed.

Lemma dict_find_remove k k' d :
  dict_wf d = true →
  dict_find k' (dict_remove k d) = if decide (k' = k) then None else dict_find k' d.
Proof.
  induction d as [|[key v] d IH]; [by destruct (decide _)|].
  intros [(k0 & Hk0 & Hnew) Hwf]%dict_wf_cons. simpl.
  unfold key_matches. rewrite Hk0.
  destruct (decide (k0 = k)) as [->|Hne].
  - rewrite bool_decide_true by done.
    destruct (decide (k' = k)) as [->|Hne'].
    + by apply dict_find_absent.
    + by rewrite bool_decide_false by congruence.
  - rewrite bool_decide_false by congruence. simpl. unfold key_matches.
    rewrite Hk0, IH by done.
    destruct (decide (k' = k)) as [->|Hne']; [|done].
    by rewrite bool_decide_false by congruence.
Qed.

Lemma dict_remove_length k d v :
  dict_find k d = Some v → S (length (dict_remove k d)) = length d.
Proof.
  induction d as [|[key w] d IH]; simpl; [done|].
  destruct (key_matches k key); simpl; [done|]. intros Hd. by rewrite IH.
Qed.

(** [remove(key)] (also named [delete]) on a dictionary, for a hashable
    key.  When the key is present its value is returned and the entry
    disappears: afterwards [has(key)] is false and [get(key, default)]
    returns the default, every other entry is kept and the size has gone
    down by one.  When the key is absent the result is [null] and nothing
    changes; [get] on an absent key does not fail either, it returns the
    default, or [null] without one. *)
Theorem dict_remove_then_has ex depth d env st key k default :
  py_hash key = Hashable k →
  dict_wf (get_dict st d) = true →
  d < length (dicts st) →
  let call st' method args := call_dict_method ex depth d method args env st' in
  match dict_find k (get_dict st d) with
  | Some v =>
      ∃ st',
        call st "remove" [key] = Ok v st'
        ∧ call st "delete" [key] = Ok v st'
        ∧ call st' "has" [key] = Ok (VBool false) st'
        ∧ call st' "get" [key; default] = Ok default st'
        ∧ (∀ k', k' ≠ k → dict_find k' (get_dict st' d) = dict_find k' (get_dict st d))
        ∧ S (length (get_dict st' d)) = length (get_dict st d)
        ∧ dict_wf (get_dict st' d) = true
  | None =>
      call st "remove" [key] = Ok VNull st
      ∧ call st "has" [key] = Ok (VBool false) st
      ∧ call st "get" [key; default] = Ok default st
      ∧ call st "get" [key] = Ok VNull st
  end.
Proof.
  intros Hkey Hwf Hd call. subst call.
  assert (Hhas : ∀ st', dict_find k (get_dict st' d) = None →
            call_dict_method ex depth d "has" [key] env st' = Ok (VBool false) st').
  { intros st' Hnone. unfold call_dict_method. simpl.
    rewrite bind_ret. unfold dict_lookup. by rewrite Hkey, bind_gets, Hnone. }
  assert (Hget : ∀ st' rest, dict_find k (get_dict st' d) = None →
            call_dict_method ex depth d "get" (key :: rest) env st'
            = Ok (match rest with a :: _ => a | [] => VNull end) st').
  { intros st' rest Hnone. unfold call_dict_method. simpl.
    rewrite bind_ret. unfold dict_lookup. rewrite Hkey, bind_gets, Hnone.
    by destruct rest. }
  destruct (dict_find k (get_dict st d)) as [v|] eqn:Hfind.
  - exists (set_dicts (fun ds => <[d := dict_remove k (get_dict st d)]> ds) st).
    assert (Hgone : dict_find k (get_dict (set_dicts (fun ds =>
                       <[d := dict_remove k (get_dict st d)]> ds) st) d) = None).
    { rewrite get_dict_put by done. by rewrite dict_find_remove, decide_True. }
    split; [|split].
    + unfold call_dict_method. simpl. rewrite bind_ret, Hkey, bind_gets, Hfind. done.
    + unfold call_dict_method. simpl. rewrite bind_ret, Hkey, bind_gets, Hfind. done.
    + split; [by apply Hhas|]. split; [by apply (Hget _ [default])|].
      rewrite get_dict_put by done.
      split; [intros k' Hne; by rewrite dict_find_remove, decide_False|].
      split; [by eapply dict_remove_length|by apply dict_wf_remove].
  - split; [|split; [by apply Hhas|split; [by apply (Hget _ [default])|by apply (Hget _ [])]]].
    unfold call_dict_method. simpl. by rewrite bind_ret, Hkey, bind_gets, Hfind.
Qed.

(** The state after [set d = {"a": 1}]. *)
Definition one_entry_state : state :=
  final_state
    (run 5 [Assignment (Identifier "d")
              (DictLiteral [(StringLiteral "a", NumberLiteral (NInt 1))])] [] ∅).

Lemma dict_remove_then_has_witness :
  py_hash (VStr "a") = Hashable (KStr "a")
  ∧ dict_wf (get_dict one_entry_state 0) = true
  ∧ 0 < length (dicts one_entry_state)
  ∧ ∃ st',
      call_dict_method (execute 0) 0 0 "remove" [VStr "a"] global_env one_entry_state
      = Ok (VInt 1) st'
      ∧ call_dict_method (execute 0) 0 0 "has" [VStr "a"] global_env st'
        = Ok (VBool false) st'.
Proof.
  assert (Hwf : dict_wf (get_dict one_entry_state 0) = true) by (by vm_compute).
  assert (Hd : 0 < length (dicts one_entry_state)) by (vm_compute; lia).
  split; [reflexivity|]. split; [exact Hwf|]. split; [exact Hd|].
  pose proof (dict_remove_then_has (execute 0) 0 0 global_env one_entry_state (VStr "a")
                (KStr "a") VNull eq_refl Hwf Hd) as H.
  change (dict_find (KStr "a") (get_dict one_entry_state 0)) with (Some (VInt 1)) in H.
  destruct H as (st' & Hremove & _ & Hhas & _).
  exists st'. split; [exact Hremove|exact Hhas].
Defined.

(** [merge(other)] is the operator [+] on two dictionaries: it returns a
    new dictionary and leaves both operands as they were.  [copy()]
    returns a new dictionary with the same entries in the same order, at a
    location of its own, so that a later change of the copy or of the
    receiver does not reach the other. *)
Theorem dict_merge_is_plus ex depth d other env st :
  call_dict_method ex depth d "merge" [VDict other] env st
  = add_values ex depth (VDict d) (VDict other) st
  ∧ (∃ st',
       call_dict_method ex depth d "copy" [] env st = Ok (VDict (length (dicts st))) st'
       ∧ dicts st !! length (dicts st) = None
       ∧ get_dict st' (length (dicts st)) = get_dict st d
       ∧ (∀ l, l < length (dicts st) → get_dict st' l = get_dict st l)
       ∧ lists st' = lists st ∧ frames st' = frames st).
Proof.
  split; [reflexivity|].
  unfold call_dict_method. simpl. rewrite bind_gets. unfold new_dict.
  eexists. split; [reflexivity|]. simpl.
  split; [by apply lookup_ge_None|].
  split; [unfold get_dict at 1; simpl;
          by rewrite lookup_app_r, Nat.sub_diag by done|].
  split; [|done]. intros l Hl. unfold get_dict; simpl. by rewrite lookup_app_l.
Qed.

(** ** Destructuring *)

Lemma env_set_frame env x v st :
  variables env < length (frames st) →
  ∃ st',
    env_set env x v st = Ok tt st'
    ∧ frame_vars st' (variables env) = <[x := v]> (frame_vars st (variables env))
    ∧ (∀ l, l ≠ variables env → frame_vars st' l = frame_vars st l)
    ∧ length (frames st') = length (frames st)
    ∧ lists st' = lists st ∧ dicts st' = dicts st
    ∧ instances st' = instances st ∧ stdout st' = stdout st.
Proof.
  intros Hl. unfold env_set, modify. eexists. split; [reflexivity|].
  split; [|split; [|split; [|done]]].
  - unfold frame_vars; simpl. unfold loc in *. by rewrite list_lookup_insert_eq.
  - intros l Hne. by apply frame_vars_set_frames_insert_ne.
  - simpl. by rewrite length_insert.
Qed.

Lemma set_all_frame env :
  ∀ bindings st,
    variables env < length (frames st) →
    ∃ st',
      set_all bindings env st = Ok tt st'
      ∧ frame_vars st' (variables env)
        = foldl (fun m b => <[b.1 := b.2]> m) (frame_vars st (variables env)) bindings
      ∧ (∀ l, l ≠ variables env → frame_vars st' l = frame_vars st l)
      ∧ length (frames st') = length (frames st)
      ∧ lists st' = lists st ∧ dicts st' = dicts st
      ∧ instances st' = instances st ∧ stdout st' = stdout st.
Proof.
  induction bindings as [|[x v] bindings IH]; intros st Hl; simpl.
  - by exists st.
  - destruct (env_set_frame env x v st Hl)
      as (s1 & Hset & Hvars & Hother & Hlen & Hlists & Hdicts & Hinst & Hout).
    destruct (IH s1) as (st' & Hrun & Hvars' & Hother' & Hlen' & Hlists' & Hdicts' & Hinst'
                         & Hout'); [lia|].
    exists st'. rewrite (bind_Ok _ _ _ _ _ Hset), Hrun. split; [done|].
    split; [by rewrite Hvars', Hvars|].
    split; [intros l Hne; by rewrite Hother', Hother|].
    split; [lia|]. split; [congruence|]. split; [congruence|]. split; congruence.
Qed.

Lemma foldl_insert_absent (y : string) (bindings : list (string * value)) :
  ∀ m : gmap string value,
    y ∉ map fst bindings →
    foldl (fun m b => <[b.1 := b.2]> m) m bindings !! y = m !! y.
Proof.
  induction bindings as [|[x v] bindings IH]; intros m Hy; simpl; [done|].
  simpl in Hy. apply not_elem_of_cons in Hy as [Hne Hy].
  rewrite IH by done. by rewrite lookup_insert_ne.
Qed.

Lemma foldl_insert_present (names : list string) :
  ∀ (xs : list value) (m : gmap string value) i x v,
    NoDup names →
    names !! i = Some x → xs !! i = Some v →
    foldl (fun m b => <[b.1 := b.2]> m) m (zip names xs) !! x = Some v.
Proof.
  induction names as [|y names IH]; intros xs m i x v Hnd Hx Hv; [done|].
  apply NoDup_cons in Hnd as [Hy Hnd].
  destruct xs as [|w xs]; [done|]. destruct i as [|i]; simpl in *.
  - injection Hx as ->. injection Hv as ->.
    rewrite foldl_insert_absent; [by rewrite lookup_insert_eq|].
    intros Hin. apply Hy. apply list_elem_of_fmap in Hin as ([a b] & -> & Hin).
    by apply elem_of_zip_l in Hin.
  - by apply (IH xs _ i).
Qed.

Lemma zip_names_absent (y : string) (names : list string) (xs : list value) :
  y ∉ names → y ∉ map fst (zip names xs).
Proof.
  intros Hy Hin. apply Hy. apply list_elem_of_fmap in Hin as ([a b] & -> & Hin).
  by apply elem_of_zip_l in Hin.
Qed.

(** Destructuring a list, [set [a, b] = value].  With at least as many
    elements as names, each name is bound to the element at its position,
    in the current frame (also when an enclosing frame binds the name,
    which keeps its value); the elements beyond the last name are
    ignored, and nothing else changes.  With fewer elements than names the
    statement fails with the runtime error
    [Not enough values to destructure: expected n, got m] before it binds
    any name. *)
Theorem list_destructuring_is_all_or_nothing fuel names value_node env st l s1 :
  execute fuel value_node env st = Ok (VList l) s1 →
  variables env < length (frames s1) →
  NoDup names →
  let xs := get_list s1 l in
  let run := execute (S fuel) (DestructureList names value_node) env st in
  (length names ≤ length xs →
   ∃ st',
     run = Ok VNull st'
     ∧ (∀ i x v, names !! i = Some x → xs !! i = Some v →
                 frame_vars st' (variables env) !! x = Some v)
     ∧ (∀ y, y ∉ names →
             frame_vars st' (variables env) !! y = frame_vars s1 (variables env) !! y)
     ∧ (∀ l', l' ≠ variables env → frame_vars st' l' = frame_vars s1 l')
     ∧ lists st' = lists s1 ∧ dicts st' = dicts s1 ∧ stdout st' = stdout s1)
  ∧ (length xs < length names →
     run = Raise (VoltRuntimeError
                    ("Not enough values to destructure: expected " +:+
                     str_of_Z (Z.of_nat (length names)) +:+ ", got " +:+
                     str_of_Z (Z.of_nat (length xs)))) s1).
Proof.
  intros Hvalue Hframe Hnd xs run. subst run.
  rewrite execute_S. simpl. unfold exec_DestructureList.
  rewrite (bind_Ok _ _ _ _ _ Hvalue), bind_read_list. fold xs. split.
  - intros Hlen. destruct (Nat.ltb_spec (length xs) (length names)); [lia|].
    destruct (set_all_frame env (zip names xs) s1 Hframe)
      as (st' & Hrun & Hvars & Hother & _ & Hlists & Hdicts & _ & Hout).
    exists st'. rewrite (bind_Ok _ _ _ _ _ Hrun). split; [done|].
    split; [|split; [|done]].
    + intros i x v Hx Hv. rewrite Hvars. by apply (foldl_insert_present names xs _ i).
    + intros y Hy. rewrite Hvars. by apply foldl_insert_absent, zip_names_absent.
  - intros Hlen. by destruct (Nat.ltb_spec (length xs) (length names)); [|lia].
Qed.

(** With [a = [1]], the statement [set [x, y] = a] fails and binds
    nothing. *)
Lemma list_destructuring_is_all_or_nothing_witness :
  execute 3 (Identifier "a") global_env one_list_state = Ok (VList 0) one_list_state
  ∧ variables global_env < length (frames one_list_state)
  ∧ NoDup ["x"; "y"]
  ∧ execute 4 (DestructureList ["x"; "y"] (Identifier "a")) global_env one_list_state
    = Raise (VoltRuntimeError "Not enough values to destructure: expected 2, got 1")
        one_list_state.
Proof.
  assert (Ha : execute 3 (Identifier "a") global_env one_list_state
               = Ok (VList 0) one_list_state) by reflexivity.
  assert (Hframe : variables global_env < length (frames one_list_state))
    by (vm_compute; lia).
  assert (Hnd : NoDup ["x"; "y"]).
  { apply NoDup_cons. split; [|apply NoDup_singleton].
    intros Hin%list_elem_of_singleton. discriminate Hin. }
  split; [exact Ha|]. split; [exact Hframe|]. split; [exact Hnd|].
  destruct (list_destructuring_is_all_or_nothing 3 ["x"; "y"] (Identifier "a") global_env
              one_list_state 0 one_list_state Ha Hframe Hnd) as [_ Hshort].
  apply Hshort. vm_compute. lia.
Defined.

Lemma destructure_names_found env (find : string → M (option value))
    (missing : string → string) (lookup : string → option value) (P : state → Prop) :
  (∀ x st, P st → find x st = Ok (lookup x) st) →
  (∀ x v st, P st → variables env < length (frames st) →
     ∀ st', env_set env x v st = Ok tt st' → P st') →
  ∀ pre name post st,
    P st →
    variables env < length (frames st) →
    Forall (fun x => is_Some (lookup x)) pre →
    lookup name = None →
    ∃ st',
      destructure_names (pre ++ name :: post) find missing env st
      = Raise (VoltRuntimeError (missing name)) st'
      ∧ (∀ x, x ∈ pre → frame_vars st' (variables env) !! x = lookup x)
      ∧ (∀ y, y ∉ pre →
              frame_vars st' (variables env) !! y = frame_vars st (variables env) !! y)
      ∧ (∀ l, l ≠ variables env → frame_vars st' l = frame_vars st l).
Proof.
  intros Hfind Hkeep. induction pre as [|x pre IH]; intros name post st HP Hl Hpre Hname.
  - exists st. simpl. rewrite (bind_Ok _ _ _ _ _ (Hfind name st HP)), Hname.
    split; [done|]. split; [|done]. intros x Hx. by apply elem_of_nil in Hx.
  - apply Forall_cons in Hpre as [[v Hv] Hpre]. simpl.
    rewrite (bind_Ok _ _ _ _ _ (Hfind x st HP)), Hv.
    destruct (env_set_frame env x v st Hl)
      as (s1 & Hset & Hvars & Hother & Hlen & _).
    rewrite (bind_Ok _ _ _ _ _ Hset).
    destruct (IH name post s1) as (st' & Hrun & Hbound & Hrest & Hother');
      [by eapply Hkeep|lia|done|done|].
    exists st'. split; [done|]. split; [|split].
    + intros y Hy. destruct (decide (y ∈ pre)) as [Hin|Hout]; [by apply Hbound|].
      apply elem_of_cons in Hy as [->|Hy]; [|done].
      by rewrite Hrest, Hvars, lookup_insert_eq.
    + intros y Hy. apply not_elem_of_cons in Hy as [Hne Hy].
      by rewrite Hrest, Hvars, lookup_insert_ne.
    + intros l' Hne. by rewrite Hother', Hother.
Qed.

(** Destructuring a dictionary, [set {a, b} = value], takes the names in
    order and stops at the first one that is not a key: it fails with the
    runtime error [Key 'name' not found in dict], and the names before it
    stay bound, in the current frame, to their entries.  Unlike the
    destructuring of a list, the statement is not all or nothing. *)
Theorem dict_destructuring_stops_at_missing_key fuel pre name post value_node env st d s1 :
  execute fuel value_node env st = Ok (VDict d) s1 →
  variables env < length (frames s1) →
  Forall (fun x => is_Some (dict_find (KStr x) (get_dict s1 d))) pre →
  dict_find (KStr name) (get_dict s1 d) = None →
  ∃ st',
    execute (S fuel) (DestructureDict (pre ++ name :: post) value_node) env st
    = Raise (VoltRuntimeError ("Key '" +:+ name +:+ "' not found in dict")) st'
    ∧ (∀ x, x ∈ pre →
            frame_vars st' (variables env) !! x = dict_find (KStr x) (get_dict s1 d))
    ∧ (∀ y, y ∉ pre →
            frame_vars st' (variables env) !! y = frame_vars s1 (variables env) !! y)
    ∧ (∀ l, l ≠ variables env → frame_vars st' l = frame_vars s1 l).
Proof.
  intros Hvalue Hframe Hpre Hname.
  rewrite execute_S. simpl. unfold exec_DestructureDict.
  rewrite (bind_Ok _ _ _ _ _ Hvalue).
  destruct (destructure_names_found env
              (fun x => gets (fun st => dict_find (KStr x) (get_dict st d)))
              (fun x => "Key '" +:+ x +:+ "' not found in dict")
              (fun x => dict_find (KStr x) (get_dict s1 d))
              (fun st => dicts st = dicts s1)) with (pre := pre) (name := name)
              (post := post) (st := s1)
    as (st' & Hrun & Hbound); try done.
  - intros x st0 Hst0. unfold gets, get_dict. by rewrite Hst0.
  - intros x v st0 Hst0 Hl st' Hset.
    destruct (env_set_frame env x v st0 Hl) as (s2 & Hset' & _ & _ & _ & _ & Hdicts & _).
    rewrite Hset in Hset'. injection Hset' as <-. congruence.
  - exists st'. split; [|done]. by rewrite (bind_Raise _ _ _ _ _ Hrun).
Qed.

(** With [d = {"a": 1}], the statement [set {a, b} = d] fails on [b] after
    it has bound [a]. *)
Lemma dict_destructuring_stops_at_missing_key_witness :
  execute 3 (Identifier "d") global_env one_entry_state = Ok (VDict 0) one_entry_state
  ∧ variables global_env < length (frames one_entry_state)
  ∧ Forall (fun x => is_Some (dict_find (KStr x) (get_dict one_entry_state 0))) ["a"]
  ∧ dict_find (KStr "b") (get_dict one_entry_state 0) = None
  ∧ ∃ st',
      execute 4 (DestructureDict ["a"; "b"] (Identifier "d")) global_env one_entry_state
      = Raise (VoltRuntimeError "Key 'b' not found in dict") st'
      ∧ frame_vars st' (variables global_env) !! "a" = Some (VInt 1).
Proof.
  assert (Hd : execute 3 (Identifier "d") global_env one_entry_state
               = Ok (VDict 0) one_entry_state) by reflexivity.
  assert (Hframe : variables global_env < length (frames one_entry_state))
    by (vm_compute; lia).
  assert (Hpre : Forall (fun x => is_Some (dict_find (KStr x) (get_dict one_entry_state 0)))
                   ["a"]) by (repeat constructor; by exists (VInt 1)).
  assert (Hname : dict_find (KStr "b") (get_dict one_entry_state 0) = None) by reflexivity.
  split; [exact Hd|]. split; [exact Hframe|]. split; [exact Hpre|]. split; [exact Hname|].
  destruct (dict_destructuring_stops_at_missing_key 3 ["a"] "b" [] (Identifier "d")
              global_env one_entry_state 0 one_entry_state Hd Hframe Hpre Hname)
    as (st' & Hrun & Hbound & _).
  exists st'. split; [exact Hrun|].
  rewrite (Hbound "a") by (by left). reflexivity.
Defined.

(** ** Number methods and built-in functions *)

(** [abs(v)] *)
Definition py_abs (v : value) : host_error + value :=
  match v with
  | VBool b => inr (VInt (if b then 1 else 0))
  | VInt z => inr (VInt (Z.abs z))
  | VFloat f => inr (VFloat (SFabs f))
  | _ => inl TypeError
  end.

(** [float(v)] for a number *)
Definition py_float_conv (v : value) : host_error + spec_float :=
  match v with
  | VBool b =>
      match float_of_Z (if b then 1 else 0) with
      | Some f => inr f
      | None => inl OverflowError
      end
  | VInt z =>
      match float_of_Z z with
      | Some f => inr f
      | None => inl OverflowError
      end
  | VFloat f => inr f
  | VStr s => match py_float s with Some f => inr f | None => inl ValueError end
  | _ => inl TypeError
  end.

(** [min(a, b)] and [max(a, b)] of two values: the first one is kept
    unless the second is strictly smaller, respectively greater. *)
Definition py_min2 (a b : value) : M value :=
  r <- lift_abort (py_extremum false [a; b]) ;; lift_host r.

Definition py_max2 (a b : value) : M value :=
  r <- lift_abort (py_extremum true [a; b]) ;; lift_host r.

Section NumberMethods.
Variable ex : node → Environment → M value.
Variable depth : nat.

(** [Interpreter._call_number_method] *)
Definition call_number_method (n : value) (method : string) (args : list value)
    : M value :=
  if (method =s? "toStr") || (method =s? "toString") then
    s <- to_string ex depth n ;; ret (VStr s)
  else if method =s? "toInt" then
    z <- lift_host (py_int_conv n) ;; ret (VInt z)
  else if method =s? "toFloat" then
    f <- lift_host (py_float_conv n) ;; ret (VFloat f)
  else if method =s? "abs" then lift_host (py_abs n)
  else if method =s? "isEven" then
    z <- lift_host (py_int_conv n) ;; ret (VBool (z mod 2 =? 0)%Z)
  else if method =s? "isOdd" then
    z <- lift_host (py_int_conv n) ;; ret (VBool (negb (z mod 2 =? 0)%Z))
  else if method =s? "isPositive" then compare_values ">" n (VInt 0)
  else if method =s? "isNegative" then compare_values "<" n (VInt 0)
  else if method =s? "isZero" then ret (VBool (equals_zero n))
  else if method =s? "clamp" then
    match args with
    | lo :: hi :: _ => m <- py_min2 n hi ;; py_max2 lo m
    | _ => runtime_error "clamp() needs 2 arguments (min, max)"
    end
  else runtime_error ("Number has no method '" +:+ method +:+ "'").

End NumberMethods.

(** [Interpreter._bi_len] *)
Definition bi_len (args : list value) : M value :=
  match args with
  | [v] =>
      match v with
      | VList l => xs <- read_list l ;; ret (VInt (Z.of_nat (length xs)))
      | VStr s => ret (VInt (Z.of_nat (String.length s)))
      | VDict l =>
          entries <- gets (fun st => get_dict st l) ;;
          ret (VInt (Z.of_nat (length entries)))
      | _ => runtime_error ("len() not supported for " +:+ type_name v)
      end
  | _ => runtime_error "len() takes 1 argument"
  end.

(** [Interpreter._bi_type] *)
Definition bi_type (args : list value) : M value :=
  match args with
  | [v] => ret (VStr (type_name v))
  | _ => runtime_error "type() takes 1 argument"
  end.

(** [Interpreter._bi_bool] *)
Definition bi_bool (args : list value) : M value :=
  match args with
  | [v] => t <- gets (fun st => is_truthy st v) ;; ret (VBool t)
  | _ => runtime_error "bool() takes 1 argument"
  end.

(** The loop of [_bi_isinstance]: [check is klass] along the parent links.
    Two class objects are the same object when they have the same
    identity. *)
Fixpoint in_class_chain (check : VoltClass) (klass_id : nat) : bool :=
  match check with
  | mkClass id _ p _ _ =>
      (id =? klass_id)
      || match p with
         | Some c => in_class_chain c klass_id
         | None => false
         end
  end.

(** [Interpreter._bi_isinstance] *)
Definition bi_isinstance (args : list value) : M value :=
  match args with
  | [obj; cls] =>
      match cls with
      | VClass k =>
          match obj with
          | VInst i => ret (VBool (in_class_chain (klass i) (cls_id k)))
          | _ => ret (VBool false)
          end
      | _ => runtime_error "Second argument to isinstance() must be a class"
      end
  | _ => runtime_error "isinstance() takes 2 arguments"
  end.

(** [Interpreter._bi_reverse]; reversing a string is on its characters. *)
Definition bi_reverse (args : list value) : M value :=
  match args with
  | [v] =>
      match v with
      | VList l => xs <- read_list l ;; new_list (rev xs)
      | VStr s => ret (VStr (text (rev (chars s))))
      | _ => runtime_error "reverse() requires a list or string"
      end
  | _ => runtime_error "reverse() takes 1 argument"
  end.

(** [Interpreter._bi_sort] *)
Definition bi_sort (args : list value) : M value :=
  match args with
  | [VList l] =>
      xs <- read_list l ;;
      r <- lift_abort (py_sorted xs) ;;
      ys <- lift_host r ;;
      new_list ys
  | _ => runtime_error "sort() takes 1 list argument"
  end.

(** [Interpreter._bi_keys] *)
Definition bi_keys (args : list value) : M value :=
  match args with
  | [VDict d] => entries <- gets (fun st => get_dict st d) ;; new_list (map fst entries)
  | _ => runtime_error "keys() takes 1 dict argument"
  end.

(** [Interpreter._bi_values] *)
Definition bi_values (args : list value) : M value :=
  match args with
  | [VDict d] => entries <- gets (fun st => get_dict st d) ;; new_list (map snd entries)
  | _ => runtime_error "values() takes 1 dict argument"
  end.

(** [Interpreter._bi_min] ([gt = false]) and [Interpreter._bi_max]
    ([gt = true]): of the elements of a single list argument, otherwise of
    the arguments themselves. *)
Definition bi_extremum (gt : bool) (args : list value) : M value :=
  match args with
  | [VList l] =>
      xs <- read_list l ;;
      r <- lift_abort (py_extremum gt xs) ;;
      lift_host r
  | _ => r <- lift_abort (py_extremum gt args) ;; lift_host r
  end.

Definition bi_min : list value → M value := bi_extremum false.
Definition bi_max : list value → M value := bi_extremum true.

(** [chr(n)]: the character of an ASCII code; other code points are not
    embedded; a number that is no code point is a [ValueError]; which
    exception a number beyond the machine integer of the host gets is not
    embedded. *)
Definition py_chr (n : Z) : M value :=
  if (0 <=? n)%Z && (n <? 128)%Z then
    ret (VStr (String (ascii_of_nat (Z.to_nat n)) EmptyString))
  else if (128 <=? n)%Z && (n <? 1114112)%Z then
    abort_with (Unmodelled "character outside ASCII")
  else if (n <? - 2 ^ 31)%Z || (2 ^ 31 <=? n)%Z then
    abort_with (Unmodelled "chr beyond the machine integer")
  else raise (HostError ValueError "").

(** [Interpreter._bi_char] *)
Definition bi_char (args : list value) : M value :=
  match args with
  | [v] => n <- lift_host (py_int_conv v) ;; py_chr n
  | _ => runtime_error "char() takes 1 argument"
  end.

(** [Interpreter._bi_ord]; the code of an ASCII character. *)
Definition bi_ord (args : list value) : M value :=
  match args with
  | [VStr (String c EmptyString)] =>
      if nat_of_ascii c <? 128 then ret (VInt (Z.of_nat (nat_of_ascii c)))
      else abort_with (Unmodelled "character outside ASCII")
  | _ => runtime_error "ord() takes a single character string"
  end.

Lemma py_lt_integers (a b : Z) : py_lt (VInt a) (VInt b) = inr (inr (a <? b)%Z).
Proof. reflexivity. Qed.

(** [n.clamp(lo, hi)] on integers is [max(lo, min(n, hi))]: with
    [lo <= hi] the result lies between the bounds, it is [n] itself when
    [n] does, the nearer bound otherwise; with [hi < lo] the result is
    [lo]. *)
Theorem clamp_stays_within_bounds ex depth n lo hi st :
  ∃ r,
    call_number_method ex depth (VInt n) "clamp" [VInt lo; VInt hi] st = Ok (VInt r) st
    ∧ r = Z.max lo (Z.min n hi)
    ∧ ((lo ≤ hi)%Z → (lo ≤ r ≤ hi)%Z)
    ∧ ((lo ≤ n ≤ hi)%Z → r = n)
    ∧ ((hi < lo)%Z → r = lo).
Proof.
  exists (Z.max lo (Z.min n hi)). split; [|lia].
  unfold call_number_method. simpl. unfold py_min2, py_max2, py_extremum, bind. simpl.
  destruct (Z.compare_spec hi n); simpl;
    match goal with
    | |- context [(lo ?= ?x)%Z] => destruct (Z.compare_spec lo x)
    end; simpl; do 2 f_equal; lia.
Qed.

Lemma in_class_chain_spec c id :
  in_class_chain c id = true ↔ id ∈ map cls_id (class_chain c).
Proof.
  induction c as [i n ms e | i n p ms e IH] using VoltClass_chain_ind; simpl.
  - rewrite orb_false_r, Nat.eqb_eq. rewrite list_elem_of_singleton. by split.
  - rewrite orb_true_iff, Nat.eqb_eq, IH, elem_of_cons.
    split; (intros [?|?]; [by left|by right]).
Qed.

Lemma find_method_inherited k c name :
  c ∈ class_chain k → is_Some (find_method c name) → is_Some (find_method k name).
Proof.
  induction k as [i n ms e | i n p ms e IH] using VoltClass_chain_ind; simpl.
  - by intros ->%list_elem_of_singleton.
  - intros [->|Hin]%elem_of_cons; [done|]. intros Hc.
    destruct (ms !! name); [done|]. by apply IH.
Qed.

(** [isinstance(obj, C)] walks the class chain of the instance and compares
    class objects by identity: it is true exactly when the identity of [C]
    is that of the class of the instance or of one of its ancestors, and it
    is false for every value that is not an instance.  When [C] is on the
    chain of the instance, the instance answers to every method that [C]
    itself answers to. *)
Theorem isinstance_follows_class_chain i c st :
  bi_isinstance [VInst i; VClass c] st
  = Ok (VBool (bool_decide (cls_id c ∈ map cls_id (class_chain (klass i))))) st
  ∧ (c ∈ class_chain (klass i) →
     bi_isinstance [VInst i; VClass c] st = Ok (VBool true) st
     ∧ ∀ name, is_Some (find_method c name) → is_Some (find_method (klass i) name))
  ∧ (∀ v, (∀ j, v ≠ VInst j) → bi_isinstance [v; VClass c] st = Ok (VBool false) st).
Proof.
  split; [|split].
  - simpl. unfold ret. do 2 f_equal.
    destruct (in_class_chain (klass i) (cls_id c)) eqn:Hin; symmetry.
    + by apply bool_decide_eq_true, in_class_chain_spec.
    + apply bool_decide_eq_false. intros Hc. apply in_class_chain_spec in Hc. congruence.
  - intros Hc. split.
    + simpl. unfold ret. do 2 f_equal. apply in_class_chain_spec.
      by apply list_elem_of_fmap_2.
    + intros name. by apply find_method_inherited.
  - intros v Hv. destruct v; try done. by destruct (Hv i0).
Qed.

(** With [class A {}] and [class B extends A {}], an instance of [B] is an
    instance of [A]. *)
Lemma isinstance_follows_class_chain_witness :
  let class_A := mkClass 0 "A" None ∅ global_env in
  let class_B := mkClass 1 "B" (Some class_A) ∅ global_env in
  class_A ∈ class_chain (klass (mkInstance class_B 0))
  ∧ bi_isinstance [VInst (mkInstance class_B 0); VClass class_A] (initial_state [] ∅)
    = Ok (VBool true) (initial_state [] ∅).
Proof.
  intros class_A class_B.
  assert (Hin : class_A ∈ class_chain (klass (mkInstance class_B 0)))
    by (simpl; apply elem_of_cons; right; apply list_elem_of_singleton; reflexivity).
  split; [exact Hin|].
  destruct (isinstance_follows_class_chain (mkInstance class_B 0) class_A
              (initial_state [] ∅)) as (_ & Hchain & _).
  exact (proj1 (Hchain Hin)).
Defined.

(** The built-in functions [len], [reverse], [sort], [min], [max], [keys]
    and [values], applied to one list or to one dictionary, do what the
    method of the same name does on it ([len] is the method [length], and
    the methods [size] and [length] on a dictionary); the property
    [length] of a list is the same number. *)
Theorem builtins_agree_with_methods ex depth env st l d :
  bi_len [VList l] st = call_list_method ex depth l "length" [] env st
  ∧ bi_reverse [VList l] st = call_list_method ex depth l "reverse" [] env st
  ∧ bi_sort [VList l] st = call_list_method ex depth l "sort" [] env st
  ∧ bi_min [VList l] st = call_list_method ex depth l "min" [] env st
  ∧ bi_max [VList l] st = call_list_method ex depth l "max" [] env st
  ∧ bi_len [VDict d] st = call_dict_method ex depth d "size" [] env st
  ∧ bi_len [VDict d] st = call_dict_method ex depth d "length" [] env st
  ∧ bi_keys [VDict d] st = call_dict_method ex depth d "keys" [] env st
  ∧ bi_values [VDict d] st = call_dict_method ex depth d "values" [] env st
  ∧ (∀ fuel obj st0,
       execute fuel obj env st0 = Ok (VList l) st →
       execute (S fuel) (DotAccess obj "length") env st0 = bi_len [VList l] st).
Proof.
  repeat split.
  intros fuel obj st0 Hobj. rewrite execute_S. simpl.
  unfold exec_DotAccess. by rewrite (bind_Ok _ _ _ _ _ Hobj).
Qed.

Lemma builtins_agree_with_methods_witness :
  execute 3 (Identifier "a") global_env one_list_state = Ok (VList 0) one_list_state
  ∧ execute 4 (DotAccess (Identifier "a") "length") global_env one_list_state
    = Ok (VInt 1) one_list_state
  ∧ bi_len [VList 0] one_list_state = Ok (VInt 1) one_list_state.
Proof.
  assert (Ha : execute 3 (Identifier "a") global_env one_list_state
               = Ok (VList 0) one_list_state) by reflexivity.
  destruct (builtins_agree_with_methods (execute 0) 0 global_env one_list_state 0 0)
    as (_ & _ & _ & _ & _ & _ & _ & _ & _ & Hdot).
  split; [exact Ha|]. split; [|reflexivity].
  rewrite (Hdot 3 (Identifier "a") one_list_state Ha). reflexivity.
Defined.

Lemma py_extremum_integers gt (z : Z) zs :
  py_extremum_from gt (VInt z) (map VInt zs)
  = inr (inr (VInt (foldl (if gt then Z.max else Z.min) z zs))).
Proof.
  revert z. induction zs as [|y zs IH]; intros z; simpl; [done|].
  destruct gt; rewrite py_lt_integers.
  - destruct (Z.ltb_spec z y); rewrite IH; do 4 f_equal; lia.
  - destruct (Z.ltb_spec y z); rewrite IH; do 4 f_equal; lia.
Qed.

Lemma foldl_min_least (z : Z) zs :
  let m := foldl Z.min z zs in
  m ∈ z :: zs ∧ ∀ y, y ∈ z :: zs → (m ≤ y)%Z.
Proof.
  revert z. induction zs as [|x zs IH]; intros z; simpl.
  - split; [by left|]. by intros y ->%list_elem_of_singleton.
  - destruct (IH (Z.min z x)) as [Hin Hle]. split.
    + apply elem_of_cons in Hin as [Heq|Hin]; [|by do 2 right].
      rewrite Heq. destruct (Z.min_spec z x) as [[_ ->]|[_ ->]]; [by left|right; by left].
    + intros y Hy.
      assert (Hmin : (foldl Z.min (Z.min z x) zs ≤ Z.min z x)%Z) by (apply Hle; by left).
      apply elem_of_cons in Hy as [->|Hy]; [lia|].
      apply elem_of_cons in Hy as [->|Hy]; [lia|]. apply Hle. by right.
Qed.

Lemma foldl_max_greatest (z : Z) zs :
  let m := foldl Z.max z zs in
  m ∈ z :: zs ∧ ∀ y, y ∈ z :: zs → (y ≤ m)%Z.
Proof.
  revert z. induction zs as [|x zs IH]; intros z; simpl.
  - split; [by left|]. by intros y ->%list_elem_of_singleton.
  - destruct (IH (Z.max z x)) as [Hin Hle]. split.
    + apply elem_of_cons in Hin as [Heq|Hin]; [|by do 2 right].
      rewrite Heq. destruct (Z.max_spec z x) as [[_ ->]|[_ ->]]; [right; by left|by left].
    + intros y Hy.
      assert (Hmax : (Z.max z x ≤ foldl Z.max (Z.max z x) zs)%Z) by (apply Hle; by left).
      apply elem_of_cons in Hy as [->|Hy]; [lia|].
      apply elem_of_cons in Hy as [->|Hy]; [lia|]. apply Hle. by right.
Qed.

(** The built-in functions [min] and [max] on integers, given as arguments
    or as one list, and the list methods of the same names: the result is
    one of the integers, and none of them is smaller, respectively
    greater.  Of no values at all (no argument, an empty list) they raise
    the [ValueError] of the host. *)
Theorem min_and_max_of_integers ex depth env st l zs :
  zs ≠ [] →
  ∃ least greatest,
    bi_min (map VInt zs) st = Ok (VInt least) st
    ∧ bi_max (map VInt zs) st = Ok (VInt greatest) st
    ∧ (lists st !! l = Some (map VInt zs) →
       bi_min [VList l] st = Ok (VInt least) st
       ∧ call_list_method ex depth l "max" [] env st = Ok (VInt greatest) st)
    ∧ least ∈ zs ∧ greatest ∈ zs
    ∧ (∀ z, z ∈ zs → (least ≤ z ≤ greatest)%Z)
    ∧ bi_min [] st = Raise (HostError ValueError "") st.
Proof.
  intros Hzs. destruct zs as [|z zs]; [done|].
  destruct (foldl_min_least z zs) as [Hmin_in Hmin].
  destruct (foldl_max_greatest z zs) as [Hmax_in Hmax].
  exists (foldl Z.min z zs), (foldl Z.max z zs).
  assert (Hargs : ∀ gt, bi_extremum gt (map VInt (z :: zs)) st
            = Ok (VInt (foldl (if gt then Z.max else Z.min) z zs)) st).
  { intros gt. unfold bi_extremum.
    assert (Hext : (r <- lift_abort (py_extremum gt (map VInt (z :: zs))) ;; lift_host r) st
                   = Ok (VInt (foldl (if gt then Z.max else Z.min) z zs)) st)
      by (simpl; by rewrite py_extremum_integers).
    destruct zs; simpl map; [|exact Hext]. by destruct gt. }
  split; [apply (Hargs false)|]. split; [apply (Hargs true)|].
  split; [|split; [done|split; [done|split; [|done]]]].
  - intros Hl.
    assert (Hxs : get_list st l = VInt z :: map VInt zs) by (unfold get_list; by rewrite Hl).
    split.
    + unfold bi_min, bi_extremum. rewrite bind_read_list, Hxs. simpl.
      by rewrite py_extremum_integers.
    + unfold call_list_method. simpl. rewrite bind_read_list, Hxs. simpl.
      by rewrite py_extremum_integers.
  - intros y Hy. split; [by apply Hmin|by apply Hmax].
Qed.

(** [min(3, 1, 2)] is 1 and [max(3, 1, 2)] is 3. *)
Lemma min_and_max_of_integers_witness :
  [3; 1; 2]%Z ≠ []
  ∧ ∃ least greatest,
      bi_min [VInt 3; VInt 1; VInt 2] (initial_state [] ∅)
      = Ok (VInt least) (initial_state [] ∅)
      ∧ bi_max [VInt 3; VInt 1; VInt 2] (initial_state [] ∅)
        = Ok (VInt greatest) (initial_state [] ∅)
      ∧ least ∈ [3; 1; 2]%Z ∧ greatest ∈ [3; 1; 2]%Z.
Proof.
  assert (Hne : [3; 1; 2]%Z ≠ []) by discriminate.
  split; [exact Hne|].
  destruct (min_and_max_of_integers (execute 0) 0 global_env (initial_state [] ∅) 0
              [3; 1; 2]%Z Hne)
    as (least & greatest & Hmin & Hmax & _ & Hleast & Hgreatest & _).
  exists least, greatest. repeat split; assumption.
Defined.

(** [char] and [ord] are inverse to each other on ASCII: for a code [n]
    from 0 to 127, [ord(char(n))] is [n], and for an ASCII character [c],
    [char(ord(c))] is [c]; neither changes the state.  A negative number is
    not a character: [char] raises the [ValueError] of the host for it. *)
Theorem char_and_ord_are_inverse st :
  (∀ n, (0 ≤ n < 128)%Z → (s <- bi_char [VInt n] ;; bi_ord [s]) st = Ok (VInt n) st)
  ∧ (∀ c, nat_of_ascii c < 128 →
       (n <- bi_ord [VStr (String c EmptyString)] ;; bi_char [n]) st
       = Ok (VStr (String c EmptyString)) st)
  ∧ (∀ n, (- 2 ^ 31 ≤ n < 0)%Z → bi_char [VInt n] st = Raise (HostError ValueError "") st).
Proof.
  split; [|split].
  - intros n Hn. unfold bi_char, bi_ord, py_chr, bind. simpl.
    destruct (Z.leb_spec 0 n), (Z.ltb_spec n 128); try lia. simpl.
    rewrite nat_ascii_embedding by lia.
    destruct (Nat.ltb_spec (Z.to_nat n) 128); [|lia]. unfold ret. do 2 f_equal. lia.
  - intros c Hc. unfold bi_char, bi_ord, py_chr, bind.
    destruct (Nat.ltb_spec (nat_of_ascii c) 128); [|lia]. simpl.
    destruct (Z.leb_spec 0 (Z.of_nat (nat_of_ascii c))),
      (Z.ltb_spec (Z.of_nat (nat_of_ascii c)) 128); try lia. simpl.
    by rewrite Nat2Z.id, ascii_nat_embedding.
  - intros n Hn. unfold bi_char, py_chr, bind. simpl.
    destruct (Z.leb_spec 0 n), (Z.ltb_spec n 128), (Z.ltb_spec n 1114112),
      (Z.leb_spec 128 n), (Z.ltb_spec n (- 2 ^ 31)), (Z.leb_spec (2 ^ 31) n);
      try lia; done.
Qed.

Lemma char_and_ord_are_inverse_witness :
  (0 ≤ 65 < 128)%Z
  ∧ (s <- bi_char [VInt 65] ;; bi_ord [s]) (initial_state [] ∅)
    = Ok (VInt 65) (initial_state [] ∅)
  ∧ bi_char [VInt 65] (initial_state [] ∅) = Ok (VStr "A") (initial_state [] ∅).
Proof.
  assert (Hn : (0 ≤ 65 < 128)%Z) by lia.
  split; [exact Hn|]. split; [|reflexivity].
  exact (proj1 (char_and_ord_are_inverse (initial_state [] ∅)) 65%Z Hn).
Defined.

(** ** The scanner: strings, numbers and comments *)

Lemma lexer_not_at_end lx :
  Lexer.at_end lx = false → ∃ c, Lexer.source lx !! Lexer.pos lx = Some c.
Proof.
  unfold Lexer.at_end. intros Hend%Nat.leb_gt. by apply lookup_lt_is_Some_2.
Qed.

Lemma lexer_peek_at lx c :
  Lexer.source lx !! Lexer.pos lx = Some c → Lexer.peek lx = c.
Proof. unfold Lexer.peek. by intros ->. Qed.

Lemma lexer_advance_at lx c :
  Lexer.source lx !! Lexer.pos lx = Some c →
  ∃ lx', Lexer.advance lx = Some (c, lx')
         ∧ Lexer.source lx' = Lexer.source lx
         ∧ Lexer.pos lx' = S (Lexer.pos lx)
         ∧ Lexer.line lx' = (if Ascii.eqb c Lexer.newline then S (Lexer.line lx)
                             else Lexer.line lx)
         ∧ Lexer.column lx' = (if Ascii.eqb c Lexer.newline then 1
                               else S (Lexer.column lx)).
Proof.
  intros Hc. unfold Lexer.advance. rewrite Hc.
  eexists. split; [reflexivity|]. by destruct (Ascii.eqb c Lexer.newline).
Qed.

(** What scanning a plain string literal may yield, from the cursor
    [lx0]: the string, with the cursor moved forward inside the same
    source, or the error [Unterminated string literal]. *)
Definition plain_string_outcome (lx0 : Lexer.t) (advanced : nat)
    (o : Lexer.outcome Lexer.string_token) : Prop :=
  match o with
  | Lexer.Done (Lexer.PlainString _) lx' =>
      Lexer.source lx' = Lexer.source lx0
      ∧ Lexer.pos lx0 + advanced ≤ Lexer.pos lx'
      ∧ Lexer.pos lx' ≤ length (Lexer.source lx0)
  | Lexer.LexerError message _ _ => message = "Unterminated string literal"
  | _ => False
  end.

Lemma plain_string_outcome_later lx0 lx1 k o :
  Lexer.source lx1 = Lexer.source lx0 →
  Lexer.pos lx0 + k ≤ Lexer.pos lx1 →
  plain_string_outcome lx1 1 o → plain_string_outcome lx0 (S k) o.
Proof.
  intros Hsrc Hpos. destruct o as [[s|parts] lx'| | |]; simpl; try done.
  rewrite Hsrc. intros (? & ? & ?). split; [congruence|]. lia.
Qed.

Lemma read_string_loop_safe quote_char :
  ∀ fuel current_text lx,
    length (Lexer.source lx) - Lexer.pos lx < fuel →
    plain_string_outcome lx 1
      (Lexer.read_string_loop fuel quote_char false [] current_text false lx).
Proof.
  induction fuel as [|fuel IH]; intros current_text lx Hfuel; [lia|].
  simpl. destruct (Lexer.at_end lx) eqn:Hend; simpl; [done|].
  destruct (lexer_not_at_end lx Hend) as [c Hc].
  rewrite (lexer_peek_at lx c Hc).
  destruct (lexer_advance_at lx c Hc) as (lx1 & -> & Hsrc1 & Hpos1 & _).
  assert (Hlt : Lexer.pos lx < length (Lexer.source lx)) by (by eapply lookup_lt_Some).
  destruct (Ascii.eqb c quote_char); simpl.
  { split; [done|]. lia. }
  destruct (Ascii.eqb c Lexer.backslash).
  { destruct (Lexer.at_end lx1) eqn:Hend1; [done|].
    destruct (lexer_not_at_end lx1 Hend1) as [esc Hesc].
    destruct (lexer_advance_at lx1 esc Hesc) as (lx2 & -> & Hsrc2 & Hpos2 & _).
    apply (plain_string_outcome_later lx lx2 0); [congruence|lia|].
    apply IH. rewrite Hsrc2, Hsrc1, Hpos2, Hpos1.
    apply lookup_lt_Some in Hesc. rewrite Hsrc1, Hpos1 in Hesc. lia. }
  rewrite andb_false_r. destruct (Ascii.eqb c Lexer.newline); [done|].
  apply (plain_string_outcome_later lx lx1 0); [done|lia|].
  apply IH. rewrite Hsrc1, Hpos1. lia.
Qed.

(** Scanning a string literal without interpolation, from any cursor
    inside any source: the scanner returns either the string, with the
    cursor moved forward by at least two characters (the quotes) and not
    beyond the end of the source, or the error
    [Unterminated string literal].  It never reads past the end of the
    source and never yields interpolation parts. *)
Theorem read_string_never_overruns quote_char lx :
  Lexer.pos lx < length (Lexer.source lx) →
  plain_string_outcome lx 2 (Lexer.read_string quote_char false lx).
Proof.
  intros Hpos. unfold Lexer.read_string.
  destruct (lookup_lt_is_Some_2 _ _ Hpos) as [c Hc].
  destruct (lexer_advance_at lx c Hc) as (lx1 & -> & Hsrc1 & Hpos1 & _).
  apply (plain_string_outcome_later lx lx1 1); [done|lia|].
  apply read_string_loop_safe. rewrite Hsrc1, Hpos1. lia.
Qed.

(** The source [x = ], a double quote and [ab]: the quote is never closed. *)
Lemma read_string_never_overruns_witness :
  let lx := Lexer.mk ["x"; " "; "="; " "; dquote; "a"; "b"]%char 4 1 5 in
  Lexer.pos lx < length (Lexer.source lx)
  ∧ plain_string_outcome lx 2 (Lexer.read_string dquote false lx)
  ∧ Lexer.read_string dquote false lx = Lexer.LexerError "Unterminated string literal" 1 8.
Proof.
  intros lx.
  assert (Hpos : Lexer.pos lx < length (Lexer.source lx)) by (simpl; lia).
  split; [exact Hpos|]. split; [|reflexivity].
  exact (read_string_never_overruns dquote lx Hpos).
Defined.

(** The loop of [read_string] over the items of a literal, whatever
    follows them: one turn for each item. *)
Lemma read_string_loop_through quote_char interpolate tail items :
  quote_char ≠ Lexer.backslash →
  Forall (item_ok quote_char interpolate) items →
  ∀ pre current_text line column fuel,
    ∃ line' column',
      Lexer.read_string_loop (length items + fuel) quote_char interpolate []
        current_text false
        (Lexer.mk (pre ++ flat_map item_source items ++ tail) (length pre) line column)
      = Lexer.read_string_loop fuel quote_char interpolate []
          (current_text ++ flat_map item_value items) false
          (Lexer.mk (pre ++ flat_map item_source items ++ tail)
             (length pre + length (flat_map item_source items)) line' column').
Proof.
  intros Hquote Hitems.
  induction Hitems as [|item items Hitem _ IH]; intros pre current_text line column fuel.
  - exists line, column. simpl. by rewrite app_nil_r, Nat.add_0_r.
  - destruct item as [c|c]; cbn [length Nat.add flat_map item_source item_value app].
    + destruct Hitem as (Hq & Hb & Hn & Hl).
      cbn [Lexer.read_string_loop].
      rewrite lexer_at_end_middle, lexer_peek_middle.
      apply Ascii.eqb_neq in Hq as ->. apply Ascii.eqb_neq in Hb as ->.
      apply Ascii.eqb_neq in Hn as ->. cbn [negb andb].
      replace (Ascii.eqb c Lexer.lbrace && interpolate) with false
        by (destruct interpolate; [|by rewrite andb_false_r];
            symmetry; rewrite andb_true_r; by apply Ascii.eqb_neq, Hl).
      destruct (lexer_advance_middle pre c
                  (flat_map item_source items ++ tail) line column)
        as (line1 & column1 & ->).
      destruct (IH (pre ++ [c]) (current_text ++ [c]) line1 column1 fuel)
        as (line' & column' & ->).
      rewrite <- !app_assoc, length_app. simpl.
      exists line', column'. do 2 f_equal. lia.
    + cbn [Lexer.read_string_loop].
      rewrite lexer_at_end_middle, lexer_peek_middle.
      assert (Ascii.eqb Lexer.backslash quote_char = false) as ->
        by (apply Ascii.eqb_neq; congruence).
      rewrite Ascii.eqb_refl. cbn [negb andb].
      destruct (lexer_advance_middle pre Lexer.backslash
                  (c :: flat_map item_source items ++ tail) line column)
        as (line1 & column1 & ->).
      rewrite lexer_at_end_middle.
      destruct (lexer_advance_middle (pre ++ [Lexer.backslash]) c
                  (flat_map item_source items ++ tail) line1 column1)
        as (line2 & column2 & ->).
      rewrite escape_get_value.
      destruct (IH ((pre ++ [Lexer.backslash]) ++ [c]) (current_text ++ escape_value c)
                  line2 column2 fuel) as (line' & column' & ->).
      rewrite <- !app_assoc, !length_app. simpl.
      exists line', column'. do 2 f_equal. lia.
Qed.

(** How a string literal can fail to end. *)
Inductive unterminated : list ascii → Prop :=
| ends_with_source : unterminated []
| ends_with_line after : unterminated (Lexer.newline :: after)
| ends_in_escape : unterminated [Lexer.backslash].

(** A string literal that is not closed is reported: when the opening
    quote and the items of the literal are followed by the end of the
    source, by a newline, or by a backslash that is the last character of
    the source, the scanner raises [Unterminated string literal]. *)
Theorem unterminated_string_is_reported quote_char interpolate before items tail
    line column :
  quote_char = dquote ∨ quote_char = Lexer.squote →
  Forall (item_ok quote_char interpolate) items →
  unterminated tail →
  ∃ line' column',
    Lexer.read_string quote_char interpolate
      (Lexer.mk (before ++ quote_char :: flat_map item_source items ++ tail)
         (length before) line column)
    = Lexer.LexerError "Unterminated string literal" line' column'.
Proof.
  intros Hquote Hitems Htail. unfold Lexer.read_string.
  assert (Hq : quote_char ≠ Lexer.backslash) by (by destruct Hquote as [-> | ->]).
  assert (Hqn : Ascii.eqb Lexer.newline quote_char = false)
    by (by destruct Hquote as [-> | ->]).
  destruct (lexer_advance_middle before quote_char
              (flat_map item_source items ++ tail) line column)
    as (line1 & column1 & ->).
  cbn [Lexer.source].
  set (src := before ++ quote_char :: flat_map item_source items ++ tail).
  assert (Hfuel : ∃ fuel, S (length src) = length items + S fuel).
  { exists (length src - length items).
    assert (length items ≤ length (flat_map item_source items)).
    { clear. induction items as [|[c|c] items IH]; simpl; lia. }
    subst src. rewrite length_app. simpl. rewrite length_app. lia. }
  destruct Hfuel as [fuel ->].
  replace ((before ++ [quote_char]) ++ flat_map item_source items ++ tail) with src
    by (subst src; by rewrite <- app_assoc).
  destruct (read_string_loop_through quote_char interpolate tail items Hq Hitems
              (before ++ [quote_char]) [] line1 column1 (S fuel))
    as (line2 & column2 & Hloop).
  replace ((before ++ [quote_char]) ++ flat_map item_source items ++ tail) with src
    in Hloop by (subst src; by rewrite <- app_assoc).
  rewrite Hloop. clear Hloop.
  assert (Hsrc : src = (before ++ quote_char :: flat_map item_source items) ++ tail)
    by (subst src; by rewrite <- app_assoc).
  assert (Hpos : length (before ++ [quote_char]) + length (flat_map item_source items)
                 = length (before ++ quote_char :: flat_map item_source items))
    by (rewrite !length_app; simpl; lia).
  rewrite Hpos, Hsrc. clear Hpos Hsrc.
  set (pre := before ++ quote_char :: flat_map item_source items).
  cbn [Lexer.read_string_loop]. destruct Htail as [|after|].
  - assert (Hend : Lexer.at_end (Lexer.mk (pre ++ []) (length pre) line2 column2) = true).
    { unfold Lexer.at_end. simpl. rewrite app_nil_r. by apply Nat.leb_le. }
    rewrite Hend. simpl. by eexists _, _.
  - rewrite lexer_at_end_middle, lexer_peek_middle, Hqn. simpl. by eexists _, _.
  - rewrite lexer_at_end_middle, lexer_peek_middle.
    assert (Ascii.eqb Lexer.backslash quote_char = false) as ->
      by (apply Ascii.eqb_neq; congruence).
    simpl.
    destruct (lexer_advance_middle pre Lexer.backslash [] line2 column2)
      as (line3 & column3 & ->).
    assert (Hend : Lexer.at_end (Lexer.mk ((pre ++ [Lexer.backslash]) ++ [])
                                   (length (pre ++ [Lexer.backslash])) line3 column3) = true).
    { unfold Lexer.at_end. simpl. rewrite app_nil_r. by apply Nat.leb_le. }
    rewrite Hend. by eexists _, _.
Qed.

(** The literal [abc] is opened by a double quote and followed by a
    newline. *)
Lemma unterminated_string_is_reported_witness :
  (dquote = dquote ∨ dquote = Lexer.squote)
  ∧ Forall (item_ok dquote false) [Plain "a"; Plain "b"; Plain "c"]%char
  ∧ unterminated [Lexer.newline]
  ∧ ∃ line' column',
      Lexer.read_string dquote false
        (Lexer.mk ([dquote; "a"; "b"; "c"; Lexer.newline]%char) 0 1 1)
      = Lexer.LexerError "Unterminated string literal" line' column'.
Proof.
  assert (Hitems : Forall (item_ok dquote false) [Plain "a"; Plain "b"; Plain "c"]%char).
  { repeat constructor; try (intros H; vm_compute in H; discriminate H). }
  split; [by left|]. split; [exact Hitems|]. split; [constructor|].
  exact (unterminated_string_is_reported dquote false [] _ _ 1 1
           (or_introl eq_refl) Hitems (ends_with_line [])).
Defined.

Lemma is_digit_not_special c :
  is_digit c = true →
  Ascii.eqb c "." = false ∧ Ascii.eqb c Lexer.newline = false ∧ is_space c = false
  ∧ Ascii.eqb c "-" = false ∧ Ascii.eqb c "+" = false.
Proof.
  unfold is_digit, is_space. intros [H1 H2]%andb_true_iff.
  apply Nat.leb_le in H1, H2.
  assert (Hne : ∀ d, nat_of_ascii d < 48 ∨ 57 < nat_of_ascii d → Ascii.eqb c d = false).
  { intros d Hd. apply Ascii.eqb_neq. intros ->. lia. }
  repeat split; try (apply Hne; vm_compute; lia).
  apply orb_false_iff. split; apply andb_false_iff.
  - right. apply Nat.leb_gt. lia.
  - right. apply Nat.leb_gt. lia.
Qed.

Lemma read_number_digits src line :
  ∀ ds p result has_dot col fuel,
    Forall (fun c => is_digit c = true) ds →
    (∀ i c, ds !! i = Some c → src !! (p + i) = Some c) →
    Lexer.read_number_loop (length ds + fuel) result has_dot (Lexer.mk src p line col)
    = Lexer.read_number_loop fuel (result ++ ds) has_dot
        (Lexer.mk src (p + length ds) line (col + length ds)).
Proof.
  induction ds as [|c ds IH]; intros p result has_dot col fuel Hds Hsrc.
  - simpl. by rewrite app_nil_r, !Nat.add_0_r.
  - apply Forall_cons in Hds as [Hc Hds].
    assert (Hp : src !! p = Some c) by (rewrite <- (Nat.add_0_r p); by apply Hsrc).
    destruct (is_digit_not_special c Hc) as (Hdot & Hnl & _).
    cbn [length Nat.add Lexer.read_number_loop].
    assert (Hend : Lexer.at_end (Lexer.mk src p line col) = false).
    { unfold Lexer.at_end. simpl. apply Nat.leb_gt. by eapply lookup_lt_Some. }
    rewrite Hend, (lexer_peek_at (Lexer.mk src p line col) c Hp), Hc, Hdot.
    cbn [negb andb orb]. unfold Lexer.advance. simpl. rewrite Hp, Hnl.
    rewrite (IH (S p) (result ++ [c]) has_dot (S col) fuel Hds).
    + rewrite <- app_assoc. simpl. do 2 f_equal; lia.
    + intros i d Hd. replace (S p + i) with (p + S i) by lia. by apply Hsrc.
Qed.

(** The number that a run of decimal digits denotes. *)
Definition decimal (ds : list ascii) : Z :=
  foldl (fun acc c => (10 * acc + digit_val c)%Z) 0%Z ds.

Lemma digits_tail_all ds :
  Forall (fun c => is_digit c = true) ds →
  ∀ acc n,
    digits_tail acc n ds
    = (foldl (fun acc c => (10 * acc + digit_val c)%Z) acc ds, n + length ds, []).
Proof.
  induction 1 as [|c ds Hc _ IH]; intros acc n; simpl.
  - by rewrite Nat.add_0_r.
  - rewrite Hc, IH. do 2 f_equal. lia.
Qed.

Lemma lstrip_digit c l : is_digit c = true → lstrip (c :: l) = c :: l.
Proof.
  intros Hc. simpl. by destruct (is_digit_not_special c Hc) as (_ & _ & -> & _).
Qed.

Lemma py_int_digits ds :
  ds ≠ [] → Forall (fun c => is_digit c = true) ds → py_int (text ds) = Some (decimal ds).
Proof.
  intros Hne Hds. unfold py_int, chars, text. rewrite list_ascii_of_string_of_list_ascii.
  assert (Hstrip : strip ds = ds).
  { unfold strip. destruct ds as [|c ds]; [done|].
    apply Forall_cons in Hds as Hc. destruct Hc as [Hc _].
    rewrite (lstrip_digit c ds Hc).
    destruct (rev (c :: ds)) as [|d r] eqn:Hrev.
    - apply (f_equal (@length ascii)) in Hrev. rewrite length_rev in Hrev. done.
    - assert (Hd : is_digit d = true).
      { rewrite Forall_forall in Hds. apply Hds. apply list_elem_of_In, in_rev.
        rewrite Hrev. by left. }
      rewrite (lstrip_digit d r Hd), <- Hrev. apply rev_involutive. }
  rewrite Hstrip. destruct ds as [|c ds]; [done|].
  apply Forall_cons in Hds as [Hc Hds].
  destruct (is_digit_not_special c Hc) as (_ & _ & _ & Hminus & Hplus).
  unfold split_sign. rewrite Hminus, Hplus. unfold digitpart. rewrite Hc.
  rewrite digits_tail_all by done. done.
Qed.

(** What may follow the digits of an integer literal: anything but a
    digit, and a dot only when no digit follows the dot. *)
Definition ends_integer (rest : list ascii) : Prop :=
  match rest with
  | [] => True
  | c :: r =>
      is_digit c = false
      ∧ (c = "."%char → match r with d :: _ => is_digit d = false | [] => True end)
  end.

(** What may follow the digits of a fraction: anything but a digit (a
    second dot ends the number). *)
Definition ends_fraction (rest : list ascii) : Prop :=
  match rest with
  | [] => True
  | c :: _ => is_digit c = false
  end.

Lemma read_number_stop src p line col result (has_dot : bool) rest fuel :
  (∀ i c, rest !! i = Some c → src !! (p + i) = Some c) →
  length src = p + length rest →
  (if has_dot then ends_fraction rest else ends_integer rest) →
  Lexer.read_number_loop (S fuel) result has_dot (Lexer.mk src p line col)
  = Lexer.Done (result, has_dot) (Lexer.mk src p line col).
Proof.
  intros Hsrc Hlen Hrest. cbn [Lexer.read_number_loop].
  destruct rest as [|c r].
  - assert (Hend : Lexer.at_end (Lexer.mk src p line col) = true).
    { unfold Lexer.at_end. simpl in *. apply Nat.leb_le. lia. }
    by rewrite Hend.
  - assert (Hp : src !! p = Some c) by (rewrite <- (Nat.add_0_r p); by apply Hsrc).
    assert (Hend : Lexer.at_end (Lexer.mk src p line col) = false).
    { unfold Lexer.at_end. simpl. apply Nat.leb_gt. by eapply lookup_lt_Some. }
    rewrite Hend, (lexer_peek_at (Lexer.mk src p line col) c Hp). cbn [negb andb].
    assert (Hc : is_digit c = false) by (destruct has_dot; [exact Hrest|apply Hrest]).
    rewrite Hc. cbn [orb].
    destruct (Ascii.eqb_spec c ".") as [->|Hne]; [|done].
    destruct has_dot.
    + by destruct (is_digit (Lexer.peek_ahead _ _)).
    + destruct Hrest as [_ Hnext]. specialize (Hnext eq_refl).
      assert (Hahead : is_digit (Lexer.peek_ahead (Lexer.mk src p line col) 1) = false).
      { unfold Lexer.peek_ahead. simpl. destruct r as [|d r].
        - rewrite lookup_ge_None_2 by (simpl in Hlen; lia). done.
        - by rewrite (Hsrc 1 d eq_refl). }
      by rewrite Hahead.
Qed.



Lemma skip_comment_text src line :
  ∀ comment p col fuel,
    Forall (fun c => c ≠ Lexer.newline) comment →
    (∀ i c, comment !! i = Some c → src !! (p + i) = Some c) →
    Lexer.skip_comment_loop (length comment + fuel) (Lexer.mk src p line col)
    = Lexer.skip_comment_loop fuel
        (Lexer.mk src (p + length comment) line (col + length comment)).
Proof.
  induction comment as [|c comment IH]; intros p col fuel Hcomment Hsrc.
  - simpl. by rewrite !Nat.add_0_r.
  - apply Forall_cons in Hcomment as [Hc Hcomment].
    assert (Hp : src !! p = Some c) by (rewrite <- (Nat.add_0_r p); by apply Hsrc).
    apply Ascii.eqb_neq in Hc.
    cbn [length Nat.add Lexer.skip_comment_loop].
    assert (Hend : Lexer.at_end (Lexer.mk src p line col) = false).
    { unfold Lexer.at_end. simpl. apply Nat.leb_gt. by eapply lookup_lt_Some. }
    rewrite Hend, (lexer_peek_at (Lexer.mk src p line col) c Hp), Hc.
    cbn [negb andb]. unfold Lexer.advance. simpl. rewrite Hp, Hc.
    rewrite (IH (S p) (S col) fuel Hcomment).
    + do 2 f_equal; lia.
    + intros i d Hd. replace (S p + i) with (p + S i) by lia. by apply Hsrc.
Qed.

(** What ends a comment: the end of the source or a newline. *)
Definition ends_line (tail : list ascii) : Prop :=
  match tail with
  | [] => True
  | c :: _ => c = Lexer.newline
  end.

(** A comment starts with two dashes and runs to the end of the line:
    from a cursor on the two dashes, [skip_comment] moves the cursor over the
    dashes and over every character up to, and not including, the next
    newline (or to the end of the source), on the same line; from a cursor
    that is not on two dashes it does nothing. *)
Theorem comment_runs_to_end_of_line before comment tail line column :
  Forall (fun c => c ≠ Lexer.newline) comment →
  ends_line tail →
  let src := before ++ "-"%char :: "-"%char :: comment ++ tail in
  Lexer.skip_comment (Lexer.mk src (length before) line column)
  = Lexer.Done tt
      (Lexer.mk src (length before + 2 + length comment) line
         (column + 2 + length comment))
  ∧ ∀ lx,
      Lexer.peek lx ≠ "-"%char ∨ Lexer.peek_ahead lx 1 ≠ "-"%char →
      Lexer.skip_comment lx = Lexer.Done tt lx.
Proof.
  intros Hcomment Htail src. split.
  - assert (Hat : ∀ i c, ("-"%char :: "-"%char :: comment ++ tail) !! i = Some c →
              src !! (length before + i) = Some c).
    { intros i c Hc. subst src. by rewrite lookup_app_r, Nat.add_comm, Nat.add_sub by lia. }
    assert (Hlen : length src = length before + 2 + length comment + length tail).
    { subst src. rewrite length_app. simpl. rewrite length_app. lia. }
    unfold Lexer.skip_comment.
    rewrite (lexer_peek_at (Lexer.mk src (length before) line column) "-");
      [|cbn [Lexer.source Lexer.pos]; rewrite <- (Nat.add_0_r (length before));
        by apply Hat].
    unfold Lexer.peek_ahead. cbn [Lexer.source Lexer.pos].
    rewrite (Hat 1 "-"%char eq_refl). cbn [Ascii.eqb Bool.eqb andb].
    replace (S (length src))
      with (length ("-"%char :: "-"%char :: comment) + S (length tail + length before))
      by (simpl; lia).
    rewrite (skip_comment_text src line ("-"%char :: "-"%char :: comment)).
    + cbn [Lexer.skip_comment_loop length].
      replace (length before + S (S (length comment)))
        with (length before + 2 + length comment) by lia.
      replace (column + S (S (length comment)))
        with (column + 2 + length comment) by lia.
      destruct tail as [|c tail].
      * assert (Hend : Lexer.at_end (Lexer.mk src (length before + 2 + length comment) line
                                       (column + 2 + length comment)) = true).
        { unfold Lexer.at_end. simpl in *. apply Nat.leb_le. lia. }
        by rewrite Hend.
      * simpl in Htail. subst c.
        assert (Hnl : src !! (length before + 2 + length comment) = Some Lexer.newline).
        { replace (length before + 2 + length comment)
            with (length before + (2 + length comment)) by lia.
          apply Hat. simpl. by rewrite list_lookup_middle. }
        rewrite (lexer_peek_at (Lexer.mk src _ line _) _ Hnl), Ascii.eqb_refl.
        by rewrite andb_false_r.
    + repeat constructor; try done.
    + intros i c Hc. apply Hat.
      change (("-"%char :: "-"%char :: comment ++ tail) !! i)
        with ((("-"%char :: "-"%char :: comment) ++ tail) !! i).
      by apply lookup_app_l_Some.
  - intros lx Hlx. unfold Lexer.skip_comment.
    destruct (Ascii.eqb_spec (Lexer.peek lx) "-"), (Ascii.eqb_spec (Lexer.peek_ahead lx 1) "-");
      try done. by destruct Hlx.
Qed.

(** In [x -- note], followed by a newline, the comment ends before the
    newline. *)
Lemma comment_runs_to_end_of_line_witness :
  Forall (fun c => c ≠ Lexer.newline) [" "; "n"; "o"; "t"; "e"]%char
  ∧ ends_line [Lexer.newline; "y"%char]
  ∧ Lexer.skip_comment
      (Lexer.mk (["x"; " "; "-"; "-"; " "; "n"; "o"; "t"; "e"; Lexer.newline; "y"]%char) 2 1 3)
    = Lexer.Done tt
        (Lexer.mk (["x"; " "; "-"; "-"; " "; "n"; "o"; "t"; "e"; Lexer.newline; "y"]%char)
           9 1 10).
Proof.
  assert (Hcomment : Forall (fun c => c ≠ Lexer.newline) [" "; "n"; "o"; "t"; "e"]%char)
    by (repeat constructor; discriminate).
  assert (Htail : ends_line [Lexer.newline; "y"%char]) by reflexivity.
  split; [exact Hcomment|]. split; [exact Htail|].
  exact (proj1 (comment_runs_to_end_of_line ["x"; " "]%char _ _ 1 3 Hcomment Htail)).
Defined.
